(** * A shallow embedding of parts of the Vampire prover

    The development follows the sources file by file:
    - [Shell/SMTFormula.cpp]                 modules [Shell] (the formula
      constructors) and [SMT] (the benchmark and the solvers);
    - [Lib/Set.hpp], [Lib/Hash.hpp]          module [Lib];
    - the term, literal and clause model and the helpers of [Kernel] that
      [Inferences/ForwardDemodulation.cpp] uses   module [Kernel];
    - the hits of the demodulation index     module [Indexing];
    - [ForwardDemodulationImpl::perform]     module [Inferences];
    - [ForwardDemodulation::attach], [detach] and the index manager
                                             module [ForwardDemodulation];
    - [Kernel/LiteralComparators.hpp]        module [LiteralComparators];
    - the reference counter of [Api/Helper_Internal.hpp]   module [Api];
    - [InductionContext] of [Inferences/Induction.hpp]     module [Induction];
    - a concrete run of [perform]            module [Scenario].

    In every module the definitions come first and their properties
    follow. *)

From stdpp Require Import base option list strings gmap.

(* ===================================================================== *)
(** * Shell/SMTFormula.cpp                                                *)
(* ===================================================================== *)

Module Shell.
#[local] Open Scope string_scope.

(** [class SMTFormula]: the formula is kept as its SMT-LIB text in the
    member [_val]. *)
Record SMTFormula : Type := mkSMTFormula { _val : string }.

#[global] Instance SMTFormula_eq_dec : EqDecision SMTFormula.
Proof. solve_decision. Defined.

(** The header [SMTFormula.hpp] is not among the sources. Its four inline
    helpers used by [conjunction] and [disjunction] are taken with their
    evident meaning: the constants are the SMT-LIB texts [true] and
    [false] (the text [SMTBenchmark::output] prints for an empty
    benchmark), and the tests compare [_val] with those texts. *)
Definition getTrue : SMTFormula := mkSMTFormula "true".
Definition getFalse : SMTFormula := mkSMTFormula "false".
Definition isTrue (f : SMTFormula) : bool := bool_decide (_val f = "true").
Definition isFalse (f : SMTFormula) : bool := bool_decide (_val f = "false").

(** [SMTFormula::conjunction], lines 49-57. *)
Definition conjunction (f1 f2 : SMTFormula) : SMTFormula :=
  if isTrue f1 then f2
  else if isTrue f2 then f1
  else if isFalse f1 || isFalse f2 then getFalse
  else mkSMTFormula ("(and " +:+ _val f1 +:+ " " +:+ _val f2 +:+ ")").

(** [SMTFormula::disjunction], lines 59-67.  On line 65 the value of
    [getTrue()] is computed and dropped: the statement has no [return], so
    control falls through to line 66 in both branches of the test. *)
Definition disjunction (f1 f2 : SMTFormula) : SMTFormula :=
  if isFalse f1 then f2
  else if isFalse f2 then f1
  else
    let fallthrough :=
      mkSMTFormula ("(or " +:+ _val f1 +:+ " " +:+ _val f2 +:+ ")") in
    if isTrue f1 || isTrue f2
    then (let _ := getTrue in fallthrough)
    else fallthrough.

(** ** Properties *)

Lemma isTrue_spec f : isTrue f = true ↔ f = getTrue.
Proof.
  unfold isTrue, getTrue. rewrite bool_decide_eq_true.
  destruct f as [v]; simpl. split; [by intros -> | by intros [= ->]].
Qed.

Lemma isFalse_spec f : isFalse f = true ↔ f = getFalse.
Proof.
  unfold isFalse, getFalse. rewrite bool_decide_eq_true.
  destruct f as [v]; simpl. split; [by intros -> | by intros [= ->]].
Qed.

(** The sibling path: [false] annihilates [conjunction]. *)
Lemma conjunction_false_annihilates f1 f2 :
  isFalse f1 = true ∨ isFalse f2 = true → conjunction f1 f2 = getFalse.
Proof.
  intros Hf. unfold conjunction.
  destruct (isTrue f1) eqn:T1.
  { apply isTrue_spec in T1 as ->. destruct Hf as [Hf|Hf]; [done|].
    by apply isFalse_spec. }
  destruct (isTrue f2) eqn:T2.
  { apply isTrue_spec in T2 as ->. destruct Hf as [Hf|Hf]; [|done].
    by apply isFalse_spec. }
  destruct Hf as [-> | ->]; [done | by rewrite orb_true_r].
Qed.

(** Whatever [isTrue] answers, [disjunction] of two formulas that are not
    [false] is the [(or ...)] text. *)
Lemma disjunction_not_false f1 f2 :
  isFalse f1 = false → isFalse f2 = false →
  disjunction f1 f2
  = mkSMTFormula ("(or " +:+ _val f1 +:+ " " +:+ _val f2 +:+ ")").
Proof.
  intros F1 F2. unfold disjunction. rewrite F1, F2.
  by destruct (isTrue f1 || isTrue f2).
Qed.

(** C9 (evaluation at the failing input): [f1] is the true formula, [f2]
    the propositional constant [p]; [disjunction f1 f2] is the text
    [(or true p)] and not [getTrue()], although [isTrue f1] holds.  The
    dual half holds: [conjunction] returns [getFalse()] whenever one of its
    arguments is the false formula. *)
Theorem disjunction_true_not_annihilator :
  isTrue (mkSMTFormula "true") = true ∧
  disjunction (mkSMTFormula "true") (mkSMTFormula "p")
    = mkSMTFormula "(or true p)" ∧
  disjunction (mkSMTFormula "true") (mkSMTFormula "p") ≠ getTrue ∧
  (∀ f1 f2, isFalse f1 = true ∨ isFalse f2 = true →
            conjunction f1 f2 = getFalse).
Proof.
  split_and!; [reflexivity | reflexivity | by vm_compute |].
  apply conjunction_false_annihilates.
Qed.

(* --------------------------------------------------------------------- *)
(** ** Constants through [conjunction] and [disjunction]                   *)
(* --------------------------------------------------------------------- *)

(** X1: [conjunction] propagates the constants: its result is the true
    formula exactly when both arguments are, and the false formula exactly
    when one argument is; the true formula is a two-sided identity. *)
Theorem conjunction_constants f1 f2 :
  (isTrue (conjunction f1 f2) = isTrue f1 && isTrue f2) ∧
  (isFalse (conjunction f1 f2) = isFalse f1 || isFalse f2) ∧
  conjunction getTrue f1 = f1 ∧ conjunction f1 getTrue = f1.
Proof.
  split_and!.
  - unfold conjunction.
    destruct (isTrue f1) eqn:T1; [done|].
    destruct (isTrue f2) eqn:T2; [done|].
    destruct (isFalse f1 || isFalse f2); [done|]. done.
  - unfold conjunction.
    destruct (isTrue f1) eqn:T1.
    { apply isTrue_spec in T1 as ->. done. }
    destruct (isTrue f2) eqn:T2.
    { apply isTrue_spec in T2 as ->. by rewrite orb_false_r. }
    destruct (isFalse f1 || isFalse f2); done.
  - done.
  - unfold conjunction. destruct (isTrue f1) eqn:T1; [|done].
    by apply isTrue_spec in T1 as ->.
Qed.

(** X2: [disjunction] propagates the false constant (the result is the
    false formula exactly when both arguments are, and the false formula
    is a two-sided identity), but its result is the true formula only when
    one argument is true and the other one false. *)
Theorem disjunction_constants f1 f2 :
  (isFalse (disjunction f1 f2) = isFalse f1 && isFalse f2) ∧
  (isTrue (disjunction f1 f2)
   = (isFalse f1 && isTrue f2) || (isTrue f1 && isFalse f2)) ∧
  disjunction getFalse f1 = f1 ∧ disjunction f1 getFalse = f1.
Proof.
  split_and!.
  - unfold disjunction.
    destruct (isFalse f1) eqn:F1; [done|].
    destruct (isFalse f2) eqn:F2; [done|].
    by destruct (isTrue f1 || isTrue f2).
  - unfold disjunction.
    destruct (isFalse f1) eqn:F1.
    { apply isFalse_spec in F1 as ->. simpl. by rewrite orb_false_r. }
    destruct (isFalse f2) eqn:F2.
    { apply isFalse_spec in F2 as ->. simpl. by rewrite andb_true_r. }
    rewrite andb_false_r. by destruct (isTrue f1 || isTrue f2).
  - done.
  - unfold disjunction. destruct (isFalse f1) eqn:F1; [|done].
    by apply isFalse_spec in F1 as ->.
Qed.

End Shell.

(* ===================================================================== *)
(** * Shell/SMTFormula.cpp: [SMTBenchmark] and [SMTSolver]                *)
(* ===================================================================== *)

Module SMT.
Import Stdlib.Strings.Ascii.
Import Shell.
#[local] Open Scope string_scope.

(** What a call can throw: a failed [ASS] of the debug build, the
    [USER_ERROR] of [YicesSolver::run], [std::out_of_range] of
    [std::string::substr]. *)
Inductive Exn : Type :=
  | AssertionViolated
  | UserError (msg : string)
  | OutOfRange.

Definition Exc (A : Type) : Type := Exn + A.

Definition bind {A B : Type} (m : Exc A) (k : A → Exc B) : Exc B :=
  match m with
  | inl e => inl e
  | inr a => k a
  end.

#[local] Notation "'let*' p ':=' m 'in' k" :=
  (bind m (λ x, let 'p := x in k))
  (at level 10, p pattern, m at level 100, k at level 200).

(** [class SMTConstant] is a subclass of [SMTFormula]. *)
Definition SMTConstant : Type := SMTFormula.

(** [SMTFormula::toString()] (of the absent header): the text. *)
Definition toString (f : SMTFormula) : string := _val f.

(** [class SMTBenchmark], by the members the functions of
    [SMTFormula.cpp] use: the stacks [_formulas] and [_formulaComments]
    (bottom first), the map [_funDecls] and the set [_predDecls]. *)
Record SMTBenchmark : Type := mkSMTBenchmark {
  _formulas : list SMTFormula;
  _formulaComments : list string;
  _funDecls : gmap string string;
  _predDecls : gset string
}.

(** [Stack::push] and [Stack::pop] ([Lib/Stack.hpp] is not among the
    sources): the top is the last element; [pop] asserts a non-empty
    stack. *)
Definition push {A : Type} (x : A) (s : list A) : list A := s ++ [x].

Definition pop {A : Type} (s : list A) : Exc (list A) :=
  match s with
  | [] => inl AssertionViolated
  | _ :: _ => inr (removelast s)
  end.

(** [SMTBenchmark::addFormula], lines 86-93. *)
Definition addFormula (f : SMTFormula) (comment : string) (b : SMTBenchmark)
  : Exc SMTBenchmark :=
  if negb (length (_formulas b) =? length (_formulaComments b))%nat
  then inl AssertionViolated
  else inr (mkSMTBenchmark (push f (_formulas b))
                           (push comment (_formulaComments b))
                           (_funDecls b) (_predDecls b)).

(** [SMTBenchmark::popFormula], lines 98-105. *)
Definition popFormula (b : SMTBenchmark) : Exc SMTBenchmark :=
  if negb (length (_formulas b) =? length (_formulaComments b))%nat
  then inl AssertionViolated
  else
    let* fs := pop (_formulas b) in
    let* cs := pop (_formulaComments b) in
    inr (mkSMTBenchmark fs cs (_funDecls b) (_predDecls b)).

(** [SMTBenchmark::declarePropositionalConstant], lines 107-113. *)
Definition declarePropositionalConstant (pred : SMTConstant)
    (b : SMTBenchmark) : Exc SMTBenchmark :=
  if bool_decide (is_Some (_funDecls b !! toString pred))
  then inl AssertionViolated
  else inr (mkSMTBenchmark (_formulas b) (_formulaComments b) (_funDecls b)
                           ({[toString pred]} ∪ _predDecls b)).

(** [SMTBenchmark::declareRealConstant], lines 115-121.  Every value of
    [_funDecls] is the text [Real], so it does not matter whether the
    map's [insert] replaces the value of a key it already holds. *)
Definition declareRealConstant (pred : SMTConstant) (b : SMTBenchmark)
  : Exc SMTBenchmark :=
  if bool_decide (toString pred ∈ _predDecls b)
  then inl AssertionViolated
  else inr (mkSMTBenchmark (_formulas b) (_formulaComments b)
                           (<[toString pred := "Real"]> (_funDecls b))
                           (_predDecls b)).

(** The benchmark as its constructor leaves it. *)
Definition emptyBenchmark : SMTBenchmark := mkSMTBenchmark [] [] ∅ ∅.

(** What the assertions of the four functions maintain: the two stacks
    have the same size, no name is declared both as a predicate and as a
    real constant, and every declared function is [Real]. *)
Definition wellFormed (b : SMTBenchmark) : Prop :=
  length (_formulas b) = length (_formulaComments b) ∧
  (∀ n, n ∈ _predDecls b → _funDecls b !! n = None) ∧
  (∀ n ty, _funDecls b !! n = Some ty → ty = "Real").

(** The calls that build a benchmark. *)
Inductive BenchmarkCall : Type :=
  | AddFormula (f : SMTFormula) (comment : string)
  | PopFormula
  | DeclarePropositionalConstant (pred : SMTConstant)
  | DeclareRealConstant (pred : SMTConstant).

Definition call (c : BenchmarkCall) (b : SMTBenchmark) : Exc SMTBenchmark :=
  match c with
  | AddFormula f comment => addFormula f comment b
  | PopFormula => popFormula b
  | DeclarePropositionalConstant pred => declarePropositionalConstant pred b
  | DeclareRealConstant pred => declareRealConstant pred b
  end.

Fixpoint calls (cs : list BenchmarkCall) (b : SMTBenchmark)
  : Exc SMTBenchmark :=
  match cs with
  | [] => inr b
  | c :: cs' => let* b' := call c b in calls cs' b'
  end.

(** [SMTSolverResult] (of the absent header), by the members [run] and
    [tryUpperBound] use. *)
Inductive Status : Type := SAT | UNSAT | UNKNOWN.

#[global] Instance Status_eq_dec : EqDecision Status.
Proof. solve_decision. Defined.

Section Solver.
#[local] Set Default Proof Using "Type".
(** The type of [SMTSolverResult::assignment] and its [insert] and
    [reset] are not among the sources. *)
Variable Assignment : Type.
Variable emptyAssignment : Assignment.
Variable insertAssignment : string → string → Assignment → Assignment.

Record SMTSolverResult : Type := mkSMTSolverResult {
  status : Status;
  assignment : Assignment
}.

(** [SMTSolverResult::reset()]. *)
Definition resetResult (res : SMTSolverResult) : SMTSolverResult :=
  mkSMTSolverResult UNKNOWN emptyAssignment.

(** [Int::toString] and [SMTFormula::less] are not among the sources. *)
Variable Int_toString : N → string.
Variable less : SMTFormula → SMTFormula → SMTFormula.

(** The virtual [SMTSolver::run(problem, res)]: both are reference
    parameters. *)
Variable run :
  SMTBenchmark → SMTSolverResult → Exc (SMTBenchmark * SMTSolverResult).

(** [SMTFormula::unsignedValue], lines 19-24. *)
Definition unsignedValue (val : N) : SMTConstant :=
  mkSMTFormula (Int_toString val +:+ ".0").

(** [SMTFormula::name], lines 26-38. *)
Definition name1 (name : string) : SMTConstant := mkSMTFormula name.
Definition name2 (n1 n2 : string) : SMTConstant :=
  mkSMTFormula (n1 +:+ "_" +:+ n2).

(** [SMTFormula::condNumber], lines 41-46. *)
Definition condNumber (condition : SMTFormula) (value : N) : SMTFormula :=
  mkSMTFormula ("(ite " +:+ _val condition +:+ " "
                +:+ _val (unsignedValue value) +:+ " 0.0)").

(** [SMTSolver::tryUpperBound], lines 203-217. *)
Definition tryUpperBound (problem : SMTBenchmark) (costFn : SMTConstant)
    (val : N) (res : SMTSolverResult)
  : Exc (bool * SMTBenchmark * SMTSolverResult) :=
  let valFormula := unsignedValue val in
  let bound := less costFn valFormula in
  let* problem := addFormula bound EmptyString problem in
  let* (problem, res) := run problem res in
  let* problem := popFormula problem in
  inr (bool_decide (status res = SAT), problem, res).

(** [unsigned] arithmetic. *)
Definition u32 (n : N) : N := (n mod 2 ^ 32)%N.

(** The first loop of [SMTSolver::minimize], lines 180-188, for at most
    [fuel] rounds ([None] if they do not suffice).  The loop ends with the
    [return] of line 184 (no interval) or is left with [left] and
    [guess]. *)
Fixpoint searchUp (fuel : nat) (problem : SMTBenchmark)
    (costFn : SMTConstant) (left guess : N) (res : SMTSolverResult)
  : option (Exc (option (N * N) * SMTBenchmark * SMTSolverResult)) :=
  match fuel with
  | O => None
  | S fuel' =>
      match tryUpperBound problem costFn guess res with
      | inl e => Some (inl e)
      | inr (ok, problem, res) =>
          if ok then Some (inr (Some (left, guess), problem, res))
          else
            let newGuess := u32 (guess * 2) in
            if (newGuess <=? guess)%N then Some (inr (None, problem, res))
            else searchUp fuel' problem costFn guess newGuess res
      end
  end.

(** The second loop, lines 191-199, for at most [fuel] rounds. *)
Fixpoint bisect (fuel : nat) (problem : SMTBenchmark) (costFn : SMTConstant)
    (left right : N) (res : SMTSolverResult)
  : option (Exc (N * SMTBenchmark * SMTSolverResult)) :=
  if (left =? right)%N then Some (inr (left, problem, res))
  else
    match fuel with
    | O => None
    | S fuel' =>
        let middle := u32 (left + u32 (right + 2 ^ 32 - left) / 2) in
        match tryUpperBound problem costFn middle res with
        | inl e => Some (inl e)
        | inr (ok, problem, res) =>
            if ok then bisect fuel' problem costFn left middle res
            else bisect fuel' problem costFn (u32 (middle + 1)) right res
        end
    end.

(** [SMTSolver::minimize], lines 174-201.  The guesses of the first loop
    double below [2^32] and the second loop halves an interval below
    [2^32]: 32 rounds are enough for each. *)
Definition minimize (problem : SMTBenchmark) (costFn : SMTConstant)
    (res : SMTSolverResult)
  : option (Exc (SMTBenchmark * SMTSolverResult)) :=
  let left := 1%N in
  let guess := left in
  match searchUp 32 problem costFn left guess res with
  | None => None
  | Some (inl e) => Some (inl e)
  | Some (inr (None, problem, res)) => Some (inr (problem, res))
  | Some (inr (Some (l, guess), problem, res)) =>
      let left := l in
      let right := guess in
      match bisect 32 problem costFn left right res with
      | None => None
      | Some (inl e) => Some (inl e)
      | Some (inr (l, problem, res)) =>
          let left := l in
          Some (let* (_, problem, res) :=
                  tryUpperBound problem costFn left res in
                inr (problem, res))
      end
  end.

(** *** [std::string] *)

(** [size_t] arithmetic (64 bits) and [std::string::npos]. *)
Definition size_t (n : N) : N := (n mod 2 ^ 64)%N.
Definition npos : N := (2 ^ 64 - 1)%N.

Definition size (s : string) : N := N.of_nat (String.length s).

Fixpoint sdrop (n : nat) (s : string) : string :=
  match n, s with
  | O, _ => s
  | S n', String _ s' => sdrop n' s'
  | S _, EmptyString => EmptyString
  end.

Fixpoint stake (n : nat) (s : string) : string :=
  match n, s with
  | O, _ => EmptyString
  | S n', String a s' => String a (stake n' s')
  | S _, EmptyString => EmptyString
  end.

(** [s.substr(pos, n)]: it throws [std::out_of_range] when [pos] is
    beyond the size and yields at most [n] characters from [pos] on. *)
Definition substr (s : string) (pos n : N) : Exc string :=
  if (size s <? pos)%N then inl OutOfRange
  else inr (stake (N.to_nat (N.min n (size s - pos)))
                  (sdrop (N.to_nat pos) s)).

Fixpoint findFrom (c : Ascii.ascii) (s : string) (i : N) : N :=
  match s with
  | EmptyString => npos
  | String a s' => if Ascii.eqb a c then i else findFrom c s' (i + 1)%N
  end.

(** [s.find(c)]. *)
Definition find (s : string) (c : Ascii.ascii) : N := findFrom c s 0.

(** *** [YicesSolver::run] *)

(** What the body of the loop of lines 243-259 makes of a line. *)
Inductive Line : Type :=
  | Blank                                  (* line 245 *)
  | Sat                                    (* line 246 *)
  | Unsat                                  (* line 247 *)
  | Unrecognized                           (* lines 249-252 *)
  | Assign (element value : string).       (* lines 253-258 *)

(** Lines 245-256 for one line. *)
Definition parseLine (line : string) : Exc Line :=
  if (line =? EmptyString)%string then inr Blank
  else if (line =? "sat")%string then inr Sat
  else if (line =? "unsat")%string then inr Unsat
  else
    let* head := substr line 0 3 in
    let* unrecognized :=
      if negb (head =? "(= ")%string then inr true
      else
        let* last := substr line (size_t (size line + 2 ^ 64 - 1)) 1 in
        inr (negb (last =? ")")%string) in
    if unrecognized : bool then inr Unrecognized
    else
      let* lineCore := substr line 3 (size_t (size line + 2 ^ 64 - 4)) in
      let sep := find lineCore " "%char in
      let* element := substr lineCore 0 sep in
      let* value := substr lineCore (size_t (sep + 1)) npos in
      inr (Assign element value).

Definition applyLine (l : Line) (res : SMTSolverResult) : SMTSolverResult :=
  match l with
  | Blank | Unrecognized => res
  | Sat => mkSMTSolverResult SAT (assignment res)
  | Unsat => mkSMTSolverResult UNSAT (assignment res)
  | Assign element value =>
      mkSMTSolverResult (status res)
                        (insertAssignment element value (assignment res))
  end.

(** The loop of lines 242-259 over the lines [oit] yields. *)
Fixpoint readLines (oit : list string) (res : SMTSolverResult)
  : Exc SMTSolverResult :=
  match oit with
  | [] => inr res
  | line :: oit' =>
      let* l := parseLine line in
      readLines oit' (applyLine l res)
  end.

(** *** [SMTBenchmark::output] *)

(** The order in which [StringMap::Iterator] yields the declared functions
    and [_predDecls.iterator()] the predicates, and [sort<DefaultComparator>]
    on a stack of strings, are not among the sources. *)
Variable funDeclsOrder : gmap string string → list (string * string).
Variable predDeclsOrder : gset string → list string.
Variable sortStrings : list string → list string.

(** Lines 159-163: the line of a formula and its comment. *)
Definition formulaLine (form : SMTFormula) (comment : string) : string :=
  let out := "  " +:+ toString form in
  if negb (comment =? EmptyString)%string then out +:+ " ; " +:+ comment
  else out.

(** The loop of lines 154-164 over the two bottom-first iterators; [out]
    is the list of the lines written ([endl] ends a line). *)
Fixpoint outputFormulas (fit : list SMTFormula) (fCommentIt : list string)
    (out : list string) : Exc (list string) :=
  match fit with
  | [] => inr out
  | form :: fit' =>
      match fCommentIt with
      | [] => inl AssertionViolated                      (* line 155 *)
      | comment :: fCommentIt' =>
          outputFormulas fit' fCommentIt'
                         (out ++ [formulaLine form comment])
      end
  end%list.

(** Lines 127-147: the head of the benchmark and the declarations. *)
Definition outputDeclarations (b : SMTBenchmark) : list string :=
  let out := ["(benchmark VampireGeneratedBenchmark"] in
  let out :=
    (out ++ map (λ d, ":extrafuns ((" +:+ d.1 +:+ " " +:+ d.2 +:+ "))")
                (funDeclsOrder (_funDecls b)))%list in
  let predDeclStack := sortStrings (predDeclsOrder (_predDecls b)) in
  let out :=
    (out ++ map (λ pred, ":extrapreds ((" +:+ pred +:+ "))")
                predDeclStack)%list in
  (out ++ [":formula ( (and "])%list.

(** [SMTBenchmark::output], lines 123-168. *)
Definition SMTBenchmark_output (b : SMTBenchmark) : Exc (list string) :=
  let out := outputDeclarations b in
  let out :=
    match _formulas b with
    | [] => (out ++ ["  true"])%list                     (* line 152 *)
    | _ :: _ => out
    end in
  let* out := outputFormulas (_formulas b) (_formulaComments b) out in
  inr (out ++ [") )"; ")"])%list.

(** The environment of the solver: [System::guessExecutableDirectory],
    [System::fileExists] and [System::executeCommand], which is given the
    command and the text of the benchmark (by its lines) and leaves the
    lines of the solver in [proverOut] (taken in the order the stack
    iterator yields them). *)
Variable guessExecutableDirectory : string.
Variable fileExists : string → bool.
Variable executeCommand : string → list string → list string.

(** [YicesSolver::run], lines 223-260.  The benchmark is printed first
    (lines 227-228): an assertion that fails in [output] ends the call
    before the executable is looked for. *)
Definition YicesSolver_run (problem : SMTBenchmark) (res : SMTSolverResult)
  : Exc (SMTBenchmark * SMTSolverResult) :=
  let* problemStm := SMTBenchmark_output problem in
  let execName := guessExecutableDirectory +:+ "/yices" in
  if negb (fileExists execName)
  then inl (UserError ("Executable " +:+ execName +:+ " does not exist"))
  else
    let proverOut := executeCommand (execName +:+ " -smt -e") problemStm in
    let res := resetResult res in
    let* res := readLines proverOut res in
    inr (problem, res).

(** A line that sets the status. *)
Definition isStatusLine (line : string) : bool :=
  (line =? "sat")%string || (line =? "unsat")%string.

(** The benchmark [run] sees when the bound [val] is tried. *)
Definition bounded (problem : SMTBenchmark) (costFn : SMTConstant) (val : N)
  : SMTBenchmark :=
  mkSMTBenchmark (push (less costFn (unsignedValue val)) (_formulas problem))
                 (push EmptyString (_formulaComments problem))
                 (_funDecls problem) (_predDecls problem).

(** The solver has threshold [m] on [problem]: it only reads the
    benchmark, throws nothing, and reports [SAT] for the bound [val]
    exactly when [m <= val]. *)
Definition threshold (problem : SMTBenchmark) (costFn : SMTConstant) (m : N)
  : Prop :=
  ∀ val r, ∃ r',
    run (bounded problem costFn val) r
      = inr (bounded problem costFn val, r') ∧
    (status r' = SAT ↔ (m ≤ val)%N).

(** [res'] is the result the solver has written for the bound [val]. *)
Definition answerFor (problem : SMTBenchmark) (costFn : SMTConstant)
    (val : N) (res' : SMTSolverResult) : Prop :=
  ∃ r, run (bounded problem costFn val) r
       = inr (bounded problem costFn val, res').

(** The status the lines leave: that of the last status line, [s] when
    there is none. *)
Fixpoint lastStatus (oit : list string) (s : Status) : Status :=
  match oit with
  | [] => s
  | line :: oit' =>
      lastStatus oit'
        (if (line =? "sat")%string then SAT
         else if (line =? "unsat")%string then UNSAT
         else s)
  end.

(** [c] occurs in [s]. *)
Fixpoint occursIn (c : Ascii.ascii) (s : string) : bool :=
  match s with
  | EmptyString => false
  | String a s' => Ascii.eqb a c || occursIn c s'
  end.

(** ** Properties of the benchmark *)

Lemma pop_push {A : Type} (x : A) (s : list A) : pop (push x s) = inr s.
Proof.
  unfold pop, push. destruct (s ++ [x])%list eqn:E.
  - by destruct s.
  - rewrite <- E. by rewrite removelast_last.
Qed.

Lemma removelast_length_pred {A : Type} (l : list A) :
  length (removelast l) = pred (length l).
Proof.
  induction l as [|x [|y l] IH]; simpl in *; [done|done|]. by rewrite IH.
Qed.

Lemma addFormula_wellFormed f comment b :
  wellFormed b →
  ∃ b', addFormula f comment b = inr b' ∧ wellFormed b' ∧
        popFormula b' = inr b.
Proof.
  intros (Hlen & Hdis & Hreal). unfold addFormula.
  rewrite Hlen, Nat.eqb_refl. simpl. eexists. split; [done|]. split.
  - split_and!; simpl; [|done|done]. unfold push. rewrite !length_app.
    simpl. lia.
  - unfold popFormula. simpl. unfold push at 1 2. rewrite !length_app.
    simpl. rewrite Hlen, Nat.eqb_refl. simpl. rewrite !pop_push. simpl.
    by destruct b.
Qed.

Lemma call_wellFormed c b b' :
  wellFormed b → call c b = inr b' → wellFormed b'.
Proof.
  intros Hwf. pose proof Hwf as (Hlen & Hdis & Hreal).
  destruct c as [f comment| |pred|pred]; simpl.
  - destruct (addFormula_wellFormed f comment b Hwf) as (b1 & -> & ? & _).
    by intros [= <-].
  - unfold popFormula. rewrite Hlen, Nat.eqb_refl. cbn [negb].
    unfold pop. destruct (_formulas b) as [|f fs] eqn:Ef; [done|].
    destruct (_formulaComments b) as [|c cs] eqn:Ec; [done|]. cbn [bind].
    intros [= <-].
    split_and!; cbn [_formulas _formulaComments _funDecls _predDecls];
      [|done|done].
    change (length (removelast (f :: fs)) = length (removelast (c :: cs))).
    rewrite !removelast_length_pred. simpl in *. lia.
  - unfold declarePropositionalConstant. case_bool_decide as Hf; [done|].
    intros [= <-]. split_and!; simpl; [done| |done].
    intros n [->%elem_of_singleton | Hn]%elem_of_union; [|by apply Hdis].
    destruct (_funDecls b !! toString pred) eqn:E; [|done].
    exfalso. apply Hf. by eexists.
  - unfold declareRealConstant. case_bool_decide as Hp; [done|].
    intros [= <-]. split_and!; simpl; [done| |].
    + intros n Hn. rewrite lookup_insert_ne; [by apply Hdis|].
      by intros <-.
    + intros n ty. destruct (decide (toString pred = n)) as [<-|Hne].
      * rewrite lookup_insert_eq. by intros [= <-].
      * rewrite lookup_insert_ne by done. apply Hreal.
Qed.

(** X3: the benchmark keeps its invariant.  From the empty benchmark,
    every sequence of [addFormula], [popFormula],
    [declarePropositionalConstant] and [declareRealConstant] that raises
    no assertion leaves a benchmark whose two stacks have the same size,
    in which no name is declared both as a predicate and as a real
    constant, and whose functions are all [Real]. *)
Theorem benchmark_invariant (cs : list BenchmarkCall) (b : SMTBenchmark) :
  calls cs emptyBenchmark = inr b → wellFormed b.
Proof.
  assert (Hgen : ∀ b0, wellFormed b0 → calls cs b0 = inr b → wellFormed b).
  { induction cs as [|c cs IH]; intros b0 Hwf; simpl.
    - by intros [= <-].
    - destruct (call c b0) as [e|b1] eqn:Ec; simpl; [done|].
      apply IH. by eapply call_wellFormed. }
  apply Hgen. split_and!; simpl; [done|done|].
  intros n ty. by rewrite lookup_empty.
Qed.

(** X4: [popFormula] undoes [addFormula].  On a benchmark that keeps the
    invariant [addFormula] raises nothing and [popFormula] then gives the
    benchmark back; [popFormula] with no formula on the stack fails an
    assertion. *)
Theorem addFormula_popFormula (f : SMTFormula) (comment : string)
    (b : SMTBenchmark) :
  wellFormed b →
  (∃ b', addFormula f comment b = inr b' ∧ popFormula b' = inr b) ∧
  (_formulas b = [] → popFormula b = inl AssertionViolated).
Proof.
  intros Hwf. split.
  - destruct (addFormula_wellFormed f comment b Hwf) as (b' & ? & _ & ?).
    by exists b'.
  - intros Hf. unfold popFormula. destruct Hwf as (Hlen & _).
    rewrite Hlen, Nat.eqb_refl, Hf. done.
Qed.

(** ** Properties of [tryUpperBound] and [minimize] *)

(** Linear arithmetic with the word sizes written out. *)
Ltac clear_unused :=
  repeat match goal with
         | x : ?T |- _ =>
             lazymatch type of T with
             | Prop => fail
             | _ => clear x
             end
         end.

Ltac word_lia :=
  clear_unused;
  change (2 ^ 32)%N with 4294967296%N in *;
  change (2 ^ 31)%N with 2147483648%N in *;
  change (2 ^ 64)%N with 18446744073709551616%N in *;
  zify; Z.to_euclidean_division_equations; lia.

Lemma addFormula_bounded problem costFn val :
  length (_formulas problem) = length (_formulaComments problem) →
  addFormula (less costFn (unsignedValue val)) EmptyString problem
  = inr (bounded problem costFn val).
Proof. intros Hlen. unfold addFormula. by rewrite Hlen, Nat.eqb_refl. Qed.

Lemma popFormula_bounded problem costFn val :
  length (_formulas problem) = length (_formulaComments problem) →
  popFormula (bounded problem costFn val) = inr problem.
Proof.
  intros Hlen. unfold popFormula, bounded. cbn [_formulas _formulaComments].
  unfold push at 1 2. rewrite !length_app, Hlen, Nat.eqb_refl. cbn [negb].
  rewrite !pop_push. cbn [bind _funDecls _predDecls]. by destruct problem.
Qed.

(** X5: [tryUpperBound] leaves the benchmark as it found it.  When the
    solver only reads the benchmark, a call on a benchmark with stacks of
    equal size either passes on what [run] throws or returns the benchmark
    unchanged, together with the result [run] has written for the
    benchmark extended by the bound and the answer whether its status is
    [SAT]. *)
Theorem tryUpperBound_restores (problem : SMTBenchmark) (costFn : SMTConstant)
    (val : N) (res : SMTSolverResult) :
  (∀ p r p' r', run p r = inr (p', r') → p' = p) →
  length (_formulas problem) = length (_formulaComments problem) →
  match run (bounded problem costFn val) res with
  | inl e => tryUpperBound problem costFn val res = inl e
  | inr (_, res') =>
      tryUpperBound problem costFn val res
      = inr (bool_decide (status res' = SAT), problem, res')
  end.
Proof.
  intros Hread Hlen. unfold tryUpperBound.
  rewrite addFormula_bounded by done. cbn [bind].
  destruct (run (bounded problem costFn val) res) as [e|[p' res']] eqn:Er;
    [done|].
  apply Hread in Er as ->. cbn [bind].
  by rewrite popFormula_bounded.
Qed.

Lemma pow2_bounds (i : nat) :
  (i ≤ 31)%nat → (1 ≤ 2 ^ N.of_nat i ≤ 2 ^ 31)%N.
Proof.
  intros Hi. split.
  - pose proof (N.pow_nonzero 2 (N.of_nat i)). lia.
  - apply N.pow_le_mono_r; lia.
Qed.

(** The first loop needs no more than 32 rounds: its guesses are the
    powers of two, and the interval it leaves is within [1 .. 2^31]. *)
Lemma searchUp_rounds fuel i problem costFn left guess res :
  (i + fuel = 32)%nat → (0 < fuel)%nat →
  guess = (2 ^ N.of_nat i)%N → (1 ≤ left ≤ guess)%N →
  match searchUp fuel problem costFn left guess res with
  | None => False
  | Some (inr (Some (l, r), _, _)) => (1 ≤ l ≤ r)%N ∧ (r ≤ 2 ^ 31)%N
  | Some _ => True
  end.
Proof.
  revert i problem left guess res.
  induction fuel as [|fuel IH]; intros i problem left guess res Hi Hf Hg Hl;
    [lia|].
  assert (Hb := pow2_bounds i ltac:(lia)). rewrite <- Hg in Hb.
  cbn [searchUp].
  destruct (tryUpperBound problem costFn guess res) as [e|[[ok p'] r']];
    [done|].
  destruct ok; [split; [done|word_lia]|].
  unfold u32.
  destruct (guess * 2 mod 2 ^ 32 <=? guess)%N eqn:E; [done|].
  apply N.leb_gt in E.
  assert (Hi' : (i < 31)%nat).
  { destruct (decide (i = 31%nat)) as [->|]; [|lia].
    exfalso. subst guess. revert E. by vm_compute. }
  assert (Hg2 : (guess * 2 = 2 ^ N.of_nat (S i))%N).
  { rewrite Nat2N.inj_succ, N.pow_succ_r', Hg. lia. }
  assert (Hb2 := pow2_bounds (S i) ltac:(lia)). rewrite <- Hg2 in Hb2.
  rewrite N.mod_small by word_lia.
  apply (IH (S i)); [lia|lia|done|word_lia].
Qed.

(** The second loop needs no more than [fuel] rounds when the interval is
    shorter than [2^fuel]. *)
Lemma bisect_rounds fuel problem costFn left right res :
  (left ≤ right)%N → (right < 2 ^ 32)%N →
  (right - left < 2 ^ N.of_nat fuel)%N →
  bisect fuel problem costFn left right res ≠ None.
Proof.
  revert problem left right res.
  induction fuel as [|fuel IH]; intros problem left right res Hl Hr Hd.
  { simpl in Hd. assert (left = right) as -> by word_lia.
    simpl. by rewrite N.eqb_refl. }
  cbn [bisect]. destruct (left =? right)%N eqn:E; [done|].
  apply N.eqb_neq in E.
  rewrite Nat2N.inj_succ, N.pow_succ_r' in Hd.
  set (X := (2 ^ N.of_nat fuel)%N) in *.
  assert (Hw : u32 (right + 2 ^ 32 - left) = (right - left)%N).
  { unfold u32. replace (right + 2 ^ 32 - left)%N
      with ((right - left) + 1 * 2 ^ 32)%N by word_lia.
    rewrite N.Div0.mod_add. apply N.mod_small. word_lia. }
  rewrite Hw.
  assert (Hm : u32 (left + (right - left) / 2) = (left + (right - left) / 2)%N).
  { unfold u32. apply N.mod_small. word_lia. }
  rewrite Hm.
  destruct (tryUpperBound _ _ _ _) as [e|[[ok p'] r']]; [done|].
  destruct ok.
  - apply IH; word_lia.
  - assert (Hs : u32 (left + (right - left) / 2 + 1)
                 = (left + (right - left) / 2 + 1)%N).
    { unfold u32. apply N.mod_small. word_lia. }
    rewrite Hs. apply IH; word_lia.
Qed.

(** X6: [minimize] always comes to an end, whatever the solver answers:
    the doubling loop makes at most 32 rounds and the halving loop at most
    32 rounds. *)
Theorem minimize_terminates (problem : SMTBenchmark) (costFn : SMTConstant)
    (res : SMTSolverResult) :
  ∃ outcome, minimize problem costFn res = Some outcome.
Proof.
  unfold minimize.
  pose proof (searchUp_rounds 32 0 problem costFn 1 1 res
                ltac:(done) ltac:(lia) ltac:(done) ltac:(lia)) as Hs.
  destruct (searchUp 32 problem costFn 1 1 res)
    as [[e|[[[[l r]|] p'] r']]|]; [by eexists| |by eexists|done].
  destruct Hs as [Hl Hr].
  pose proof (bisect_rounds 32 p' costFn l r r' ltac:(word_lia)
                ltac:(word_lia) ltac:(simpl; word_lia)) as Hb.
  destruct (bisect 32 p' costFn l r r') as [[e|[[l' p''] r'']]|];
    [by eexists|by eexists|done].
Qed.

Lemma tryUpperBound_threshold problem costFn m val res :
  threshold problem costFn m →
  length (_formulas problem) = length (_formulaComments problem) →
  ∃ res', tryUpperBound problem costFn val res
          = inr (bool_decide (m ≤ val)%N, problem, res') ∧
          answerFor problem costFn val res' ∧
          (status res' = SAT ↔ (m ≤ val)%N).
Proof.
  intros Hth Hlen. destruct (Hth val res) as (r' & Er & Hst).
  exists r'. split_and!; [|by exists res|done].
  unfold tryUpperBound. rewrite addFormula_bounded by done. cbn [bind].
  rewrite Er. cbn [bind]. rewrite popFormula_bounded by done. cbn [bind].
  do 2 f_equal. f_equal. apply bool_decide_ext. done.
Qed.

Lemma searchUp_threshold fuel i problem costFn m left guess res :
  threshold problem costFn m →
  length (_formulas problem) = length (_formulaComments problem) →
  (i + fuel = 32)%nat → (0 < fuel)%nat →
  guess = (2 ^ N.of_nat i)%N → (1 ≤ left ≤ guess)%N →
  (left ≤ m)%N → (1 ≤ m)%N →
  ∃ res',
    (m ≤ 2 ^ 31)%N ∧
    (∃ l r, searchUp fuel problem costFn left guess res
            = Some (inr (Some (l, r), problem, res')) ∧
            (l ≤ m ≤ r)%N ∧ (r ≤ 2 ^ 31)%N)
    ∨
    (2 ^ 31 < m)%N ∧
    searchUp fuel problem costFn left guess res
    = Some (inr (None, problem, res')) ∧
    answerFor problem costFn (2 ^ 31) res' ∧ status res' ≠ SAT.
Proof.
  intros Hth Hlen. revert i left guess res.
  induction fuel as [|fuel IH]; intros i left guess res Hi Hf Hg Hl Hlm Hm;
    [lia|].
  assert (Hb := pow2_bounds i ltac:(lia)). rewrite <- Hg in Hb.
  cbn [searchUp].
  destruct (tryUpperBound_threshold problem costFn m guess res Hth Hlen)
    as (r' & -> & Hans & Hst).
  case_bool_decide as Hmg.
  - exists r'. left. split; [word_lia|]. exists left, guess.
    split_and!; try done; word_lia.
  - unfold u32.
    destruct (decide (i = 31%nat)) as [->|Hne].
    + assert (guess = 2 ^ 31)%N as -> by (by subst guess).
      exists r'. right. split; [lia|]. split; [done|]. split; [done|].
      rewrite Hst. lia.
    + assert (Hg2 : (guess * 2 = 2 ^ N.of_nat (S i))%N).
      { rewrite Nat2N.inj_succ, N.pow_succ_r', Hg. lia. }
      assert (Hb2 := pow2_bounds (S i) ltac:(lia)). rewrite <- Hg2 in Hb2.
      rewrite N.mod_small by word_lia.
      destruct (guess * 2 <=? guess)%N eqn:E;
        [apply N.leb_le in E; word_lia|].
      destruct (IH (S i) guess (guess * 2)%N r') as (r2 & Hcase);
        [lia|lia|done|word_lia|lia|done|].
      by exists r2.
Qed.

Lemma bisect_threshold fuel problem costFn m left right res :
  threshold problem costFn m →
  length (_formulas problem) = length (_formulaComments problem) →
  (left ≤ m ≤ right)%N → (right < 2 ^ 32)%N →
  (right - left < 2 ^ N.of_nat fuel)%N →
  ∃ res', bisect fuel problem costFn left right res
          = Some (inr (m, problem, res')).
Proof.
  intros Hth Hlen. revert left right res.
  induction fuel as [|fuel IH]; intros left right res Hl Hr Hd.
  { simpl in Hd. assert (left = right) as -> by lia.
    assert (right = m) as -> by lia.
    simpl. rewrite N.eqb_refl. by eexists. }
  cbn [bisect]. destruct (left =? right)%N eqn:E.
  { apply N.eqb_eq in E as ->. assert (right = m) as -> by lia. by eexists. }
  apply N.eqb_neq in E.
  rewrite Nat2N.inj_succ, N.pow_succ_r' in Hd.
  set (X := (2 ^ N.of_nat fuel)%N) in *.
  assert (Hw : u32 (right + 2 ^ 32 - left) = (right - left)%N).
  { unfold u32. replace (right + 2 ^ 32 - left)%N
      with ((right - left) + 1 * 2 ^ 32)%N by word_lia.
    rewrite N.Div0.mod_add. apply N.mod_small. word_lia. }
  rewrite Hw.
  assert (Hm : u32 (left + (right - left) / 2) = (left + (right - left) / 2)%N).
  { unfold u32. apply N.mod_small. word_lia. }
  rewrite Hm.
  destruct (tryUpperBound_threshold problem costFn m
              (left + (right - left) / 2)%N res Hth Hlen)
    as (r' & -> & _ & _).
  case_bool_decide as Hmid.
  - apply IH; word_lia.
  - assert (Hs : u32 (left + (right - left) / 2 + 1)
                 = (left + (right - left) / 2 + 1)%N).
    { unfold u32. apply N.mod_small. word_lia. }
    rewrite Hs. apply IH; word_lia.
Qed.

(** X7: [minimize] finds the least bound.  Let the solver only read the
    benchmark, throw nothing, and report [SAT] for a bound exactly when
    the bound is at least [m], with [1 <= m].  If [m <= 2^31], [minimize]
    returns with the benchmark unchanged and with the result the solver
    has written for the bound [m], whose status is [SAT].  If [m] is
    beyond [2^31], the doubling of the guess overflows and [minimize]
    gives up: it returns the result written for the bound [2^31], whose
    status is not [SAT], although bounds below [2^32] may be
    satisfiable. *)
Theorem minimize_finds_least_bound (problem : SMTBenchmark)
    (costFn : SMTConstant) (m : N) (res : SMTSolverResult) :
  threshold problem costFn m →
  length (_formulas problem) = length (_formulaComments problem) →
  (1 ≤ m)%N →
  ∃ res',
    minimize problem costFn res = Some (inr (problem, res')) ∧
    (((m ≤ 2 ^ 31)%N ∧ answerFor problem costFn m res' ∧ status res' = SAT)
     ∨
     ((2 ^ 31 < m)%N ∧ answerFor problem costFn (2 ^ 31) res' ∧
      status res' ≠ SAT)).
Proof.
  intros Hth Hlen Hm. unfold minimize.
  destruct (searchUp_threshold 32 0 problem costFn m 1 1 res Hth Hlen)
    as (r1 & [(Hle & l & r & -> & Hlr & Hr) | (Hgt & -> & Hans & Hst)]);
    try done; try lia.
  - destruct (bisect_threshold 32 problem costFn m l r r1 Hth Hlen)
      as (r2 & ->); [done|word_lia|simpl; word_lia|].
    destruct (tryUpperBound_threshold problem costFn m m r2 Hth Hlen)
      as (r3 & -> & Hans & Hst).
    exists r3. cbn [bind]. split; [done|]. left.
    split_and!; [done|done|]. apply Hst. lia.
  - exists r1. split; [done|]. by right.
Qed.

(** ** Properties of [SMTBenchmark::output] *)

Lemma outputFormulas_zip (fit : list SMTFormula)
    (fCommentIt out : list string) :
  (length fit ≤ length fCommentIt)%nat →
  outputFormulas fit fCommentIt out
  = inr (out ++ zip_with formulaLine fit fCommentIt)%list.
Proof.
  revert fCommentIt out.
  induction fit as [|form fit IH]; intros [|comment cs] out Hlen; simpl in *.
  - by rewrite app_nil_r.
  - by rewrite app_nil_r.
  - lia.
  - rewrite IH by lia. by rewrite <- app_assoc.
Qed.

Lemma outputFormulas_short (fit : list SMTFormula)
    (fCommentIt out : list string) :
  (length fCommentIt < length fit)%nat →
  outputFormulas fit fCommentIt out = inl AssertionViolated.
Proof.
  revert fCommentIt out.
  induction fit as [|form fit IH]; intros [|comment cs] out Hlen; simpl in *;
    try lia; [done|].
  apply IH. lia.
Qed.

(** The closed form of what [output] writes. *)
Lemma output_closed_form (b : SMTBenchmark) :
  SMTBenchmark_output b
  = if (length (_formulaComments b) <? length (_formulas b))%nat
    then inl AssertionViolated
    else inr (outputDeclarations b
              ++ (if bool_decide (_formulas b = []) then ["  true"]
                  else zip_with formulaLine (_formulas b)
                                (_formulaComments b))
              ++ [") )"; ")"])%list.
Proof.
  unfold SMTBenchmark_output.
  destruct (Nat.ltb_spec (length (_formulaComments b))
                         (length (_formulas b))) as [Hlen|Hlen].
  - rewrite outputFormulas_short by done.
    by destruct (_formulas b).
  - rewrite outputFormulas_zip by done. cbn [bind].
    destruct (_formulas b) as [|form fit]; simpl.
    + by rewrite app_nil_r, <- app_assoc.
    + by rewrite <- !app_assoc.
Qed.

(** X24: the benchmark is printed without a failed assertion exactly when
    every formula has a comment.  With stacks of the same size (the
    invariant the benchmark keeps) the declarations are followed by one
    line for each formula, in the order they were added, a comment being
    appended after [ ; ] when it is not empty, or by the line [true] when
    there is no formula, and by the two closing lines; with fewer comments
    than formulas the [ALWAYS] of line 155 fails. *)
Theorem output_formulas (b : SMTBenchmark) :
  SMTBenchmark_output b
  = if (length (_formulaComments b) <? length (_formulas b))%nat
    then inl AssertionViolated
    else inr (outputDeclarations b
              ++ (if bool_decide (_formulas b = []) then ["  true"]
                  else zip_with formulaLine (_formulas b)
                                (_formulaComments b))
              ++ [") )"; ")"])%list.
Proof. exact (output_closed_form b). Qed.

(** ** Properties of [YicesSolver::run] *)

Lemma length_sappend (a b : string) :
  String.length (a +:+ b) = (String.length a + String.length b)%nat.
Proof. induction a as [|c a IH]; simpl; [done|]. by rewrite IH. Qed.

Lemma sdrop_sappend (a b : string) : sdrop (String.length a) (a +:+ b) = b.
Proof. induction a as [|c a IH]; simpl; [by destruct b|done]. Qed.

Lemma stake_sappend (a b : string) : stake (String.length a) (a +:+ b) = a.
Proof. induction a as [|c a IH]; simpl; [done|]. by rewrite IH. Qed.

Lemma stake_all (a : string) : stake (String.length a) a = a.
Proof. induction a as [|c a IH]; simpl; [done|]. by rewrite IH. Qed.

Lemma length_stake n (s : string) :
  String.length (stake n s) = Nat.min n (String.length s).
Proof.
  revert s. induction n as [|n IH]; intros [|c s]; simpl; try done.
  by rewrite IH.
Qed.

Lemma findFrom_range c s i :
  findFrom c s i = npos ∨
  (i ≤ findFrom c s i < i + size s)%N.
Proof.
  revert i. induction s as [|a s IH]; intros i; simpl; [by left|].
  destruct (Ascii.eqb a c).
  - right. unfold size. simpl. lia.
  - destruct (IH (i + 1)%N) as [->|H]; [by left|].
    right. unfold size in *. simpl. lia.
Qed.

Lemma findFrom_absent c s i : occursIn c s = false → findFrom c s i = npos.
Proof.
  revert i. induction s as [|a s IH]; intros i; simpl; [done|].
  intros [-> Hs]%orb_false_iff. by apply IH.
Qed.

Lemma findFrom_first c a b i :
  occursIn c a = false →
  findFrom c (a +:+ String c b) i = (i + size a)%N.
Proof.
  revert i. induction a as [|x a IH]; intros i; simpl.
  - intros _. rewrite Ascii.eqb_refl. unfold size. simpl. lia.
  - intros [-> Ha]%orb_false_iff. rewrite IH by done.
    unfold size. simpl. lia.
Qed.

Lemma substr_ok (s : string) (pos n : N) :
  (pos ≤ size s)%N → ∃ r, substr s pos n = inr r.
Proof.
  intros Hle. unfold substr.
  destruct (size s <? pos)%N eqn:E; [apply N.ltb_lt in E; lia|by eexists].
Qed.

Lemma substr_head_size (line head : string) :
  substr line 0 3 = inr head → head = "(= " → (3 ≤ size line)%N.
Proof.
  unfold substr. destruct (size line <? 0)%N; [done|].
  intros [= <-] Hh.
  apply (f_equal String.length) in Hh. rewrite length_stake in Hh.
  simpl in Hh. unfold size in *. lia.
Qed.

(** Whatever the line, every [substr] of lines 249-256 is within the
    string. *)
Lemma parseLine_ok (line : string) :
  ∃ l, parseLine line = inr l.
Proof.
  unfold parseLine.
  destruct (line =? EmptyString)%string eqn:E0; [by eexists|].
  destruct (line =? "sat")%string; [by eexists|].
  destruct (line =? "unsat")%string; [by eexists|].
  assert (Hne : (1 ≤ size line)%N).
  { destruct line; [done|]. unfold size. simpl. lia. }
  destruct (substr_ok line 0 3 ltac:(lia)) as (head & Eh). rewrite Eh.
  cbn [bind].
  destruct (head =? "(= ")%string eqn:Ehd; cbn [negb bind]; [|by eexists].
  apply String.eqb_eq in Ehd.
  pose proof (substr_head_size line head Eh Ehd) as H3.
  assert (Hlast : (size_t (size line + 2 ^ 64 - 1) ≤ size line)%N).
  { unfold size_t.
    destruct (decide (size line < 2 ^ 64)%N) as [Hs|Hs].
    - replace (size line + 2 ^ 64 - 1)%N
        with ((size line - 1) + 1 * 2 ^ 64)%N by word_lia.
      rewrite N.Div0.mod_add, N.mod_small; word_lia.
    - pose proof (N.mod_upper_bound (size line + 2 ^ 64 - 1) (2 ^ 64)).
      word_lia. }
  destruct (substr_ok line _ 1 Hlast) as (last & ->). cbn [bind].
  destruct (negb (last =? ")")%string); [by eexists|].
  destruct (substr_ok line 3 (size_t (size line + 2 ^ 64 - 4)) H3)
    as (lineCore & ->).
  cbn [bind].
  destruct (substr_ok lineCore 0 (find lineCore " "%char) ltac:(lia))
    as (element & ->).
  cbn [bind].
  assert (Hsep : (size_t (find lineCore " "%char + 1) ≤ size lineCore)%N).
  { unfold find, size_t.
    destruct (findFrom_range " "%char lineCore 0) as [->|Hr].
    - change ((npos + 1) mod 2 ^ 64)%N with 0%N. lia.
    - pose proof (N.Div0.mod_le (findFrom " "%char lineCore 0 + 1) (2 ^ 64)).
      lia. }
  destruct (substr_ok lineCore _ npos Hsep) as (value & ->). cbn [bind].
  by eexists.
Qed.

Lemma sappend_assoc (a b c : string) : (a +:+ b) +:+ c = a +:+ (b +:+ c).
Proof.
  induction a as [|x a IH]; [done|].
  change (String x ((a +:+ b) +:+ c) = String x (a +:+ (b +:+ c))).
  by rewrite IH.
Qed.

Lemma substr_middle (a b c : string) (pos n : N) :
  pos = size a → n = size b → substr (a +:+ (b +:+ c)) pos n = inr b.
Proof.
  intros -> ->. unfold substr, size.
  rewrite !length_sappend.
  destruct (_ <? _)%N eqn:E; [apply N.ltb_lt in E; lia|].
  rewrite Nat2N.id, sdrop_sappend.
  replace (N.to_nat _) with (String.length b) by lia.
  by rewrite stake_sappend.
Qed.

Lemma substr_suffix (a b : string) (pos n : N) :
  pos = size a → (size b ≤ n)%N → substr (a +:+ b) pos n = inr b.
Proof.
  intros -> Hn. unfold substr, size in *.
  rewrite !length_sappend.
  destruct (_ <? _)%N eqn:E; [apply N.ltb_lt in E; lia|].
  rewrite Nat2N.id, sdrop_sappend.
  replace (N.to_nat _) with (String.length b) by lia.
  by rewrite stake_all.
Qed.

(** A line between [(= ] and [)] comes down to its core. *)
Lemma parseLine_core (core : string) :
  (size core + 4 < 2 ^ 64)%N →
  parseLine ("(= " +:+ core +:+ ")")
  = let sep := find core " "%char in
    let* element := substr core 0 sep in
    let* value := substr core (size_t (sep + 1)) npos in
    inr (Assign element value).
Proof.
  intros Hsize.
  remember ("(= " +:+ core +:+ ")") as line eqn:Hline.
  assert (E0 : (line =? EmptyString)%string = false) by by subst line.
  assert (E1 : (line =? "sat")%string = false) by by subst line.
  assert (E2 : (line =? "unsat")%string = false) by by subst line.
  assert (Hs : size line = (size core + 4)%N).
  { subst line. unfold size. rewrite !length_sappend. simpl. lia. }
  assert (H1 : substr line 0 3 = inr "(= ").
  { subst line. by apply (substr_middle EmptyString "(= " (core +:+ ")")). }
  assert (H2 : substr line (size_t (size line + 2 ^ 64 - 1)) 1 = inr ")").
  { rewrite Hs. subst line.
    apply (substr_middle ("(= " +:+ core) ")" EmptyString); [|done].
    unfold size_t.
    replace (size core + 4 + 2 ^ 64 - 1)%N
      with ((size core + 3) + 1 * 2 ^ 64)%N by word_lia.
    rewrite N.Div0.mod_add, N.mod_small by word_lia.
    unfold size. rewrite !length_sappend. simpl. lia. }
  assert (H3 : substr line 3 (size_t (size line + 2 ^ 64 - 4)) = inr core).
  { rewrite Hs. subst line.
    apply (substr_middle "(= " core ")"); [done|].
    unfold size_t.
    replace (size core + 4 + 2 ^ 64 - 4)%N
      with (size core + 1 * 2 ^ 64)%N by word_lia.
    rewrite N.Div0.mod_add, N.mod_small; word_lia. }
  unfold parseLine. rewrite E0, E1, E2, H1. cbn [bind].
  change (negb ("(= " =? "(= ")%string) with false. cbv iota.
  rewrite H2. cbn [bind].
  change (negb (")" =? ")")%string) with false. cbv iota.
  rewrite H3. done.
Qed.

(** X9: a line [(= element value)] whose element holds no space is read
    as the assignment of [value] to [element], whatever [value] is; a line
    [(= element)] without any space assigns the element to itself, as
    [find] yields [npos] and [npos + 1] wraps to [0]. *)
Theorem parseLine_assignment (element value : string) :
  occursIn " "%char element = false →
  (size ("(= " +:+ (element +:+ " " +:+ value) +:+ ")") < 2 ^ 64)%N →
  parseLine ("(= " +:+ (element +:+ " " +:+ value) +:+ ")")
  = inr (Assign element value) ∧
  parseLine ("(= " +:+ element +:+ ")") = inr (Assign element element).
Proof.
  intros Hel Hsize.
  assert (Hlen : (size element + size value + 5 < 2 ^ 64)%N).
  { unfold size in *. rewrite !length_sappend in Hsize. simpl in Hsize.
    word_lia. }
  split.
  - assert (Hcore : size (element +:+ " " +:+ value)
                    = (size element + 1 + size value)%N).
    { unfold size. rewrite !length_sappend. simpl. lia. }
    rewrite parseLine_core by (rewrite Hcore; word_lia).
    assert (Hsep : find (element +:+ " " +:+ value) " "%char = size element).
    { unfold find. change (" " +:+ value) with (String " "%char value).
      rewrite findFrom_first by done. lia. }
    cbv zeta. rewrite Hsep.
    assert (He : substr (element +:+ " " +:+ value) 0 (size element)
                 = inr element).
    { by apply (substr_middle EmptyString element (" " +:+ value)). }
    rewrite He. cbn [bind].
    assert (Hv : substr (element +:+ " " +:+ value)
                   (size_t (size element + 1)) npos = inr value).
    { rewrite <- sappend_assoc. apply substr_suffix.
      - unfold size_t. rewrite N.mod_small by word_lia.
        unfold size. rewrite length_sappend. simpl. lia.
      - unfold npos. word_lia. }
    by rewrite Hv.
  - rewrite parseLine_core by word_lia.
    cbv zeta. unfold find. rewrite findFrom_absent by done.
    change (size_t (npos + 1)) with 0%N.
    assert (He : substr element 0 npos = inr element).
    { apply (substr_suffix EmptyString element); [done|].
      unfold npos. word_lia. }
    by rewrite He.
Qed.

Lemma parseLine_status (line : string) (l : Line) :
  parseLine line = inr l →
  (l = Sat ↔ line = "sat") ∧ (l = Unsat ↔ line = "unsat").
Proof.
  unfold parseLine.
  destruct (line =? EmptyString)%string eqn:E0.
  { apply String.eqb_eq in E0 as ->. intros [= <-]. by split; split. }
  destruct (line =? "sat")%string eqn:E1.
  { apply String.eqb_eq in E1 as ->. intros [= <-]. by split; split. }
  destruct (line =? "unsat")%string eqn:E2.
  { apply String.eqb_eq in E2 as ->. intros [= <-]. by split; split. }
  apply String.eqb_neq in E1, E2.
  destruct (substr line 0 3) as [e|head]; [done|]. cbn [bind].
  intros Hl.
  assert (l = Unrecognized ∨ ∃ element value, l = Assign element value)
    as [->|(element & value & ->)]; [|by split; split|by split; split].
  destruct (negb (head =? "(= ")%string); cbn [bind] in Hl.
  { left. by injection Hl as <-. }
  destruct (substr line _ 1) as [e|last]; [done|]. cbn [bind] in Hl.
  destruct (negb (last =? ")")%string).
  { left. by injection Hl as <-. }
  destruct (substr line 3 _) as [e|lineCore]; [done|]. cbn [bind] in Hl.
  destruct (substr lineCore 0 _) as [e|element]; [done|]. cbn [bind] in Hl.
  destruct (substr lineCore _ npos) as [e|value]; [done|]. cbn [bind] in Hl.
  right. exists element, value. by injection Hl as <-.
Qed.

Lemma readLines_status (oit : list string) (res : SMTSolverResult) :
  ∃ res', readLines oit res = inr res' ∧
          status res' = lastStatus oit (status res).
Proof.
  revert res. induction oit as [|line oit IH]; intros res; simpl.
  { by exists res. }
  destruct (parseLine_ok line) as (l & Hl). rewrite Hl.
  cbn [bind].
  destruct (IH (applyLine l res)) as (res' & -> & Hst).
  exists res'. split; [done|]. rewrite Hst. f_equal.
  destruct (parseLine_status line l Hl) as [Hsat Hunsat].
  destruct (line =? "sat")%string eqn:E1.
  { apply String.eqb_eq in E1. apply Hsat in E1 as ->. done. }
  destruct (line =? "unsat")%string eqn:E2.
  { apply String.eqb_eq in E2. apply Hunsat in E2 as ->. done. }
  apply String.eqb_neq in E1, E2.
  destruct l; try done; [by destruct E1; apply Hsat|by destruct E2; apply Hunsat].
Qed.

(** X8: reading the solver's output never throws.  Whatever a line is,
    every [substr] of lines 249-256 is within the string (the [size()-1]
    of line 249 is reached with a non-empty line only, and [sep+1] wraps to
    0 when the line holds no space); so the loop of lines 243-259 comes to
    its end on every output. *)
Theorem readLines_never_throws (oit : list string) (res : SMTSolverResult) :
  (∀ line, ∃ l, parseLine line = inr l) ∧
  ∃ res', readLines oit res = inr res'.
Proof.
  split; [apply parseLine_ok|].
  destruct (readLines_status oit res) as (res' & Hr & _). by exists res'.
Qed.

Lemma lastStatus_UNKNOWN (oit : list string) (s : Status) :
  lastStatus oit s = UNKNOWN ↔
  s = UNKNOWN ∧ Forall (λ l, isStatusLine l = false) oit.
Proof.
  revert s. induction oit as [|line oit IH]; intros s; simpl.
  { split; [by intros ->|by intros [-> _]]. }
  rewrite IH, Forall_cons. unfold isStatusLine. clear_unused.
  destruct (line =? "sat")%string; simpl; [intuition congruence|].
  destruct (line =? "unsat")%string; simpl; intuition congruence.
Qed.

Lemma lastStatus_last (pre post : list string) (line : string) (s : Status) :
  isStatusLine line = true →
  Forall (λ l, isStatusLine l = false) post →
  lastStatus (pre ++ line :: post) s
  = if (line =? "sat")%string then SAT else UNSAT.
Proof.
  intros Hline Hpost. revert s.
  induction pre as [|l pre IH]; intros s; simpl; [|by rewrite IH].
  unfold isStatusLine in Hline.
  assert (Hgen : ∀ s', lastStatus post s' = s').
  { clear -Hpost. induction Hpost as [|l post Hl _ IH]; intros s'; simpl;
      [done|].
    unfold isStatusLine in Hl. apply orb_false_iff in Hl as [-> ->].
    apply IH. }
  rewrite Hgen.
  destruct (line =? "sat")%string; [done|].
  by destruct (line =? "unsat")%string.
Qed.

(** X10: how [YicesSolver::run] ends.  With fewer comments than formulas
    the call fails the [ALWAYS] of line 155 while it prints the benchmark,
    whether the executable exists or not.  Otherwise it throws the user
    error of line 235 exactly when the executable is missing, and else it
    returns with the benchmark unchanged and with the status [UNKNOWN]
    exactly when no line the solver has left is [sat] or [unsat]: nothing
    of the result passed in survives. *)
Theorem YicesSolver_run_outcome (problem : SMTBenchmark)
    (res : SMTSolverResult) :
  let execName := guessExecutableDirectory +:+ "/yices" in
  match SMTBenchmark_output problem with
  | inl e =>
      (length (_formulaComments problem) < length (_formulas problem))%nat ∧
      e = AssertionViolated ∧
      YicesSolver_run problem res = inl AssertionViolated
  | inr problemStm =>
      (length (_formulas problem) ≤ length (_formulaComments problem))%nat ∧
      match YicesSolver_run problem res with
      | inl e =>
          fileExists execName = false ∧
          e = UserError ("Executable " +:+ execName +:+ " does not exist")
      | inr (problem', res') =>
          fileExists execName = true ∧ problem' = problem ∧
          (status res' = UNKNOWN ↔
           Forall (λ l, isStatusLine l = false)
                  (executeCommand (execName +:+ " -smt -e") problemStm))
      end
  end.
Proof.
  intros execName. unfold YicesSolver_run. fold execName.
  rewrite (output_closed_form problem).
  destruct (Nat.ltb_spec (length (_formulaComments problem))
                         (length (_formulas problem))) as [Hlen|Hlen].
  { done. }
  cbn [bind]. split; [done|].
  destruct (fileExists execName); cbn [negb]; [|done].
  match goal with
  | |- context [readLines ?out _] =>
      destruct (readLines_status out (resetResult res)) as (res' & -> & Hst)
  end.
  cbn [bind]. split_and!; [done|done|].
  rewrite Hst, lastStatus_UNKNOWN. simpl. clear_unused.
  intuition congruence.
Qed.

(** X11: the last status line the iterator of [proverOut] yields decides
    the status: when the benchmark is printed without a failed assertion,
    the executable exists and no [sat] or [unsat] follows the line [line],
    itself [sat] or [unsat], the status [run] returns is that of [line],
    whatever lines come before it. *)
Theorem YicesSolver_run_last_status (problem : SMTBenchmark)
    (res : SMTSolverResult) (problemStm pre post : list string)
    (line : string) :
  SMTBenchmark_output problem = inr problemStm →
  fileExists (guessExecutableDirectory +:+ "/yices") = true →
  executeCommand ((guessExecutableDirectory +:+ "/yices") +:+ " -smt -e")
                 problemStm
  = (pre ++ line :: post)%list →
  isStatusLine line = true →
  Forall (λ l, isStatusLine l = false) post →
  ∃ res',
    YicesSolver_run problem res = inr (problem, res') ∧
    status res' = if (line =? "sat")%string then SAT else UNSAT.
Proof.
  intros Hprint Hexists Hout Hline Hpost. unfold YicesSolver_run.
  rewrite Hprint. cbn [bind]. rewrite Hexists, Hout. cbn [negb].
  destruct (readLines_status (pre ++ line :: post) (resetResult res))
    as (res' & -> & Hst).
  exists res'. split; [done|]. rewrite Hst. by apply lastStatus_last.
Qed.

End Solver.

(** ** A solver with a threshold, and a run of the Yices reader *)

Section Example.
Import stdpp.pretty.

(** The assignment as the list of the pairs inserted, newest first. *)
Definition Pairs : Type := list (string * string).

Definition insertPair (element value : string) (a : Pairs) : Pairs :=
  (element, value) :: a.

Definition lessText (f1 f2 : SMTFormula) : SMTFormula :=
  mkSMTFormula ("(< " +:+ _val f1 +:+ " " +:+ _val f2 +:+ ")").

Definition cost : SMTConstant := mkSMTFormula "cost".

(** The bound [cost < v] as [tryUpperBound] writes it. *)
Definition boundText (v : N) : SMTFormula :=
  lessText cost (unsignedValue pretty v).

(** A solver that fails the bounds below [m] only: it reads the formula
    on top of the stack and leaves the benchmark alone. *)
Definition thresholdSolver (m : nat) (problem : SMTBenchmark)
    (res : SMTSolverResult Pairs)
  : Exc (SMTBenchmark * SMTSolverResult Pairs) :=
  let top := last (_formulas problem) in
  let failing := map (λ v, Some (boundText (N.of_nat v))) (seq 0 m) in
  inr (problem,
       mkSMTSolverResult Pairs
         (if bool_decide (top ∈ failing) then UNSAT else SAT)
         (assignment Pairs res)).

Definition unknownResult : SMTSolverResult Pairs :=
  mkSMTSolverResult Pairs UNKNOWN [].

(** The lines a solver run leaves, as the iterator yields them. *)
Definition yicesLines : list string :=
  ["(= x 1)"; "unsat"; EmptyString; "sat"; "(= y 2)"; "garbage"].

Lemma sappend_inj_l (a b c : string) : a +:+ b = a +:+ c → b = c.
Proof.
  induction a as [|x a IH]; [done|].
  change (String x (a +:+ b) = String x (a +:+ c) → b = c).
  intros [= H]. by apply IH.
Qed.

Lemma sappend_inj_r (a b c : string) : a +:+ c = b +:+ c → a = b.
Proof.
  revert b. induction a as [|x a IH]; intros [|y b] H.
  - done.
  - apply (f_equal String.length) in H.
    rewrite !length_sappend in H. simpl in H. lia.
  - apply (f_equal String.length) in H.
    rewrite !length_sappend in H. simpl in H. lia.
  - change (String x (a +:+ c) = String y (b +:+ c)) in H.
    injection H as -> H. f_equal. by apply IH.
Qed.

Lemma boundText_inj (v w : N) : boundText v = boundText w → v = w.
Proof.
  unfold boundText, lessText, unsignedValue, cost. simpl.
  intros [= H].
  apply (sappend_inj_l EmptyString) in H.
  apply sappend_inj_r, sappend_inj_r in H.
  by apply pretty_N_inj in H.
Qed.

Lemma thresholdSolver_threshold (m : nat) :
  threshold Pairs pretty lessText (thresholdSolver m) emptyBenchmark cost
            (N.of_nat m).
Proof.
  intros val r. eexists. split; [reflexivity|].
  cbn [status]. unfold bounded, push. simpl.
  change (lessText cost (unsignedValue pretty val)) with (boundText val).
  case_bool_decide as Hin.
  - split; [done|]. intros Hle.
    apply list_elem_of_fmap in Hin as (v & Hv & Hv').
    apply (inj Some), boundText_inj in Hv as ->.
    apply elem_of_seq in Hv'. lia.
  - split; [|done]. intros _.
    destruct (decide (N.of_nat m ≤ val)%N) as [|Hlt]; [done|].
    destruct Hin. apply list_elem_of_fmap. exists (N.to_nat val).
    split; [by rewrite N2Nat.id|]. apply elem_of_seq. lia.
Qed.

(** X3, at five calls on the empty benchmark. *)
Lemma benchmark_invariant_witness :
  ∃ b,
    calls [AddFormula getTrue "first";
           DeclareRealConstant cost;
           AddFormula (boundText 3) EmptyString;
           DeclarePropositionalConstant (mkSMTFormula "p");
           PopFormula] emptyBenchmark = inr b ∧
    wellFormed b.
Proof.
  eexists. split; [reflexivity|].
  apply (benchmark_invariant
           [AddFormula getTrue "first";
            DeclareRealConstant cost;
            AddFormula (boundText 3) EmptyString;
            DeclarePropositionalConstant (mkSMTFormula "p");
            PopFormula]).
  reflexivity.
Defined.

(** X4, at the empty benchmark. *)
Lemma addFormula_popFormula_witness :
  (∃ b', addFormula getTrue "first" emptyBenchmark = inr b' ∧
         popFormula b' = inr emptyBenchmark) ∧
  (_formulas emptyBenchmark = [] →
   popFormula emptyBenchmark = inl AssertionViolated).
Proof.
  apply (addFormula_popFormula getTrue "first" emptyBenchmark).
  split_and!; [reflexivity|done|done].
Defined.

(** X5, at the bound 7 tried with the solver of threshold 5. *)
Lemma tryUpperBound_restores_witness :
  tryUpperBound Pairs pretty lessText (thresholdSolver 5) emptyBenchmark
                cost 7 unknownResult
  = inr (true, emptyBenchmark, mkSMTSolverResult Pairs SAT []).
Proof.
  assert (E : thresholdSolver 5 (bounded pretty lessText emptyBenchmark cost 7)
                unknownResult
              = inr (bounded pretty lessText emptyBenchmark cost 7,
                     mkSMTSolverResult Pairs SAT []))
    by (vm_compute; reflexivity).
  assert (H := tryUpperBound_restores Pairs pretty lessText
                 (thresholdSolver 5) emptyBenchmark cost 7 unknownResult).
  rewrite E in H. apply H.
  - intros p r p' r' [= <- _]. reflexivity.
  - reflexivity.
Defined.

(** X7, at the solver of threshold 5 on the empty benchmark. *)
Lemma minimize_finds_least_bound_witness :
  ∃ res',
    minimize Pairs pretty lessText (thresholdSolver 5) emptyBenchmark cost
             unknownResult
    = Some (inr (emptyBenchmark, res')) ∧
    (((5 ≤ 2 ^ 31)%N ∧
      answerFor Pairs pretty lessText (thresholdSolver 5) emptyBenchmark
                cost 5 res' ∧
      status Pairs res' = SAT)
     ∨
     ((2 ^ 31 < 5)%N ∧
      answerFor Pairs pretty lessText (thresholdSolver 5) emptyBenchmark
                cost (2 ^ 31) res' ∧
      status Pairs res' ≠ SAT)).
Proof.
  apply (minimize_finds_least_bound Pairs pretty lessText (thresholdSolver 5)
           emptyBenchmark cost 5 unknownResult).
  - exact (thresholdSolver_threshold 5).
  - reflexivity.
  - lia.
Defined.

(** X9, at the element [x] and a value that holds spaces. *)
Lemma parseLine_assignment_witness :
  parseLine "(= x (+ 1 2))" = inr (Assign "x" "(+ 1 2)") ∧
  parseLine "(= x)" = inr (Assign "x" "x").
Proof.
  apply (parseLine_assignment "x" "(+ 1 2)").
  - reflexivity.
  - reflexivity.
Defined.

(** X11, at the empty benchmark and the lines [yicesLines]: the [sat]
    that comes after the [unsat] decides. *)
Lemma YicesSolver_run_last_status_witness :
  ∃ res',
    YicesSolver_run Pairs [] insertPair map_to_list elements (λ l, l)
                    "/usr/bin" (λ _, true) (λ _ _, yicesLines) emptyBenchmark
                    unknownResult
    = inr (emptyBenchmark, res') ∧
    status Pairs res' = SAT.
Proof.
  apply (YicesSolver_run_last_status Pairs [] insertPair map_to_list elements
           (λ l, l) "/usr/bin" (λ _, true) (λ _ _, yicesLines) emptyBenchmark
           unknownResult
           ["(benchmark VampireGeneratedBenchmark"; ":formula ( (and ";
            "  true"; ") )"; ")"]
           ["(= x 1)"; "unsat"; EmptyString] ["(= y 2)"; "garbage"] "sat").
  - vm_compute. reflexivity.
  - reflexivity.
  - reflexivity.
  - reflexivity.
  - repeat constructor.
Defined.

End Example.

End SMT.

(* ===================================================================== *)
(** * Lib/Hash.hpp and Lib/Set.hpp                                        *)
(* ===================================================================== *)

Module Lib.
#[local] Open Scope string_scope.

(** The template parameter [class Hash] of [Set<Val,Hash>]: a class with
    the static members [hash] and [equals] ([unsigned] is a 32-bit word,
    kept as an [N]). *)
Class HashOps (Val : Type) : Type := {
  hash : Val → N;
  equals : Val → Val → bool
}.

(** [struct IdentityHash] of [Hash.hpp], at the value type [unsigned]:
    [equals] is [==] and [hash] is the cast to [unsigned]. *)
#[global] Instance IdentityHash : HashOps N := {
  hash val := (val mod 2 ^ 32)%N;
  equals o1 o2 := bool_decide (o1 = o2)
}.

Section SetClass.
Context {Val : Type} `{Countable Val} {HashT : HashOps Val}.

(** [class Set]: the only data member is [standard_set], a
    [std::unordered_set<Val,Hash>], here a finite set of values. *)
Record Set_ : Type := mkSet { standard_set : gset Val }.

(** [std::unordered_set::begin()]: the position of the first element of
    the enumeration, which is [end()] (here [None]) on an empty set. *)
Definition begin (s : gset Val) : option Val := head (elements s).

(** [Set::Set()], lines 56-59. *)
Definition new : Set_ := mkSet ∅.

(** [Set::find], lines 82-90: the flag and the value assigned to
    [result] (none when the key is absent).  As written the body binds a
    [Val&] to the position [standard_set.find] returns and compares it
    with [end()], which no instantiation accepts; the definition takes the
    position for what is bound.  It is relied on for a key that is absent
    only, where every reading gives not-found. *)
Definition find (key : Val) (s : Set_) : bool * option Val :=
  let found := bool_decide (key ∈ standard_set s) in
  (found, if found then Some key else None).

(** [Set::contains], lines 96-99. *)
Definition contains (val : Val) (s : Set_) : bool :=
  bool_decide (val ∈ standard_set s).

(** [Set::rawFindOrInsert], lines 119-123.  The reference parameter
    [inserted] is threaded through ([None] is an uninitialised [bool]);
    the result is the returned position, the set afterwards and
    [inserted] afterwards.  The body is the single statement
    [return this->standard_set.begin();]. *)
Definition rawFindOrInsert (create : unit → Val) (hashCode : N)
    (isCorrectVal : Val → bool) (inserted : option bool) (s : Set_)
  : option Val * Set_ * option bool :=
  (begin (standard_set s), s, inserted).

(** The three-argument overload, lines 125-127: [bool b;] is local. *)
Definition rawFindOrInsert3 (create : unit → Val) (hashCode : N)
    (isCorrectVal : Val → bool) (s : Set_) : option Val * Set_ :=
  let b : option bool := None in
  let '(r, s', _) := rawFindOrInsert create hashCode isCorrectVal b s in
  (r, s').

(** [Set::insert(Val val, unsigned code)], lines 145-146. *)
Definition insert_code (val : Val) (code : N) (s : Set_)
  : option Val * Set_ :=
  let dummy : option bool := None in
  let '(r, s', _) :=
    rawFindOrInsert (λ _, val) code (λ v, equals v val) dummy s in
  (r, s').

(** [Set::insert(const Val val)], lines 137-138. *)
Definition insert (val : Val) (s : Set_) : option Val * Set_ :=
  insert_code val (hash val) s.

(** [Set::insertFromIterator], lines 150-155, on the values the iterator
    yields. *)
Definition insertFromIterator (it : list Val) (s : Set_) : Set_ :=
  foldl (λ acc v, snd (insert v acc)) s it.

(** [Set::size], lines 158-161. *)
Definition size_ (s : Set_) : nat := size (standard_set s).

(** [Set::remove], lines 167-175.  The body has the binding of [find]
    (lines 169-170) and is read in the same way; it is relied on for a
    value that is absent only. *)
Definition remove (val : Val) (s : Set_) : bool * Set_ :=
  let found := bool_decide (val ∈ standard_set s) in
  (found, if found then mkSet (standard_set s ∖ {[val]}) else s).

(** [Set::reset], lines 183-186. *)
Definition reset (s : Set_) : Set_ := mkSet ∅.

(** [class Set::Iterator], lines 204-235: the constructor copies the
    set's [standard_set]. *)
Record Iterator : Type := mkIterator { it_standard_set : gset Val }.

Definition Iterator_of (set : Set_) : Iterator :=
  mkIterator (standard_set set).

(** [Iterator::hasNext], lines 218-221. *)
Definition hasNext (it : Iterator) : bool := false.

(** [Iterator::next], lines 228-231: it returns [begin()] and does not
    advance. *)
Definition next (it : Iterator) : option Val * Iterator :=
  (begin (it_standard_set it), it).

(** [Set::iter], lines 238-239.  [IterTraits] (Lib/Metaiterators.hpp, not
    among the sources) wraps an iterator and forwards [hasNext] and
    [next] to it; the wrapper is kept implicit. *)
Definition iter (s : Set_) : Iterator := Iterator_of s.

(** The elements a client obtains by the loop
    [while (it.hasNext()) { ... it.next() ... }], run for at most [fuel]
    rounds. *)
Fixpoint enumerate (fuel : nat) (it : Iterator) : list (option Val) :=
  match fuel with
  | O => []
  | S fuel =>
      if hasNext it
      then let '(v, it') := next it in v :: enumerate fuel it'
      else []
  end.

(** [operator<<], lines 244-255.  [show] is the stream output of a value
    ([None], the end position, prints nothing); the inner [while] loop is
    run for at most [fuel] rounds. *)
Section Output.
Variable show : Val → string.

Definition show_pos (v : option Val) : string :=
  match v with Some x => show x | None => EmptyString end.

Fixpoint output_rest (fuel : nat) (out : string) (it : Iterator)
  : string :=
  match fuel with
  | O => out
  | S fuel =>
      if hasNext it
      then let '(v, it') := next it in
           output_rest fuel (out +:+ ", " +:+ show_pos v) it'
      else out
  end.

Definition output (fuel : nat) (out : string) (self : Set_) : string :=
  let out := out +:+ "{ " in
  let it := iter self in
  let out :=
    if hasNext it
    then let '(v, it') := next it in
         output_rest fuel (out +:+ show_pos v) it'
    else out in
  out +:+ " }".
End Output.

(** The calls of the public interface that can change a set. *)
Inductive SetCall : Type :=
  | Insert (val : Val)
  | InsertCode (val : Val) (code : N)
  | InsertFromIterator (it : list Val)
  | Remove (val : Val)
  | Reset.

Definition setCall (c : SetCall) (s : Set_) : Set_ :=
  match c with
  | Insert val => snd (insert val s)
  | InsertCode val code => snd (insert_code val code s)
  | InsertFromIterator it => insertFromIterator it s
  | Remove val => snd (remove val s)
  | Reset => reset s
  end.

Definition setCalls (cs : list SetCall) (s : Set_) : Set_ :=
  foldl (λ acc c, setCall c acc) s cs.

(** ** Properties *)

(** The result of [rawFindOrInsert] does not depend on [create],
    [hashCode] or [isCorrectVal]. *)
Lemma rawFindOrInsert_ignores_arguments c1 c2 h1 h2 p1 p2 ins s :
  rawFindOrInsert c1 h1 p1 ins s = rawFindOrInsert c2 h2 p2 ins s.
Proof. reflexivity. Qed.

Lemma insert_frame val s : snd (insert val s) = s.
Proof. reflexivity. Qed.

Lemma insertFromIterator_frame it s : insertFromIterator it s = s.
Proof.
  unfold insertFromIterator. revert s.
  induction it as [|v it IH]; intros s; simpl; [done|].
  exact (IH s).
Qed.

(** C6: [rawFindOrInsert] returns [standard_set.begin()], leaves the set
    and [inserted] as they were and never looks at [create], [hashCode]
    or [isCorrectVal]; hence after [insert(v)] on an empty [Set],
    [contains(v)] is false and [size()] is 0. *)
Theorem insert_does_not_add :
  (∀ create hashCode isCorrectVal inserted s,
      rawFindOrInsert create hashCode isCorrectVal inserted s
      = (begin (standard_set s), s, inserted)) ∧
  (∀ c1 c2 h1 h2 p1 p2 ins s,
      rawFindOrInsert c1 h1 p1 ins s = rawFindOrInsert c2 h2 p2 ins s) ∧
  (∀ v : Val,
      fst (insert v new) = None ∧
      contains v (snd (insert v new)) = false ∧
      size_ (snd (insert v new)) = 0).
Proof.
  split; [done|]. split; [done|].
  intros v. rewrite insert_frame. split; [done|]. split.
  - unfold contains, new; simpl. apply bool_decide_eq_false. set_solver.
  - unfold size_, new; simpl. exact (size_empty (C:=gset Val)).
Qed.

(** C10: whatever the set holds, its iterator reports no next element,
    enumerates nothing, and the set is printed as the empty braces. *)
Theorem iterator_reports_empty :
  (∀ S : Set_, hasNext (Iterator_of S) = false) ∧
  (∀ (S : Set_) fuel, enumerate fuel (iter S) = []) ∧
  (∀ (show : Val → string) (S : Set_) fuel out,
      output show fuel out S = (out +:+ "{ ") +:+ " }") ∧
  (∀ (show : Val → string) (v : Val) fuel,
      size_ (mkSet {[v]}) = 1 ∧
      output show fuel EmptyString (mkSet {[v]}) = "{  }").
Proof.
  split; [done|]. split.
  { intros S fuel. by destruct fuel. }
  split; [done|].
  intros show v fuel. split; [|done].
  unfold size_; simpl. exact (size_singleton (C:=gset Val) v).
Qed.

(** X12: a [Set] never gets an element.  After any sequence of [insert]
    (with or without a code), [insertFromIterator], [remove] and [reset]
    on a new set, the size is 0, [contains] and [find] fail for every
    value, [remove] reports that nothing was found and [insert] returns
    the end position. *)
Theorem set_stays_empty (cs : list SetCall) (v : Val) :
  let s := setCalls cs new in
  size_ s = 0 ∧ contains v s = false ∧ find v s = (false, None) ∧
  fst (remove v s) = false ∧ fst (insert v s) = None.
Proof.
  assert (Hempty : ∀ s, standard_set s = ∅ →
                        standard_set (setCalls cs s) = ∅).
  { unfold setCalls. induction cs as [|c cs IH]; intros s Hs; simpl; [done|].
    apply IH. destruct c as [val|val code|it|val|]; simpl; try done.
    - by rewrite insertFromIterator_frame.
    - unfold remove. case_bool_decide as Hin; [|done].
      rewrite Hs in Hin. set_solver. }
  intros s. assert (Hs : standard_set s = ∅) by by apply Hempty.
  assert (Hv : bool_decide (v ∈ standard_set s) = false).
  { apply bool_decide_eq_false. rewrite Hs. set_solver. }
  split_and!.
  - unfold size_. rewrite Hs. exact (size_empty (C:=gset Val)).
  - done.
  - unfold find. by rewrite Hv.
  - unfold remove. by rewrite Hv.
  - unfold insert, insert_code, rawFindOrInsert, begin. simpl.
    by rewrite Hs, elements_empty.
Qed.

End SetClass.

End Lib.

(* ===================================================================== *)
(** * Kernel: terms, literals, clauses (headers used by                  *)
(** * Inferences/ForwardDemodulation.cpp)                                 *)
(* ===================================================================== *)

Module Kernel.

(** Modelled from the spec: [Kernel/Term.hpp] is not among the sources.
    A term is either a variable (a non-negative integer identifier) or an
    applied function symbol [f(t1,...,tn)]; sorts are terms as well.  Terms
    are shared, so identity of terms is structural equality.  (The
    special/ordinary bit of a variable is used inside the index only and is
    left out.) *)
#[local] Set Warnings "-register-all".

Inductive TermList : Type :=
  | Var (v : nat)
  | App (functor : nat) (args : list TermList).

Definition isVar (t : TermList) : bool :=
  match t with Var _ => true | App _ _ => false end.

Definition isTerm (t : TermList) : bool := negb (isVar t).

(** Induction over terms that reaches the arguments. *)
Section TermList_induction.
Variable P : TermList → Prop.
Hypothesis HVar : ∀ v, P (Var v).
Hypothesis HApp : ∀ f args, Forall P args → P (App f args).

Fixpoint TermList_ind' (t : TermList) : P t :=
  match t with
  | Var v => HVar v
  | App f args =>
      HApp f args
        ((fix go (l : list TermList) : Forall P l :=
            match l with
            | [] => Forall_nil_2 P
            | x :: l' => Forall_cons_2 P x l' (TermList_ind' x) (go l')
            end) args)
  end.
End TermList_induction.

Fixpoint TermList_beq (s t : TermList) : bool :=
  match s, t with
  | Var a, Var b => Nat.eqb a b
  | App f xs, App g ys =>
      Nat.eqb f g &&
      (fix go (xs ys : list TermList) : bool :=
         match xs, ys with
         | [], [] => true
         | x :: xs', y :: ys' => TermList_beq x y && go xs' ys'
         | _, _ => false
         end) xs ys
  | _, _ => false
  end.

Lemma TermList_beq_eq s t : TermList_beq s t = true ↔ s = t.
Proof.
  revert t. induction s as [a | f xs IH] using TermList_ind'; intros t.
  - destruct t as [b | g ys]; simpl; [|by split].
    rewrite Nat.eqb_eq. split; [by intros -> | by intros [= ->]].
  - destruct t as [b | g ys]; simpl; [by split|].
    rewrite andb_true_iff, Nat.eqb_eq.
    assert (Hargs :
      (fix go (xs ys : list TermList) : bool :=
         match xs, ys with
         | [], [] => true
         | x :: xs', y :: ys' => TermList_beq x y && go xs' ys'
         | _, _ => false
         end) xs ys = true ↔ xs = ys).
    { clear f g. revert ys.
      induction IH as [| x xs Hx _ IHxs]; intros [| y ys]; try by split.
      rewrite andb_true_iff, Hx, IHxs. split.
      - by intros [-> ->].
      - by intros [= -> ->]. }
    rewrite Hargs. split; [by intros [-> ->] | by intros [= -> ->]].
Qed.

#[global] Instance TermList_eq_dec : EqDecision TermList.
Proof.
  intros s t. unfold Decision.
  destruct (TermList_beq s t) eqn:E.
  - left. by apply TermList_beq_eq.
  - right. intros Heq. apply TermList_beq_eq in Heq. congruence.
Defined.

(** The number of symbols of a term. *)
Fixpoint weight (t : TermList) : nat :=
  match t with
  | Var _ => 1
  | App _ args => S (list_sum (map weight args))
  end.

(** ** Substitution application *)

(** [SubstApplicator]: an applicator maps a variable to a term
    ([operator()(unsigned v)]). *)
Definition SubstApplicator : Type := nat → TermList.

(** The term obtained from [t] by replacing each variable by its image. *)
Fixpoint applyTo (appl : SubstApplicator) (t : TermList) : TermList :=
  match t with
  | Var v => appl v
  | App f args => App f (map (applyTo appl) args)
  end.

(** [AppliedTerm(t)] and [AppliedTerm(t, applicator, true)]: a term paired
    with an applicator still to be applied to it.  The ordering sees the
    term it stands for, which is what this function returns. *)
Definition AppliedTerm (t : TermList) (applicator : option SubstApplicator)
  : TermList :=
  match applicator with
  | None => t
  | Some appl => applyTo appl t
  end.

(** ** Literals *)

(** Modelled from the spec: a literal is a term of predicate type plus a
    polarity bit; equality is a distinguished binary predicate (number 0).
    Literals are shared like terms. *)
Record Literal : Type := mkLiteral {
  predicate : nat;
  polarity : bool;
  lit_args : list TermList
}.

#[global] Instance Literal_eq_dec : EqDecision Literal.
Proof. solve_decision. Defined.

Definition isEquality (l : Literal) : bool := Nat.eqb (predicate l) 0.
Definition isPositive (l : Literal) : bool := polarity l.
Definition nthArgument (l : Literal) (n : nat) : option TermList :=
  lit_args l !! n.

(** ** Clauses *)

(** Modelled from the spec: the colour of a clause is one of [LEFT],
    [RIGHT], [TRANSPARENT]. *)
Inductive Color : Type := COLOR_TRANSPARENT | COLOR_LEFT | COLOR_RIGHT.

#[global] Instance Color_eq_dec : EqDecision Color.
Proof. solve_decision. Defined.

Inductive InferenceRule : Type :=
  | INPUT
  | FORWARD_DEMODULATION.

(** Modelled from the spec: a clause is an ordered multiset of literals
    with an inference record (rule name and parent clauses).  The derived
    attributes [perform] does not set (age, weight, selection, store,
    colour) are left out; the colour is read through [Clause::color()],
    a parameter of the engine below. *)
Inductive Clause : Type :=
  mkClause (literals : list Literal) (inference : Inference)
with Inference : Type :=
  | FromInput
  | SimplifyingInference2 (rule : InferenceRule) (premise1 premise2 : Clause).

Definition literals (c : Clause) : list Literal :=
  match c with mkClause ls _ => ls end.
Definition inference (c : Clause) : Inference :=
  match c with mkClause _ i => i end.
(** [Clause::length()]. *)
Definition length_ (c : Clause) : nat := length (literals c).

Fixpoint Clause_eq_dec (c d : Clause) {struct c} : {c = d} + {c ≠ d}
with Inference_eq_dec (i j : Inference) {struct i} : {i = j} + {i ≠ j}.
Proof.
  - decide equality. apply list_eq_dec.
  - decide equality. decide equality.
Defined.

#[global] Instance Clause_EqDecision : EqDecision Clause := Clause_eq_dec.

(** [ColorHelper::compatible].  Modelled from the spec: two colours are
    compatible when at most one of them is non-transparent, unless they
    are identical. *)
Definition compatible (c1 c2 : Color) : bool :=
  match c1, c2 with
  | COLOR_TRANSPARENT, _ | _, COLOR_TRANSPARENT => true
  | COLOR_LEFT, COLOR_LEFT | COLOR_RIGHT, COLOR_RIGHT => true
  | _, _ => false
  end.

(** ** Ordering *)

(** [Ordering::Result]. *)
Inductive Result : Type := GREATER | LESS | EQUAL | INCOMPARABLE.

#[global] Instance Result_eq_dec : EqDecision Result.
Proof. solve_decision. Defined.

(** The members of [class Ordering] that [perform] calls.  The class is
    not among the sources; the configured ordering is a parameter. *)
Record Ordering : Type := mkOrdering {
  getEqualityArgumentOrder : Literal → Result;
  isGreater : TermList → TermList → bool
}.

(** ** EqHelper *)

(** [EqHelper::getOtherEqualitySide(eq, lhs)].  Modelled from the spec
    (side choice: [u] is the queried side, [v] is the other one); the
    result is [None] when [eq] is not a binary literal with [lhs] as one of
    its sides, which the function asserts. *)
Definition getOtherEqualitySide (eq : Literal) (lhs : TermList)
  : option TermList :=
  match lit_args eq with
  | [a0; a1] =>
      if negb (isEquality eq) then None
      else if bool_decide (a0 = lhs) then Some a1
      else if bool_decide (a1 = lhs) then Some a0
      else None
  | _ => None
  end.

(** Replacement of every occurrence of [tSrc] in a term by [tDest]. *)
Fixpoint replaceTerm (t tSrc tDest : TermList) : TermList :=
  if bool_decide (t = tSrc) then tDest
  else match t with
       | Var _ => t
       | App f args => App f (map (λ a, replaceTerm a tSrc tDest) args)
       end.

(** [EqHelper::replace(lit, tSrc, tDest)].  Modelled from the spec: [L']
    is built by replacing [t] with [σv] in [L]. *)
Definition replace (lit : Literal) (tSrc tDest : TermList) : Literal :=
  mkLiteral (predicate lit) (polarity lit)
            (map (λ a, replaceTerm a tSrc tDest) (lit_args lit)).

(** [EqHelper::isEqTautology(lit)].  Modelled from the spec: the literal
    is an equality of the form [x = x]. *)
Definition isEqTautology (lit : Literal) : bool :=
  isEquality lit && isPositive lit &&
  match lit_args lit with
  | [a0; a1] => bool_decide (a0 = a1)
  | _ => false
  end.

(** ** RobSubstitution *)

(** Modelled from the spec: a substitution maps the variables of a bank to
    terms; [apply(t, bank)] gives the normal form of [t].  Only bank 0 is
    applied by [perform], so the images of the bank-0 variables are kept.
    [reset()] clears all bindings. *)
Record RobSubstitution : Type := mkRobSubstitution {
  bank0 : nat → TermList
}.

Definition RobSubstitution_reset (s : RobSubstitution) : RobSubstitution :=
  mkRobSubstitution Var.

Definition RobSubstitution_apply (s : RobSubstitution) (t : TermList)
  (bank : nat) : TermList :=
  match bank with
  | O => applyTo (bank0 s) t
  | S _ => t
  end.

(** ** Signature *)

(** What [perform] and the subterm iterator read from [env.signature] and
    [SortHelper] (neither is among the sources): for each function
    symbol the number of type arguments, for each predicate symbol
    whether it is an answer predicate, the sort of a term and the
    argument sort of an equality literal. *)
Record Signature : Type := mkSignature {
  numTypeArguments : nat → nat;
  predNumTypeArguments : nat → nat;
  answerPredicate : nat → bool;
  getResultSort : TermList → TermList;
  getEqualityArgumentSort : Literal → TermList
}.

(** [Literal::isAnswerLiteral()]. *)
Definition isAnswerLiteral (sig : Signature) (l : Literal) : bool :=
  answerPredicate sig (predicate l).

(** ** NonVariableNonTypeIterator *)

(** Modelled from the spec: [Kernel/TermIterators.hpp] is not among the
    sources.  The iterator yields the non-variable non-type subterms of a
    literal; [right()] skips the subterms of the term returned last.  It
    keeps a stack of the terms still to be returned and the number of terms
    the last [next()] pushed; the arguments of a term are pushed in
    argument order after its type arguments. *)
Record NonVariableNonTypeIterator : Type := mkIt {
  _stack : list TermList;   (* the head is the top *)
  _added : nat
}.

(** The terms [next()] pushes for the arguments [args] of a symbol with
    [taArity] type arguments: the last argument ends on top. *)
Definition pushed (taArity : nat) (args : list TermList) : list TermList :=
  rev (filter (λ a, isTerm a = true) (drop taArity args)).

Definition NonVariableNonTypeIterator_new (sig : Signature) (lit : Literal)
  : NonVariableNonTypeIterator :=
  let taArity :=
    if isEquality lit then 0 else predNumTypeArguments sig (predicate lit) in
  let new := pushed taArity (lit_args lit) in
  mkIt new (length new).

Definition It_hasNext (it : NonVariableNonTypeIterator) : bool :=
  match _stack it with [] => false | _ :: _ => true end.

(** [next()]: defined when [hasNext()]. *)
Definition It_next (sig : Signature) (it : NonVariableNonTypeIterator)
  : option (TermList * NonVariableNonTypeIterator) :=
  match _stack it with
  | [] => None
  | t :: rest =>
      let new :=
        match t with
        | Var _ => []
        | App f args => pushed (numTypeArguments sig f) args
        end in
      Some (t, mkIt (new ++ rest) (length new))
  end.

(** [right()]. *)
Definition It_right (it : NonVariableNonTypeIterator)
  : NonVariableNonTypeIterator :=
  mkIt (drop (_added it) (_stack it)) 0.

(** ** DHSet *)

(** [DHSet<TermList>] ([Lib/DHSet.hpp], not among the sources): a set
    where [insert] returns true iff the value was not yet in the set. *)
Definition DHSet : Type := list TermList.

Definition DHSet_reset (s : DHSet) : DHSet := [].

Definition DHSet_insert (t : TermList) (s : DHSet) : bool * DHSet :=
  if bool_decide (t ∈ s) then (false, s) else (true, t :: s).

End Kernel.

(* ===================================================================== *)
(** * Indexing: what the demodulation index hands to [perform]            *)
(* ===================================================================== *)

Module Indexing.
Import Kernel.

(** [ResultSubstitution]: the substitution a hit carries.  The image of
    each variable of the result (index) bank is kept;
    [applyToBoundResult] exists for a variable and for a term. *)
Record ResultSubstitution : Type := mkResultSubstitution {
  boundResult : nat → TermList;
  isIdentityOnQueryWhenResultBound : bool
}.

Definition applyToBoundResult_var (s : ResultSubstitution) (v : nat)
  : TermList := boundResult s v.

Definition applyToBoundResult (s : ResultSubstitution) (t : TermList)
  : TermList := applyTo (boundResult s) t.

(** Modelled from the spec: the leaf data of the index is the clause and
    the indexed term, here with the equality literal of the clause. *)
Record DemodulatorData : Type := mkDemodulatorData {
  term : TermList;
  literal : Literal;
  clause : Clause
}.

(** A hit [qr] of a query: [qr.data] and [qr.unifier]. *)
Record QueryRes : Type := mkQueryRes {
  data : DemodulatorData;
  unifier : ResultSubstitution
}.

(** [DemodulationLHSIndex]: [getGeneralizations(t, retrieveSubstitutions)]
    yields the hits for [t] in the order the iterator returns them. *)
Record DemodulationLHSIndex : Type := mkDemodulationLHSIndex {
  getGeneralizations : TermList → bool → list QueryRes
}.

(** The kinds of index the manager hands out. *)
Inductive IndexType : Type :=
  | DEMODULATION_LHS_CODE_TREE
  | SUPERPOSITION_SUBTERM_SUBST_TREE
  | BACKWARD_SUBSUMPTION_SUBST_TREE.

#[global] Instance IndexType_eq_dec : EqDecision IndexType.
Proof. solve_decision. Defined.

#[global] Instance IndexType_countable : Countable IndexType.
Proof.
  refine (inj_countable'
    (λ k, match k with
          | DEMODULATION_LHS_CODE_TREE => 0
          | SUPERPOSITION_SUBTERM_SUBST_TREE => 1
          | BACKWARD_SUBSUMPTION_SUBST_TREE => 2
          end)
    (λ n, match n with
          | 0 => DEMODULATION_LHS_CODE_TREE
          | 1 => SUPERPOSITION_SUBTERM_SUBST_TREE
          | _ => BACKWARD_SUBSUMPTION_SUBST_TREE
          end) _).
  by intros [].
Defined.

End Indexing.

(* ===================================================================== *)
(** * Inferences/ForwardDemodulation.cpp: [perform]                       *)
(* ===================================================================== *)

Module Inferences.
Import Kernel Indexing.

(** [DemodulationHelper]: the two members [perform] calls (the class is
    not among the sources). *)
Record DemodulationHelper : Type := mkDemodulationHelper {
  redundancyCheckNeededForPremise : Clause → Literal → TermList → bool;
  isPremiseRedundant :
    Clause → Literal → TermList → TermList → TermList →
    ResultSubstitution → bool → bool
}.

(** [struct Applicator<applyVSubst>], lines 56-69. *)
Definition Applicator (applyVSubst : bool) (subst : ResultSubstitution)
    (vSubst : RobSubstitution) : SubstApplicator :=
  λ v,
    let res := applyToBoundResult_var subst v in
    if applyVSubst then RobSubstitution_apply vSubst res 0 else res.

(** The two counters of [env.statistics] that [perform] increments
    ([unsigned], 32 bits). *)
Record Statistics : Type := mkStatistics {
  forwardDemodulationsToEqTaut : N;
  forwardDemodulations : N
}.

Definition incr (n : N) : N := ((n + 1) mod 2 ^ 32)%N.

(** Why a hit was left with [continue]. *)
Inductive SkipReason : Type :=
  | IncompatibleColor      (* line 131 *)
  | SortMismatch           (* line 149 *)
  | NotGreater             (* line 178 *)
  | PremiseNotRedundant.   (* line 202 *)

(** What a call does with the index, in order: a query for a term, a hit
    left with [continue], a hit that ends the call with [return true]. *)
Inductive Event : Type :=
  | EvQuery (lit : Literal) (trm : TermList)
  | EvSkip (lit : Literal) (trm : TermList) (qr : QueryRes)
           (why : SkipReason)
  | EvRewrite (lit : Literal) (trm : TermList) (qr : QueryRes)
              (rhsS : TermList) (resLit : Literal).

(** The variables that outlive one iteration: the two function-local
    statics [attempted] and [subst], the global statistics, and the trace
    of events of the current call (not program state; it records the
    calls for the statements below). *)
Record PerformState : Type := mkPerformState {
  attempted : DHSet;
  subst : RobSubstitution;
  statistics : Statistics;
  trace : list Event
}.

(** How a call ends.  [Returned ret replacement premises st]: the
    function returns [ret], the two reference parameters hold
    [replacement] (a null pointer is [None]) and [premises] (the clauses
    the iterator yields).  [AssertionViolation st]: an [ASS] of the debug
    build fails in state [st] ([Debug/Assertion.hpp]: the macro throws); in
    a release build the asserted conditions are preconditions.  [OutOfFuel]
    is an artefact of the bounded subterm loop and is shown not to occur. *)
Inductive Outcome : Type :=
  | Returned (ret : bool) (replacement : option Clause)
             (premises : list Clause) (st : PerformState)
  | AssertionViolation (st : PerformState)
  | OutOfFuel.

(** The events of a call, however it ends. *)
Definition outcomeTrace (o : Outcome) : list Event :=
  match o with
  | Returned _ _ _ st | AssertionViolation st => trace st
  | OutOfFuel => []
  end.

(** A loop body either goes on with the next iteration or leaves the
    function. *)
Inductive Step (A : Type) : Type :=
  | Next (a : A)
  | Leave (o : Outcome).
Arguments Next {A} a.
Arguments Leave {A} o.

Section Perform.
(** The engine after [attach]: the ordering of [_salg], [_index],
    [_helper] and the two flags; and the collaborators that are not
    among the sources. *)
Variable sig : Signature.
Variable clauseColor : Clause → Color.               (* Clause::color() *)
Variable RobSubstitution_match :                     (* match(p,0,i,1) *)
  TermList → TermList → option RobSubstitution.
Variable ordering : Ordering.
Variable _index : DemodulationLHSIndex.
Variable _helper : DemodulationHelper.
Variable _preorderedOnly : bool.
Variable _encompassing : bool.

(** Lines 217-222: the literals of [cl] other than [lit] are written to
    the slots [next], [next+1], ... of [res]; [res] is the written
    prefix, so [next] is its length. *)
Fixpoint copyOthers (lit : Literal) (cls : list Literal)
    (res : list Literal) : list Literal :=
  match cls with
  | [] => res
  | curr :: cls' =>
      if bool_decide (curr ≠ lit)
      then copyOthers lit cls' (res ++ [curr])
      else copyOthers lit cls' res
  end.

(** The sort match of lines 143-151: [None] is the [continue] of line
    149. *)
Definition sortMatch (st : PerformState) (trm lhs : TermList)
    (qr : QueryRes) : option RobSubstitution :=
  if isVar lhs then
    let querySort := getResultSort sig trm in
    let eqSort := getEqualityArgumentSort sig (literal (data qr)) in
    RobSubstitution_match eqSort querySort
  else Some (subst st).

(** The applicator chosen on line 172. *)
Definition chooseApplicator (lhs : TermList) (subs : ResultSubstitution)
    (vSubst : RobSubstitution) : SubstApplicator :=
  let varSubst := Applicator true subs vSubst in
  let notVarSubst := Applicator false subs vSubst in
  if isVar lhs then varSubst else notVarSubst.

(** Lines 185-194. *)
Definition encompassingStep (lit : Literal) (trm : TermList)
    (redundancyCheck : bool) : bool :=
  if redundancyCheck && _encompassing then
    let litOrder := getEqualityArgumentOrder ordering lit in
    if (bool_decide (nthArgument lit 0 = Some trm)
        && bool_decide (litOrder = LESS))
       || (bool_decide (nthArgument lit 1 = Some trm)
           && bool_decide (litOrder = GREATER))
    then false
    else redundancyCheck
  else redundancyCheck.

(** Lines 196-199. *)
Definition instantiateRhs (lhs rhs : TermList) (subs : ResultSubstitution)
    (vSubst : RobSubstitution) : TermList :=
  let rhsS := applyToBoundResult subs rhs in
  if isVar lhs then RobSubstitution_apply vSubst rhsS 0 else rhsS.

(** The debug check of lines 156-165. *)
Definition orientationAsserted (argOrder : Result) (rhs : TermList)
    (eq : Literal) : bool :=
  match argOrder with
  | LESS => bool_decide (Some rhs = nthArgument eq 0)
  | GREATER => bool_decide (Some rhs = nthArgument eq 1)
  | _ => true
  end.

Definition isPreordered (argOrder : Result) : bool :=
  bool_decide (argOrder = LESS) || bool_decide (argOrder = GREATER).

(** The body of the loop over the hits, lines 127-229, for one hit
    [qr]. *)
Definition hitBody (cl : Clause) (replacement : option Clause)
    (premises : list Clause) (lit : Literal) (trm : TermList)
    (redundancyCheck : bool) (st : PerformState) (qr : QueryRes)
  : Step (bool * PerformState) :=
  let cLen := length_ cl in
  let skip why vSubst :=
    Next (redundancyCheck,
          mkPerformState (attempted st) vSubst (statistics st)
                         (trace st ++ [EvSkip lit trm qr why])) in
  (* 128 *)
  if negb (length_ (clause (data qr)) =? 1) then Leave (AssertionViolation st)
  else
  (* 130 *)
  if negb (compatible (clauseColor cl) (clauseColor (clause (data qr))))
  then skip IncompatibleColor (subst st)
  else
  let lhs := term (data qr) in
  (* 143-151 *)
  match sortMatch st trm lhs qr with
  | None => skip SortMismatch (RobSubstitution_reset (subst st))
  | Some vSubst =>
  (* 153 *)
  match getOtherEqualitySide (literal (data qr)) lhs with
  | None => Leave (AssertionViolation st)
  | Some rhs =>
  let argOrder := getEqualityArgumentOrder ordering (literal (data qr)) in
  let preordered := isPreordered argOrder in
  (* 156-165 *)
  if negb (orientationAsserted argOrder rhs (literal (data qr)))
  then Leave (AssertionViolation st)
  else
  let subs := unifier qr in
  (* 168 *)
  if negb (isIdentityOnQueryWhenResultBound subs)
  then Leave (AssertionViolation st)
  else
  let appl := chooseApplicator lhs subs vSubst in
  (* 174 *)
  if negb preordered
     && (_preorderedOnly
         || negb (isGreater ordering (AppliedTerm trm None)
                                     (AppliedTerm rhs (Some appl))))
  then skip NotGreater vSubst
  else
  (* 185-194 *)
  let redundancyCheck' := encompassingStep lit trm redundancyCheck in
  (* 196-199 *)
  let rhsS := instantiateRhs lhs rhs subs vSubst in
  (* 201 *)
  if redundancyCheck'
     && negb (isPremiseRedundant _helper cl lit trm rhsS lhs subs true)
  then
    Next (redundancyCheck',
          mkPerformState (attempted st) vSubst (statistics st)
            (trace st ++ [EvSkip lit trm qr PremiseNotRedundant]))
  else
  (* 205 *)
  let resLit := replace lit trm rhsS in
  let tr := trace st ++ [EvRewrite lit trm qr rhsS resLit] in
  if isEqTautology resLit then
    (* 207-209 *)
    let stats :=
      mkStatistics (incr (forwardDemodulationsToEqTaut (statistics st)))
                   (forwardDemodulations (statistics st)) in
    Leave (Returned true replacement [clause (data qr)]
             (mkPerformState (attempted st) vSubst stats tr))
  else
    (* 212-222 *)
    let resLits := copyOthers lit (literals cl) [resLit] in
    let next := length resLits in
    (* 223 *)
    if negb (next =? cLen) then Leave (AssertionViolation st)
    else
    let res :=
      mkClause resLits
        (SimplifyingInference2 FORWARD_DEMODULATION cl (clause (data qr)))
    in
    (* 225-229 *)
    let stats :=
      mkStatistics (forwardDemodulationsToEqTaut (statistics st))
                   (incr (forwardDemodulations (statistics st))) in
    Leave (Returned true (Some res) [clause (data qr)]
             (mkPerformState (attempted st) vSubst stats tr))
  end end.

(** The loop [while(git.hasNext())], lines 126-230. *)
Fixpoint hitLoop (cl : Clause) (replacement : option Clause)
    (premises : list Clause) (lit : Literal) (trm : TermList)
    (redundancyCheck : bool) (st : PerformState) (git : list QueryRes)
  : Step PerformState :=
  match git with
  | [] => Next st
  | qr :: git' =>
      match hitBody cl replacement premises lit trm redundancyCheck st qr
      with
      | Next (redundancyCheck', st') =>
          hitLoop cl replacement premises lit trm redundancyCheck' st' git'
      | Leave o => Leave o
      end
  end.

(** The loop [while(it.hasNext())], lines 112-231, run for at most
    [fuel] iterations. *)
Fixpoint termLoop (fuel : nat) (cl : Clause) (replacement : option Clause)
    (premises : list Clause) (lit : Literal)
    (it : NonVariableNonTypeIterator) (st : PerformState)
  : Step PerformState :=
  match It_next sig it with
  | None => Next st
  | Some (trm, it') =>
      match fuel with
      | O => Leave OutOfFuel
      | S fuel' =>
          (* 114 *)
          let '(fresh, attempted') := DHSet_insert trm (attempted st) in
          if negb fresh then
            (* 119-120 *)
            termLoop fuel' cl replacement premises lit (It_right it') st
          else
            let st1 :=
              mkPerformState attempted' (subst st) (statistics st)
                             (trace st ++ [EvQuery lit trm]) in
            (* 123 *)
            let redundancyCheck :=
              redundancyCheckNeededForPremise _helper cl lit trm in
            (* 125 *)
            let git := getGeneralizations _index trm true in
            match hitLoop cl replacement premises lit trm
                          redundancyCheck st1 git with
            | Next st2 =>
                termLoop fuel' cl replacement premises lit it' st2
            | Leave o => Leave o
            end
      end
  end.

(** The number of iterations the subterm loop can make from [it]. *)
Definition iterations (it : NonVariableNonTypeIterator) : nat :=
  list_sum (map weight (_stack it)).

(** The loop over the literals, lines 104-232. *)
Fixpoint litLoop (cl : Clause) (replacement : option Clause)
    (premises : list Clause) (lits : list Literal) (st : PerformState)
  : Step PerformState :=
  match lits with
  | [] => Next st
  | lit :: lits' =>
      (* 106 *)
      if isAnswerLiteral sig lit then
        litLoop cl replacement premises lits' st
      else
        let it := NonVariableNonTypeIterator_new sig lit in
        match termLoop (iterations it) cl replacement premises lit it st
        with
        | Next st' => litLoop cl replacement premises lits' st'
        | Leave o => Leave o
        end
  end.

(** [ForwardDemodulationImpl<false>::perform], lines 89-235.
    [replacement] and [premises] are what the caller's variables hold at
    the call; [st] holds the statics and the statistics. *)
Definition perform (cl : Clause) (replacement : option Clause)
    (premises : list Clause) (st : PerformState) : Outcome :=
  (* 100-101 *)
  let st0 :=
    mkPerformState (DHSet_reset (attempted st)) (subst st)
                   (statistics st) [] in
  match litLoop cl replacement premises (literals cl) st0 with
  | Next st' => Returned false replacement premises st'   (* 234 *)
  | Leave o => o
  end.

(** ** The two builds *)

(** [hitBody] and the loops above are the debug build: an [ASS] or
    [ASS_EQ] that fails ends the call.  With [VDEBUG] unset the macros
    expand to nothing ([Debug/Assertion.hpp], lines 104-119) and the block
    of lines 156-165 is not compiled, so the call goes on where the debug
    build stops.  What it then meets is not fixed by the sources and is
    kept as a parameter of the build: [uninitialized], what a slot of the
    clause created on line 212 holds before it is written, and
    [otherSideUnchecked], what [EqHelper::getOtherEqualitySide] returns for
    a literal that is no equality with [lhs] as a side. *)
Record Build : Type := mkBuild {
  VDEBUG : bool;
  uninitialized : Literal;
  otherSideUnchecked : Literal → TermList → TermList
}.

(** An [ASS(cond)] fails. *)
Definition failed (b : Build) (cond : bool) : bool := VDEBUG b && negb cond.

(** [EqHelper::getOtherEqualitySide] in the build [b]. *)
Definition otherSideIn (b : Build) (eq : Literal) (lhs : TermList)
  : option TermList :=
  match getOtherEqualitySide eq lhs with
  | Some rhs => Some rhs
  | None => if VDEBUG b then None else Some (otherSideUnchecked b eq lhs)
  end.

(** The body of the loop over the hits, lines 127-229, in the build
    [b]. *)
Definition hitBodyIn (b : Build) (cl : Clause) (replacement : option Clause)
    (premises : list Clause) (lit : Literal) (trm : TermList)
    (redundancyCheck : bool) (st : PerformState) (qr : QueryRes)
  : Step (bool * PerformState) :=
  let cLen := length_ cl in
  let skip why vSubst :=
    Next (redundancyCheck,
          mkPerformState (attempted st) vSubst (statistics st)
                         (trace st ++ [EvSkip lit trm qr why])) in
  (* 128 *)
  if failed b (length_ (clause (data qr)) =? 1)
  then Leave (AssertionViolation st)
  else
  (* 130 *)
  if negb (compatible (clauseColor cl) (clauseColor (clause (data qr))))
  then skip IncompatibleColor (subst st)
  else
  let lhs := term (data qr) in
  (* 143-151 *)
  match sortMatch st trm lhs qr with
  | None => skip SortMismatch (RobSubstitution_reset (subst st))
  | Some vSubst =>
  (* 153 *)
  match otherSideIn b (literal (data qr)) lhs with
  | None => Leave (AssertionViolation st)
  | Some rhs =>
  let argOrder := getEqualityArgumentOrder ordering (literal (data qr)) in
  let preordered := isPreordered argOrder in
  (* 156-165 *)
  if failed b (orientationAsserted argOrder rhs (literal (data qr)))
  then Leave (AssertionViolation st)
  else
  let subs := unifier qr in
  (* 168 *)
  if failed b (isIdentityOnQueryWhenResultBound subs)
  then Leave (AssertionViolation st)
  else
  let appl := chooseApplicator lhs subs vSubst in
  (* 174 *)
  if negb preordered
     && (_preorderedOnly
         || negb (isGreater ordering (AppliedTerm trm None)
                                     (AppliedTerm rhs (Some appl))))
  then skip NotGreater vSubst
  else
  (* 185-194 *)
  let redundancyCheck' := encompassingStep lit trm redundancyCheck in
  (* 196-199 *)
  let rhsS := instantiateRhs lhs rhs subs vSubst in
  (* 201 *)
  if redundancyCheck'
     && negb (isPremiseRedundant _helper cl lit trm rhsS lhs subs true)
  then
    Next (redundancyCheck',
          mkPerformState (attempted st) vSubst (statistics st)
            (trace st ++ [EvSkip lit trm qr PremiseNotRedundant]))
  else
  (* 205 *)
  let resLit := replace lit trm rhsS in
  let tr := trace st ++ [EvRewrite lit trm qr rhsS resLit] in
  if isEqTautology resLit then
    (* 207-209 *)
    let stats :=
      mkStatistics (incr (forwardDemodulationsToEqTaut (statistics st)))
                   (forwardDemodulations (statistics st)) in
    Leave (Returned true replacement [clause (data qr)]
             (mkPerformState (attempted st) vSubst stats tr))
  else
    (* 212-222: the slots from [next] on are not written *)
    let resLits := copyOthers lit (literals cl) [resLit] in
    let next := length resLits in
    (* 223 *)
    if failed b (next =? cLen) then Leave (AssertionViolation st)
    else
    let res :=
      mkClause (resLits ++ replicate (cLen - next) (uninitialized b))
        (SimplifyingInference2 FORWARD_DEMODULATION cl (clause (data qr)))
    in
    (* 225-229 *)
    let stats :=
      mkStatistics (forwardDemodulationsToEqTaut (statistics st))
                   (incr (forwardDemodulations (statistics st))) in
    Leave (Returned true (Some res) [clause (data qr)]
             (mkPerformState (attempted st) vSubst stats tr))
  end end.

(** The loops and the function in the build [b]: as above, with
    [hitBodyIn b] for the body of the innermost loop. *)
Fixpoint hitLoopIn (b : Build) (cl : Clause) (replacement : option Clause)
    (premises : list Clause) (lit : Literal) (trm : TermList)
    (redundancyCheck : bool) (st : PerformState) (git : list QueryRes)
  : Step PerformState :=
  match git with
  | [] => Next st
  | qr :: git' =>
      match hitBodyIn b cl replacement premises lit trm redundancyCheck st qr
      with
      | Next (redundancyCheck', st') =>
          hitLoopIn b cl replacement premises lit trm redundancyCheck' st'
                    git'
      | Leave o => Leave o
      end
  end.

Fixpoint termLoopIn (b : Build) (fuel : nat) (cl : Clause)
    (replacement : option Clause) (premises : list Clause) (lit : Literal)
    (it : NonVariableNonTypeIterator) (st : PerformState)
  : Step PerformState :=
  match It_next sig it with
  | None => Next st
  | Some (trm, it') =>
      match fuel with
      | O => Leave OutOfFuel
      | S fuel' =>
          let '(fresh, attempted') := DHSet_insert trm (attempted st) in
          if negb fresh then
            termLoopIn b fuel' cl replacement premises lit (It_right it') st
          else
            let st1 :=
              mkPerformState attempted' (subst st) (statistics st)
                             (trace st ++ [EvQuery lit trm]) in
            let redundancyCheck :=
              redundancyCheckNeededForPremise _helper cl lit trm in
            let git := getGeneralizations _index trm true in
            match hitLoopIn b cl replacement premises lit trm
                            redundancyCheck st1 git with
            | Next st2 =>
                termLoopIn b fuel' cl replacement premises lit it' st2
            | Leave o => Leave o
            end
      end
  end.

Fixpoint litLoopIn (b : Build) (cl : Clause) (replacement : option Clause)
    (premises : list Clause) (lits : list Literal) (st : PerformState)
  : Step PerformState :=
  match lits with
  | [] => Next st
  | lit :: lits' =>
      if isAnswerLiteral sig lit then
        litLoopIn b cl replacement premises lits' st
      else
        let it := NonVariableNonTypeIterator_new sig lit in
        match termLoopIn b (iterations it) cl replacement premises lit it st
        with
        | Next st' => litLoopIn b cl replacement premises lits' st'
        | Leave o => Leave o
        end
  end.

Definition performIn (b : Build) (cl : Clause) (replacement : option Clause)
    (premises : list Clause) (st : PerformState) : Outcome :=
  let st0 :=
    mkPerformState (DHSet_reset (attempted st)) (subst st)
                   (statistics st) [] in
  match litLoopIn b cl replacement premises (literals cl) st0 with
  | Next st' => Returned false replacement premises st'
  | Leave o => o
  end.

(** ** The vocabulary of the statements *)

(** The number of leading type arguments the iterator skips in a literal. *)
Definition litTaArity (lit : Literal) : nat :=
  if isEquality lit then 0 else predNumTypeArguments sig (predicate lit).

(** [t] is a non-variable non-type subterm of [lit]: a non-variable
    argument of [lit] past its type arguments, or such an argument of a
    non-variable non-type subterm of [lit]. *)
Inductive subtermOfLit (lit : Literal) : TermList → Prop :=
  | sub_arg t :
      t ∈ drop (litTaArity lit) (lit_args lit) → isVar t = false →
      subtermOfLit lit t
  | sub_sub f args t :
      subtermOfLit lit (App f args) →
      t ∈ drop (numTypeArguments sig f) args → isVar t = false →
      subtermOfLit lit t.

(** The terms queried in a trace, in order. *)
Definition queried (tr : list Event) : list TermList :=
  omap (λ ev, match ev with EvQuery _ trm => Some trm | _ => None end) tr.

Definition isRewrite (ev : Event) : bool :=
  match ev with EvRewrite _ _ _ _ _ => true | _ => false end.

(** A term reached in the loops: [trm] comes from the iterator of the
    non-answer literal [lit] of [cl]. *)
Definition reached (cl : Clause) (lit : Literal) (trm : TermList) : Prop :=
  lit ∈ literals cl ∧ isAnswerLiteral sig lit = false ∧ subtermOfLit lit trm.

(** The checks of lines 128-203 that the hit [qr] for [trm] has passed
    when control reaches line 205, with the sort matcher [vSubst] and the
    other side [rhs] of the equality. *)
Definition accepted (cl : Clause) (lit : Literal) (trm : TermList)
    (rc : bool) (st : PerformState) (qr : QueryRes)
    (vSubst : RobSubstitution) (rhs : TermList) : Prop :=
  let lhs := term (data qr) in
  let subs := unifier qr in
  let argOrder := getEqualityArgumentOrder ordering (literal (data qr)) in
  length_ (clause (data qr)) = 1 ∧
  compatible (clauseColor cl) (clauseColor (clause (data qr))) = true ∧
  sortMatch st trm lhs qr = Some vSubst ∧
  getOtherEqualitySide (literal (data qr)) lhs = Some rhs ∧
  orientationAsserted argOrder rhs (literal (data qr)) = true ∧
  isIdentityOnQueryWhenResultBound subs = true ∧
  (isPreordered argOrder = true ∨
   (_preorderedOnly = false ∧
    isGreater ordering (AppliedTerm trm None)
      (AppliedTerm rhs (Some (chooseApplicator lhs subs vSubst))) = true)) ∧
  (encompassingStep lit trm rc = false ∨
   isPremiseRedundant _helper cl lit trm
     (instantiateRhs lhs rhs subs vSubst) lhs subs true = true).

(** The two ways a hit ends the call with [return true]: line 209 (the
    rewritten literal is an equality tautology) and line 229. *)
Definition endsCall (cl : Clause) (replacement : option Clause)
    (lit : Literal) (trm : TermList) (qr : QueryRes) (tr : list Event)
    (rhsS : TermList) (resLit : Literal) (o : Outcome) : Prop :=
  ∃ st',
    trace st' = tr ++ [EvRewrite lit trm qr rhsS resLit] ∧
    ((isEqTautology resLit = true ∧
      o = Returned true replacement [clause (data qr)] st')
     ∨
     (isEqTautology resLit = false ∧
      length (copyOthers lit (literals cl) [resLit]) = length_ cl ∧
      o = Returned true
            (Some (mkClause (copyOthers lit (literals cl) [resLit])
                     (SimplifyingInference2 FORWARD_DEMODULATION cl
                        (clause (data qr)))))
            [clause (data qr)] st')).

Definition noRewrite (tr : list Event) : Prop :=
  Forall (λ ev, isRewrite ev = false) tr.

(** A call that returns false leaves its reference parameters alone and
    has applied no hit; a call that returns true has skipped every hit but
    the last one it looked at, which passed the checks and ended the call;
    the subterm loop never runs out of iterations. *)
Definition shape (cl : Clause) (replacement : option Clause)
    (premises : list Clause) (o : Outcome) : Prop :=
  match o with
  | Returned false r p st' =>
      r = replacement ∧ p = premises ∧ noRewrite (trace st')
  | Returned true r p st' =>
      ∃ lit trm qr rc st vSubst rhs,
        reached cl lit trm ∧ qr ∈ getGeneralizations _index trm true ∧
        noRewrite (trace st) ∧
        accepted cl lit trm rc st qr vSubst rhs ∧
        endsCall cl replacement lit trm qr (trace st)
          (instantiateRhs (term (data qr)) rhs (unifier qr) vSubst)
          (replace lit trm
             (instantiateRhs (term (data qr)) rhs (unifier qr) vSubst)) o
  | AssertionViolation st' => noRewrite (trace st')
  | OutOfFuel => False
  end.

(** The hit [qr] for [trm] fails the check named by [why], having passed
    the checks and assertions before it. *)
Definition fails (cl : Clause) (lit : Literal) (trm : TermList) (rc : bool)
    (st : PerformState) (qr : QueryRes) (why : SkipReason) : Prop :=
  let lhs := term (data qr) in
  let subs := unifier qr in
  let eq := literal (data qr) in
  let argOrder := getEqualityArgumentOrder ordering eq in
  let passedSortMatch vSubst rhs :=
    sortMatch st trm lhs qr = Some vSubst ∧
    getOtherEqualitySide eq lhs = Some rhs ∧
    orientationAsserted argOrder rhs eq = true ∧
    isIdentityOnQueryWhenResultBound subs = true in
  let greater vSubst rhs :=
    isGreater ordering (AppliedTerm trm None)
      (AppliedTerm rhs (Some (chooseApplicator lhs subs vSubst))) in
  length_ (clause (data qr)) = 1 ∧
  match why with
  | IncompatibleColor =>
      compatible (clauseColor cl) (clauseColor (clause (data qr))) = false
  | SortMismatch =>
      compatible (clauseColor cl) (clauseColor (clause (data qr))) = true ∧
      isVar lhs = true ∧
      RobSubstitution_match (getEqualityArgumentSort sig eq)
                            (getResultSort sig trm) = None
  | NotGreater =>
      compatible (clauseColor cl) (clauseColor (clause (data qr))) = true ∧
      ∃ vSubst rhs,
        passedSortMatch vSubst rhs ∧
        isPreordered argOrder = false ∧
        (_preorderedOnly = true ∨ greater vSubst rhs = false)
  | PremiseNotRedundant =>
      compatible (clauseColor cl) (clauseColor (clause (data qr))) = true ∧
      ∃ vSubst rhs,
        passedSortMatch vSubst rhs ∧
        (isPreordered argOrder = true ∨
         (_preorderedOnly = false ∧ greater vSubst rhs = true)) ∧
        encompassingStep lit trm rc = true ∧
        isPremiseRedundant _helper cl lit trm
          (instantiateRhs lhs rhs subs vSubst) lhs subs true = false
  end.

(** The state with the static [subst] set to [v]. *)
Definition forget (v : RobSubstitution) (st : PerformState) : PerformState :=
  mkPerformState (attempted st) v (statistics st) (trace st).

Definition forgetO (v : RobSubstitution) (o : Outcome) : Outcome :=
  match o with
  | Returned ret r p st => Returned ret r p (forget v st)
  | AssertionViolation st => AssertionViolation (forget v st)
  | OutOfFuel => OutOfFuel
  end.

Definition forgetHit (v : RobSubstitution) (s : Step (bool * PerformState))
  : Step (bool * PerformState) :=
  match s with
  | Next (rc, st) => Next (rc, forget v st)
  | Leave o => Leave (forgetO v o)
  end.

Definition forgetStep (v : RobSubstitution) (s : Step PerformState)
  : Step PerformState :=
  match s with
  | Next st => Next (forget v st)
  | Leave o => Leave (forgetO v o)
  end.

(** The end of a call by the counters: [EqTaut] is the [return true] of
    line 209, [Rewritten] the one of line 229, [Unchanged] any other
    end. *)
Inductive Counted : Type := EqTaut | Rewritten | Unchanged.

Definition count (c : Counted) (s : Statistics) : Statistics :=
  match c with
  | EqTaut =>
      mkStatistics (incr (forwardDemodulationsToEqTaut s))
                   (forwardDemodulations s)
  | Rewritten =>
      mkStatistics (forwardDemodulationsToEqTaut s)
                   (incr (forwardDemodulations s))
  | Unchanged => s
  end.

(** What the hit [qr] for [trm] has passed in the build [b] when it is
    applied, with the sort matcher [vSubst] and the other side [rhs], and
    how the call then ends.  The conditions of the assertions are known in
    the debug build only. *)
Definition appliedIn (b : Build) (cl : Clause) (replacement : option Clause)
    (lit : Literal) (trm : TermList) (rc : bool) (st : PerformState)
    (qr : QueryRes) (vSubst : RobSubstitution) (rhs : TermList)
    (o : Outcome) : Prop :=
  let lhs := term (data qr) in
  let subs := unifier qr in
  let eq := literal (data qr) in
  let argOrder := getEqualityArgumentOrder ordering eq in
  let rhsS := instantiateRhs lhs rhs subs vSubst in
  let resLit := replace lit trm rhsS in
  let resLits := copyOthers lit (literals cl) [resLit] in
  compatible (clauseColor cl) (clauseColor (clause (data qr))) = true ∧
  sortMatch st trm lhs qr = Some vSubst ∧
  otherSideIn b eq lhs = Some rhs ∧
  (VDEBUG b = true →
   length_ (clause (data qr)) = 1 ∧
   orientationAsserted argOrder rhs eq = true ∧
   isIdentityOnQueryWhenResultBound subs = true) ∧
  (isPreordered argOrder = true ∨
   (_preorderedOnly = false ∧
    isGreater ordering (AppliedTerm trm None)
      (AppliedTerm rhs (Some (chooseApplicator lhs subs vSubst))) = true)) ∧
  (encompassingStep lit trm rc = false ∨
   isPremiseRedundant _helper cl lit trm rhsS lhs subs true = true) ∧
  ∃ st',
    trace st' = trace st ++ [EvRewrite lit trm qr rhsS resLit] ∧
    ((isEqTautology resLit = true ∧
      o = Returned true replacement [clause (data qr)] st')
     ∨
     (isEqTautology resLit = false ∧
      (VDEBUG b = true → length resLits = length_ cl) ∧
      o = Returned true
            (Some (mkClause
                     (resLits ++ replicate (length_ cl - length resLits)
                                           (uninitialized b))
                     (SimplifyingInference2 FORWARD_DEMODULATION cl
                        (clause (data qr)))))
            [clause (data qr)] st')).

(** The shape of a call in the build [b]: as [shape], with [appliedIn]
    for the hit that ends a call with [return true]; an assertion fails in
    the debug build only. *)
Definition shapeIn (b : Build) (cl : Clause) (replacement : option Clause)
    (premises : list Clause) (o : Outcome) : Prop :=
  match o with
  | Returned false r p st' =>
      r = replacement ∧ p = premises ∧ noRewrite (trace st')
  | Returned true r p st' =>
      ∃ lit trm qr rc st vSubst rhs,
        reached cl lit trm ∧ qr ∈ getGeneralizations _index trm true ∧
        noRewrite (trace st) ∧
        appliedIn b cl replacement lit trm rc st qr vSubst rhs o
  | AssertionViolation st' => VDEBUG b = true ∧ noRewrite (trace st')
  | OutOfFuel => False
  end.

(** ** Basic facts *)

Lemma weight_pos t : 0 < weight t.
Proof. destruct t; simpl; lia. Qed.

Lemma list_sum_filter_le {A} (P : A → Prop) `{∀ x, Decision (P x)}
  (f : A → nat) (l : list A) :
  list_sum (map f (filter P l)) ≤ list_sum (map f l).
Proof.
  induction l as [|x l IH]; simpl; [done|].
  rewrite filter_cons. destruct (decide (P x)); simpl; lia.
Qed.

Lemma list_sum_drop_le {A} (f : A → nat) n (l : list A) :
  list_sum (map f (drop n l)) ≤ list_sum (map f l).
Proof.
  revert n. induction l as [|x l IH]; intros [|n]; simpl; try lia.
  specialize (IH n). lia.
Qed.

Lemma list_sum_rev (l : list nat) : list_sum (rev l) = list_sum l.
Proof.
  induction l as [|x l IH]; simpl; [done|].
  rewrite list_sum_app; simpl. lia.
Qed.

Lemma pushed_weight ta args :
  list_sum (map weight (pushed ta args)) ≤ list_sum (map weight args).
Proof.
  unfold pushed. rewrite map_rev, list_sum_rev.
  etrans; [apply list_sum_filter_le | apply list_sum_drop_le].
Qed.

Lemma elem_of_pushed ta args t :
  t ∈ pushed ta args ↔ t ∈ drop ta args ∧ isVar t = false.
Proof.
  unfold pushed. rewrite list_elem_of_In, <- in_rev, <- list_elem_of_In.
  rewrite list_elem_of_filter. unfold isTerm.
  rewrite negb_true_iff. tauto.
Qed.

(** [next()] takes the top of the stack and leaves a stack with fewer
    symbols; [right()] after it leaves the stack below the top. *)
Lemma It_next_inv it trm it' :
  It_next sig it = Some (trm, it') →
  ∃ rest new,
    _stack it = trm :: rest ∧ _stack it' = new ++ rest ∧
    _added it' = length new ∧
    (∀ t, t ∈ new →
       ∃ f args, trm = App f args ∧
                 t ∈ drop (numTypeArguments sig f) args ∧ isVar t = false) ∧
    iterations it' < iterations it.
Proof.
  unfold It_next, iterations. destruct (_stack it) as [|t rest] eqn:E; [done|].
  intros [= <- <-]. simpl. eexists rest, _. repeat split.
  - intros u Hu. destruct t as [v|f args]; [by apply elem_of_nil in Hu|].
    exists f, args. split; [done|]. by apply elem_of_pushed.
  - rewrite map_app, list_sum_app.
    destruct t as [v|f args]; simpl; [lia|].
    pose proof (pushed_weight (numTypeArguments sig f) args). lia.
Qed.

Lemma It_right_after_next it trm it' rest :
  It_next sig it = Some (trm, it') → _stack it = trm :: rest →
  It_right it' = mkIt rest 0.
Proof.
  intros Hn Hs. destruct (It_next_inv _ _ _ Hn) as (r & new & E & E' & Ea & _).
  rewrite Hs in E. injection E as <-.
  unfold It_right. rewrite E', Ea. by rewrite drop_app_length.
Qed.

Lemma DHSet_insert_spec t s :
  DHSet_insert t s = (bool_decide (t ∉ s), if bool_decide (t ∈ s) then s else t :: s).
Proof.
  unfold DHSet_insert. destruct (bool_decide (t ∈ s)) eqn:E.
  - apply bool_decide_eq_true in E. by rewrite bool_decide_eq_false_2 by tauto.
  - apply bool_decide_eq_false in E. by rewrite bool_decide_eq_true_2.
Qed.

(** A hit left with [continue] changes the trace and the static [subst]
    only, and leaves [redundancyCheck] as it was. *)
Lemma hitBody_Next cl replacement premises lit trm rc st qr rc' st' :
  hitBody cl replacement premises lit trm rc st qr = Next (rc', st') →
  rc' = rc ∧ attempted st' = attempted st ∧
  statistics st' = statistics st ∧
  ∃ why, trace st' = trace st ++ [EvSkip lit trm qr why].
Proof.
  unfold hitBody. intros Hb.
  repeat (case_match; try discriminate); simplify_eq; simpl;
    try (split_and!; [done..| by eexists]).
  split_and!; [|done..| by eexists].
  match goal with H : encompassingStep _ _ _ && _ = true |- _ =>
    apply andb_true_iff in H as [H _]; revert H end.
  unfold encompassingStep. by repeat case_match.
Qed.

(** ** What a hit that ends the call has passed *)

Lemma hitBody_Leave cl replacement premises lit trm rc st qr o :
  hitBody cl replacement premises lit trm rc st qr = Leave o →
  o = AssertionViolation st ∨
  ∃ vSubst rhs,
    accepted cl lit trm rc st qr vSubst rhs ∧
    endsCall cl replacement lit trm qr (trace st)
      (instantiateRhs (term (data qr)) rhs (unifier qr) vSubst)
      (replace lit trm
         (instantiateRhs (term (data qr)) rhs (unifier qr) vSubst)) o.
Proof.
  unfold hitBody. intros Hb.
  destruct (negb (length_ (clause (data qr)) =? 1)) eqn:E1;
    [left; congruence|].
  destruct (negb (compatible _ _)) eqn:E2; [done|].
  destruct (sortMatch st trm (term (data qr)) qr) as [vSubst|] eqn:E3; [|done].
  destruct (getOtherEqualitySide _ _) as [rhs|] eqn:E4; [|left; congruence].
  destruct (negb (orientationAsserted _ _ _)) eqn:E5; [left; congruence|].
  destruct (negb (isIdentityOnQueryWhenResultBound _)) eqn:E6;
    [left; congruence|].
  destruct (negb (isPreordered _) && _) eqn:E7; [done|].
  destruct (encompassingStep lit trm rc && _) eqn:E8; [done|].
  apply negb_false_iff in E1, E2, E5, E6. apply Nat.eqb_eq in E1.
  assert (Hacc : accepted cl lit trm rc st qr vSubst rhs).
  { unfold accepted. split_and!; try done.
    - apply andb_false_iff in E7 as [E7|E7].
      + left. by apply negb_false_iff.
      + right. apply orb_false_iff in E7 as [-> E7].
        by apply negb_false_iff in E7.
    - apply andb_false_iff in E8 as [E8|E8]; [by left|].
      right. by apply negb_false_iff in E8. }
  destruct (isEqTautology _) eqn:E9.
  - injection Hb as <-. right. exists vSubst, rhs. split; [done|].
    eexists. split; [|left; split; [done|reflexivity]]. done.
  - destruct (negb (_ =? length_ cl)) eqn:E10; [left; congruence|].
    apply negb_false_iff, Nat.eqb_eq in E10.
    injection Hb as <-. right. exists vSubst, rhs. split; [done|].
    eexists. split; [|right; split_and!; [done|done|reflexivity]]. done.
Qed.

(** ** A proof rule for [perform]

    [Inv] holds of the state at the head of every loop, [Post] of the way
    the call ends.  The rule is proved once, loop by loop, and used for
    each property of [perform] below. *)
Section Rule.
Variable cl : Clause.
Variable replacement : option Clause.
Variable premises : list Clause.
Variable Inv : PerformState → Prop.
Variable Post : Outcome → Prop.

Hypothesis Hquery : ∀ lit trm st,
  reached cl lit trm → trm ∉ attempted st → Inv st →
  Inv (mkPerformState (trm :: attempted st) (subst st) (statistics st)
                      (trace st ++ [EvQuery lit trm])).

Hypothesis Hnext : ∀ lit trm rc st qr rc' st',
  reached cl lit trm → trm ∈ attempted st →
  qr ∈ getGeneralizations _index trm true → Inv st →
  hitBody cl replacement premises lit trm rc st qr = Next (rc', st') →
  Inv st'.

Hypothesis Hleave : ∀ lit trm rc st qr o,
  reached cl lit trm → trm ∈ attempted st →
  qr ∈ getGeneralizations _index trm true → Inv st →
  hitBody cl replacement premises lit trm rc st qr = Leave o →
  Post o.

Hypothesis Hfalse : ∀ st, Inv st → Post (Returned false replacement premises st).

Lemma hitLoop_rule lit trm git :
  reached cl lit trm → git ⊆ getGeneralizations _index trm true →
  ∀ rc st, trm ∈ attempted st → Inv st →
  match hitLoop cl replacement premises lit trm rc st git with
  | Next st' => Inv st' ∧ attempted st' = attempted st
  | Leave o => Post o
  end.
Proof.
  intros Hr. induction git as [|qr git IH]; intros Hsub rc st Hatt HI; simpl.
  { done. }
  assert (Hqr : qr ∈ getGeneralizations _index trm true).
  { apply Hsub. by left. }
  destruct (hitBody cl replacement premises lit trm rc st qr)
    as [[rc' st'] | o] eqn:Hb.
  - destruct (hitBody_Next _ _ _ _ _ _ _ _ _ _ Hb) as (_ & Ea & _).
    assert (Inv st') by eauto.
    specialize (IH (λ x Hx, Hsub x (list_elem_of_further _ _ _ Hx)) rc' st').
    specialize (IH ltac:(by rewrite Ea) H).
    destruct (hitLoop _ _ _ _ _ _ _ _); [|done].
    destruct IH as [? ->]. by rewrite Ea.
  - eauto.
Qed.

Lemma termLoop_rule lit fuel :
  lit ∈ literals cl → isAnswerLiteral sig lit = false →
  ∀ it st,
    iterations it ≤ fuel → Forall (subtermOfLit lit) (_stack it) → Inv st →
    match termLoop fuel cl replacement premises lit it st with
    | Next st' => Inv st'
    | Leave o => Post o
    end.
Proof.
  intros Hl Ha. induction fuel as [|fuel IH]; intros it st Hf Hstk HI.
  - simpl. destruct (It_next sig it) as [[trm it']|] eqn:Hn; [|done].
    apply It_next_inv in Hn as (? & ? & _ & _ & _ & _ & ?). lia.
  - simpl. destruct (It_next sig it) as [[trm it']|] eqn:Hn; [|done].
    destruct (It_next_inv _ _ _ Hn) as (rest & new & Es & Es' & Ea & Hnew & Hlt).
    rewrite Es in Hstk. apply Forall_cons in Hstk as [Htrm Hrest].
    assert (Hr : reached cl lit trm) by done.
    rewrite DHSet_insert_spec.
    destruct (bool_decide (trm ∉ attempted st)) eqn:Hfresh; simpl.
    + apply bool_decide_eq_true in Hfresh.
      rewrite bool_decide_eq_false_2 by done.
      pose proof (hitLoop_rule lit trm (getGeneralizations _index trm true) Hr
        (λ x Hx, Hx)
        (redundancyCheckNeededForPremise _helper cl lit trm)
        (mkPerformState (trm :: attempted st) (subst st) (statistics st)
                        (trace st ++ [EvQuery lit trm]))) as Hh.
      simpl in Hh. specialize (Hh ltac:(by left) ltac:(by apply Hquery)).
      destruct (hitLoop _ _ _ _ _ _ _ _) as [st2|o]; [|done].
      destruct Hh as [HI2 _]. apply IH; [lia| |done].
      rewrite Es'. apply Forall_app. split; [|done].
      apply Forall_forall. intros t Ht.
      destruct (Hnew t Ht) as (f & args & -> & ? & ?).
      by eapply sub_sub.
    + apply bool_decide_eq_false in Hfresh.
      apply IH; [| |done].
      * rewrite (It_right_after_next _ _ _ _ Hn Es).
        unfold iterations in *. rewrite Es in Hf. simpl in *.
        pose proof (weight_pos trm). lia.
      * by rewrite (It_right_after_next _ _ _ _ Hn Es).
Qed.

Lemma new_iterator_stack lit :
  Forall (subtermOfLit lit) (_stack (NonVariableNonTypeIterator_new sig lit)).
Proof.
  apply Forall_forall. intros t Ht. simpl in Ht.
  apply elem_of_pushed in Ht as [? ?]. by apply sub_arg.
Qed.

Lemma litLoop_rule lits :
  lits ⊆ literals cl →
  ∀ st, Inv st →
    match litLoop cl replacement premises lits st with
    | Next st' => Inv st'
    | Leave o => Post o
    end.
Proof.
  induction lits as [|lit lits IH]; intros Hsub st HI; simpl; [done|].
  assert (Hlit : lit ∈ literals cl) by (apply Hsub; by left).
  assert (Hsub' : lits ⊆ literals cl).
  { intros x Hx. apply Hsub. by right. }
  destruct (isAnswerLiteral sig lit) eqn:Ha; [by apply IH|].
  pose proof (termLoop_rule lit
    (iterations (NonVariableNonTypeIterator_new sig lit)) Hlit Ha
    (NonVariableNonTypeIterator_new sig lit) st
    ltac:(done) (new_iterator_stack lit) HI) as Ht.
  destruct (termLoop _ _ _ _ _ _ _) as [st'|o]; [|done].
  by apply IH.
Qed.

Lemma perform_rule st :
  Inv (mkPerformState [] (subst st) (statistics st) []) →
  Post (perform cl replacement premises st).
Proof.
  intros HI. unfold perform, DHSet_reset.
  pose proof (litLoop_rule (literals cl) ltac:(done) _ HI) as Hl.
  destruct (litLoop _ _ _ _ _) as [st'|o]; [|done].
  by apply Hfalse.
Qed.

End Rule.

(** ** The shape of a call *)

Lemma noRewrite_snoc tr ev :
  noRewrite tr → isRewrite ev = false → noRewrite (tr ++ [ev]).
Proof. intros. apply Forall_app. split; [done|]. by apply Forall_singleton. Qed.

Lemma perform_shape cl replacement premises st :
  shape cl replacement premises (perform cl replacement premises st).
Proof.
  apply (perform_rule cl replacement premises
           (λ st, noRewrite (trace st)) (shape cl replacement premises)).
  - intros lit trm st0 _ _ HI. simpl. by apply noRewrite_snoc.
  - intros lit trm rc st0 qr rc' st' _ _ _ HI Hb.
    apply hitBody_Next in Hb as (_ & _ & _ & why & ->).
    by apply noRewrite_snoc.
  - intros lit trm rc st0 qr o Hr _ Hqr HI Hb.
    apply hitBody_Leave in Hb as [-> | (vSubst & rhs & Hacc & Hend)]; [done|].
    assert (∃ r p st', o = Returned true r p st') as (r & p & st' & ->).
    { destruct Hend as (st' & _ & [[_ ->] | (_ & _ & ->)]); by eauto. }
    simpl. by exists lit, trm, qr, rc, st0, vSubst, rhs.
  - by intros st0 HI.
  - by apply Forall_nil.
Qed.

(** The call always ends: the bound on the subterm loop is never hit. *)
Lemma perform_total cl replacement premises st :
  perform cl replacement premises st ≠ OutOfFuel.
Proof.
  pose proof (perform_shape cl replacement premises st) as H.
  intros E. by rewrite E in H.
Qed.

Lemma queried_snoc tr ev :
  queried (tr ++ [ev])
  = queried tr ++ match ev with EvQuery _ trm => [trm] | _ => [] end.
Proof. unfold queried. rewrite omap_app. by destruct ev. Qed.

(** Every query of a call is for a term reached in the loops that was not
    queried before in the call. *)
Lemma perform_queries cl replacement premises st :
  let o := perform cl replacement premises st in
  NoDup (queried (outcomeTrace o)) ∧
  ∀ lit trm, EvQuery lit trm ∈ outcomeTrace o → reached cl lit trm.
Proof.
  set (Inv := λ st : PerformState,
    NoDup (queried (trace st)) ∧
    (∀ t, t ∈ queried (trace st) → t ∈ attempted st) ∧
    (∀ lit trm, EvQuery lit trm ∈ trace st → reached cl lit trm)).
  set (Post := λ o : Outcome,
    NoDup (queried (outcomeTrace o)) ∧
    ∀ lit trm, EvQuery lit trm ∈ outcomeTrace o → reached cl lit trm).
  apply (perform_rule cl replacement premises Inv Post).
  - intros lit trm st0 Hr Hfresh (Hnd & Hatt & Hev). unfold Inv; simpl.
    rewrite queried_snoc. split_and!.
    + apply NoDup_app. split_and!; [done| |apply NoDup_singleton].
      intros t Ht ->%list_elem_of_singleton. by apply Hfresh, Hatt.
    + intros t [Ht | ->%list_elem_of_singleton]%elem_of_app.
      * right. by apply Hatt.
      * by left.
    + intros l t [Ht | [= -> ->]%list_elem_of_singleton]%elem_of_app;
        [by apply Hev | done].
  - intros lit trm rc st0 qr rc' st' _ _ _ (Hnd & Hatt & Hev) Hb.
    apply hitBody_Next in Hb as (_ & Ea & _ & why & Et). unfold Inv.
    rewrite Et, Ea, queried_snoc, app_nil_r. split_and!; [done..|].
    intros l t [Ht | Ht%list_elem_of_singleton]%elem_of_app;
      [by apply Hev | done].
  - intros lit trm rc st0 qr o _ _ _ (Hnd & Hatt & Hev) Hb.
    apply hitBody_Leave in Hb as [-> | (vSubst & rhs & _ & Hend)];
      [by split|].
    destruct Hend as (st' & Et & [[_ ->] | (_ & _ & ->)]); unfold Post; simpl;
      rewrite Et, queried_snoc, app_nil_r; (split; [done|]);
      (intros l t [Ht | Ht%list_elem_of_singleton]%elem_of_app;
        [by apply Hev | done]).
  - by intros st0 (Hnd & _ & Hev).
  - unfold Inv; simpl. split_and!; [apply NoDup_nil_2| |];
      intros *; by intros ?%elem_of_nil.
Qed.

Lemma subtermOfLit_nonvar lit t : subtermOfLit lit t → isVar t = false.
Proof. by intros []. Qed.

(** A term found in [attempted] is not queried, and the iterator goes on
    below it: the arguments [next()] pushed for it are dropped. *)
Lemma termLoop_skip fuel cl replacement premises lit it st trm rest :
  _stack it = trm :: rest → trm ∈ attempted st →
  termLoop (S fuel) cl replacement premises lit it st
  = termLoop fuel cl replacement premises lit (mkIt rest 0) st.
Proof.
  intros Hs Hin. simpl.
  destruct (It_next sig it) as [[t it']|] eqn:Hn.
  - destruct (It_next_inv _ _ _ Hn) as (r & new & E & _).
    rewrite Hs in E. injection E as -> ->.
    rewrite DHSet_insert_spec, bool_decide_eq_false_2 by tauto. simpl.
    by rewrite (It_right_after_next _ _ _ _ Hn Hs).
  - unfold It_next in Hn. by rewrite Hs in Hn.
Qed.

(** An answer literal is passed over. *)
Lemma litLoop_answer cl replacement premises lit lits st :
  isAnswerLiteral sig lit = true →
  litLoop cl replacement premises (lit :: lits) st
  = litLoop cl replacement premises lits st.
Proof. intros Ha. simpl. by rewrite Ha. Qed.

(** ** Substitution and replacement facts *)

Lemma applyTo_compose (f g : SubstApplicator) t :
  applyTo g (applyTo f t) = applyTo (λ v, applyTo g (f v)) t.
Proof.
  induction t as [v | h args IH] using TermList_ind'; simpl; [done|].
  f_equal. rewrite map_map. apply map_ext_Forall.
  by apply (Forall_impl _ _ _ IH).
Qed.

(** The term put into the clause (lines 196-199) is the term the ordering
    was asked about on line 174. *)
Lemma instantiateRhs_AppliedTerm lhs rhs subs vSubst :
  instantiateRhs lhs rhs subs vSubst
  = AppliedTerm rhs (Some (chooseApplicator lhs subs vSubst)).
Proof.
  unfold instantiateRhs, chooseApplicator, AppliedTerm, Applicator,
    applyToBoundResult, applyToBoundResult_var, RobSubstitution_apply.
  destruct (isVar lhs); [|done]. apply applyTo_compose.
Qed.

Lemma getOtherEqualitySide_Some eq lhs rhs :
  getOtherEqualitySide eq lhs = Some rhs →
  (lit_args eq = [lhs; rhs]) ∨ (lit_args eq = [rhs; lhs] ∧ rhs ≠ lhs).
Proof.
  unfold getOtherEqualitySide.
  destruct (lit_args eq) as [|a0 [|a1 [|]]]; try done.
  destruct (negb (isEquality eq)); [done|].
  destruct (bool_decide (a0 = lhs)) eqn:E0.
  { apply bool_decide_eq_true in E0 as ->. intros [= ->]. by left. }
  apply bool_decide_eq_false in E0.
  destruct (bool_decide (a1 = lhs)) eqn:E1; [|done].
  apply bool_decide_eq_true in E1 as ->. intros [= ->]. by right.
Qed.

Lemma copyOthers_filter lit cls res :
  copyOthers lit cls res = res ++ filter (λ curr, curr ≠ lit) cls.
Proof.
  revert res. induction cls as [|curr cls IH]; intros res; simpl.
  { by rewrite app_nil_r. }
  rewrite filter_cons. destruct (decide (curr ≠ lit)) as [Hne|Heq].
  - rewrite bool_decide_eq_true_2 by done. by rewrite IH, <- app_assoc.
  - rewrite bool_decide_eq_false_2 by done. apply IH.
Qed.

Lemma filter_length_eq {A} (P : A → Prop) `{∀ x, Decision (P x)} (l : list A) :
  length (filter P l) = length l → filter P l = l.
Proof.
  induction l as [|x l IH]; [done|]. rewrite filter_cons.
  destruct (decide (P x)); simpl; intros Hlen.
  - f_equal. apply IH. lia.
  - pose proof (length_filter P l). lia.
Qed.

(** When the check of line 223 passes, [lit] stands at exactly one place of
    the clause and the other literals are copied in their order. *)
Lemma copyOthers_exactly lit cls resLit :
  lit ∈ cls →
  length (copyOthers lit cls [resLit]) = length cls →
  ∃ pre post,
    cls = pre ++ lit :: post ∧ (lit ∉ pre) ∧ (lit ∉ post) ∧
    copyOthers lit cls [resLit] = resLit :: pre ++ post.
Proof.
  intros Hin Hlen. rewrite copyOthers_filter in *.
  apply list_elem_of_split_l in Hin as (pre & post & -> & Hpre).
  exists pre, post.
  assert (Ef : filter (λ curr, curr ≠ lit) pre = pre).
  { apply filter_length_eq. clear Hlen.
    induction pre as [|x pre IH]; [done|].
    apply not_elem_of_cons in Hpre as [? ?].
    rewrite filter_cons, decide_True by done. simpl. f_equal. by apply IH. }
  rewrite filter_app, filter_cons, decide_False in * by (intros ?; done).
  rewrite Ef in *.
  assert (Eg : filter (λ curr, curr ≠ lit) post = post).
  { apply filter_length_eq. simpl in Hlen.
    rewrite !length_app in Hlen. simpl in Hlen. lia. }
  rewrite Eg. split_and!; try done.
  intros Hpost. assert (lit ∈ filter (λ curr, curr ≠ lit) post) as Hf
    by by rewrite Eg.
  apply list_elem_of_filter in Hf as [? _]. done.
Qed.

(** In the trace of a call the hit that was applied is the last event. *)
Lemma rewrite_is_last tr ev lit trm qr rhsS resLit :
  noRewrite tr →
  EvRewrite lit trm qr rhsS resLit ∈ tr ++ [ev] →
  ev = EvRewrite lit trm qr rhsS resLit.
Proof.
  intros Hno [Hin | Hin%list_elem_of_singleton]%elem_of_app; [|done].
  unfold noRewrite in Hno. rewrite Forall_forall in Hno.
  by apply Hno in Hin.
Qed.

(** ** Failed hits *)

Lemma encompassingStep_true lit trm rc :
  encompassingStep lit trm rc = true → rc = true.
Proof. unfold encompassingStep. by repeat case_match. Qed.

Lemma hitBody_fails cl replacement premises lit trm rc st qr why :
  fails cl lit trm rc st qr why →
  ∃ vSubst,
    hitBody cl replacement premises lit trm rc st qr
    = Next (rc, mkPerformState (attempted st) vSubst (statistics st)
                  (trace st ++ [EvSkip lit trm qr why])).
Proof.
  unfold fails, hitBody. intros [Hlen Hwhy]. rewrite Hlen. simpl.
  destruct why.
  - rewrite Hwhy. simpl. by eexists.
  - destruct Hwhy as (-> & Hv & Hm). simpl.
    unfold sortMatch. rewrite Hv, Hm. by eexists.
  - destruct Hwhy as (-> & vSubst & rhs & (-> & -> & -> & ->) & -> & Hg).
    simpl in *. exists vSubst.
    destruct Hg as [-> | ->]; simpl; [done|].
    by rewrite orb_true_r.
  - destruct Hwhy as
      (-> & vSubst & rhs & (-> & -> & -> & ->) & Hg & Henc & ->).
    simpl in *. exists vSubst. rewrite Henc. simpl.
    rewrite (encompassingStep_true _ _ _ Henc).
    destruct Hg as [-> | [-> ->]]; simpl; [done|].
    by rewrite andb_false_r.
Qed.

Lemma hitBody_Next_fails cl replacement premises lit trm rc st qr rc' st' :
  hitBody cl replacement premises lit trm rc st qr = Next (rc', st') →
  ∃ why, fails cl lit trm rc st qr why ∧
         trace st' = trace st ++ [EvSkip lit trm qr why].
Proof.
  unfold hitBody, fails. intros Hb.
  destruct (negb (length_ (clause (data qr)) =? 1)) eqn:E1; [done|].
  apply negb_false_iff, Nat.eqb_eq in E1.
  destruct (negb (compatible _ _)) eqn:E2.
  { injection Hb as <- <-. exists IncompatibleColor. simpl.
    by apply negb_true_iff in E2. }
  apply negb_false_iff in E2.
  destruct (sortMatch st trm (term (data qr)) qr) as [vSubst|] eqn:E3.
  2:{ injection Hb as <- <-. exists SortMismatch. simpl.
      unfold sortMatch in E3. by destruct (isVar (term (data qr))). }
  destruct (getOtherEqualitySide _ _) as [rhs|] eqn:E4; [|done].
  destruct (negb (orientationAsserted _ _ _)) eqn:E5; [done|].
  destruct (negb (isIdentityOnQueryWhenResultBound _)) eqn:E6; [done|].
  apply negb_false_iff in E5, E6.
  destruct (negb (isPreordered _) && _) eqn:E7.
  { injection Hb as <- <-. exists NotGreater. simpl.
    apply andb_true_iff in E7 as [E7 E8]. apply negb_true_iff in E7.
    split_and!; try done. exists vSubst, rhs. split_and!; try done.
    apply orb_true_iff in E8 as [E8|E8]; [by left|].
    right. by apply negb_true_iff in E8. }
  destruct (encompassingStep lit trm rc && _) eqn:E8;
    [|by repeat case_match].
  injection Hb as <- <-. exists PremiseNotRedundant. simpl.
  apply andb_true_iff in E8 as [E8 E9]. apply negb_true_iff in E9.
  split_and!; try done. exists vSubst, rhs. split_and!; try done.
  apply andb_false_iff in E7 as [E7|E7].
  - left. by apply negb_false_iff.
  - right. apply orb_false_iff in E7 as [-> E7].
    by apply negb_false_iff in E7.
Qed.

(** ** The two builds *)

Lemma failed_true b cond : failed b cond = true → VDEBUG b = true.
Proof. unfold failed. by intros [? _]%andb_true_iff. Qed.

Lemma failed_false b cond :
  failed b cond = false → VDEBUG b = true → cond = true.
Proof. unfold failed. intros H Hd. rewrite Hd in H. by destruct cond. Qed.

Lemma otherSideIn_None b eq lhs :
  otherSideIn b eq lhs = None → VDEBUG b = true.
Proof.
  unfold otherSideIn. destruct (getOtherEqualitySide eq lhs); [done|].
  by destruct (VDEBUG b).
Qed.

Lemma otherSideIn_Some b eq lhs rhs rhs' :
  getOtherEqualitySide eq lhs = Some rhs' →
  otherSideIn b eq lhs = Some rhs → rhs = rhs'.
Proof. unfold otherSideIn. intros ->. by intros [= ->]. Qed.

Lemma otherSideIn_checked b eq lhs rhs :
  VDEBUG b = true → otherSideIn b eq lhs = Some rhs →
  getOtherEqualitySide eq lhs = Some rhs.
Proof.
  unfold otherSideIn. intros ->. by destruct (getOtherEqualitySide eq lhs).
Qed.

(** The debug build of [hitBodyIn] is [hitBody], and so for the loops
    and the function. *)
Lemma hitBodyIn_debug b cl replacement premises lit trm rc st qr :
  VDEBUG b = true →
  hitBodyIn b cl replacement premises lit trm rc st qr
  = hitBody cl replacement premises lit trm rc st qr.
Proof.
  intros Hb. unfold hitBodyIn, hitBody, failed, otherSideIn. rewrite Hb.
  cbn [andb].
  destruct (negb (length_ (clause (data qr)) =? 1)); [done|].
  destruct (negb (compatible _ _)); [done|].
  destruct (sortMatch st trm (term (data qr)) qr) as [vSubst|]; [|done].
  destruct (getOtherEqualitySide _ _) as [rhs|]; [|done].
  destruct (negb (orientationAsserted _ _ _)); [done|].
  destruct (negb (isIdentityOnQueryWhenResultBound _)); [done|].
  destruct (negb (isPreordered _) && _); [done|].
  destruct (encompassingStep lit trm rc && _); [done|].
  destruct (isEqTautology _); [done|].
  destruct (negb (_ =? length_ cl)) eqn:E; [done|].
  apply negb_false_iff, Nat.eqb_eq in E.
  rewrite E, Nat.sub_diag. cbn [replicate]. by rewrite app_nil_r.
Qed.

Lemma hitLoopIn_debug b cl replacement premises lit trm git :
  VDEBUG b = true →
  ∀ rc st,
    hitLoopIn b cl replacement premises lit trm rc st git
    = hitLoop cl replacement premises lit trm rc st git.
Proof.
  intros Hb. induction git as [|qr git IH]; intros rc st; simpl; [done|].
  rewrite hitBodyIn_debug by done.
  destruct (hitBody _ _ _ _ _ _ _ _) as [[rc' st']|o]; [apply IH|done].
Qed.

Lemma termLoopIn_debug b cl replacement premises lit fuel :
  VDEBUG b = true →
  ∀ it st,
    termLoopIn b fuel cl replacement premises lit it st
    = termLoop fuel cl replacement premises lit it st.
Proof.
  intros Hb. induction fuel as [|fuel IH]; intros it st; simpl; [done|].
  destruct (It_next sig it) as [[trm it']|]; [|done].
  destruct (DHSet_insert trm (attempted st)) as [fresh attempted'].
  destruct fresh; simpl; [|apply IH].
  rewrite hitLoopIn_debug by done.
  destruct (hitLoop _ _ _ _ _ _ _ _) as [st2|o]; [apply IH|done].
Qed.

Lemma litLoopIn_debug b cl replacement premises lits :
  VDEBUG b = true →
  ∀ st,
    litLoopIn b cl replacement premises lits st
    = litLoop cl replacement premises lits st.
Proof.
  intros Hb. induction lits as [|lit lits IH]; intros st; simpl; [done|].
  destruct (isAnswerLiteral sig lit); [apply IH|].
  rewrite termLoopIn_debug by done.
  destruct (termLoop _ _ _ _ _ _ _) as [st'|o]; [apply IH|done].
Qed.

Lemma performIn_debug b cl replacement premises st :
  VDEBUG b = true →
  performIn b cl replacement premises st = perform cl replacement premises st.
Proof.
  intros Hb. unfold performIn, perform. by rewrite litLoopIn_debug.
Qed.

(** A hit left with [continue], in either build. *)
Lemma hitBodyIn_Next b cl replacement premises lit trm rc st qr rc' st' :
  hitBodyIn b cl replacement premises lit trm rc st qr = Next (rc', st') →
  attempted st' = attempted st ∧ statistics st' = statistics st ∧
  ∃ why, trace st' = trace st ++ [EvSkip lit trm qr why].
Proof.
  unfold hitBodyIn. intros Hb.
  repeat (case_match; try discriminate); simplify_eq; simpl;
    (split_and!; [done|done|by eexists]).
Qed.

(** A hit that ends the call, in either build. *)
Lemma hitBodyIn_Leave b cl replacement premises lit trm rc st qr o :
  hitBodyIn b cl replacement premises lit trm rc st qr = Leave o →
  (VDEBUG b = true ∧ o = AssertionViolation st) ∨
  ∃ vSubst rhs, appliedIn b cl replacement lit trm rc st qr vSubst rhs o.
Proof.
  unfold hitBodyIn. intros Hb.
  destruct (failed b (length_ (clause (data qr)) =? 1)) eqn:E1.
  { left. split; [by eapply failed_true|congruence]. }
  destruct (negb (compatible _ _)) eqn:E2; [done|].
  destruct (sortMatch st trm (term (data qr)) qr) as [vSubst|] eqn:E3; [|done].
  destruct (otherSideIn b _ _) as [rhs|] eqn:E4.
  2:{ left. split; [by eapply otherSideIn_None|congruence]. }
  destruct (failed b (orientationAsserted _ _ _)) eqn:E5.
  { left. split; [by eapply failed_true|congruence]. }
  destruct (failed b (isIdentityOnQueryWhenResultBound _)) eqn:E6.
  { left. split; [by eapply failed_true|congruence]. }
  destruct (negb (isPreordered _) && _) eqn:E7; [done|].
  destruct (encompassingStep lit trm rc && _) eqn:E8; [done|].
  apply negb_false_iff in E2.
  assert (Hord :
    isPreordered
      (getEqualityArgumentOrder ordering (literal (data qr))) = true ∨
    (_preorderedOnly = false ∧
     isGreater ordering (AppliedTerm trm None)
       (AppliedTerm rhs
          (Some (chooseApplicator (term (data qr)) (unifier qr) vSubst)))
     = true)).
  { apply andb_false_iff in E7 as [E7|E7].
    - left. by apply negb_false_iff.
    - right. apply orb_false_iff in E7 as [-> E7].
      by apply negb_false_iff in E7. }
  assert (Hred :
    encompassingStep lit trm rc = false ∨
    isPremiseRedundant _helper cl lit trm
      (instantiateRhs (term (data qr)) rhs (unifier qr) vSubst)
      (term (data qr)) (unifier qr) true = true).
  { apply andb_false_iff in E8 as [E8|E8]; [by left|].
    right. by apply negb_false_iff in E8. }
  assert (Hass : VDEBUG b = true →
    length_ (clause (data qr)) = 1 ∧
    orientationAsserted
      (getEqualityArgumentOrder ordering (literal (data qr))) rhs
      (literal (data qr)) = true ∧
    isIdentityOnQueryWhenResultBound (unifier qr) = true).
  { intros Hd. split_and!.
    - by apply Nat.eqb_eq, (failed_false b).
    - by apply (failed_false b).
    - by apply (failed_false b). }
  destruct (isEqTautology _) eqn:E9.
  - injection Hb as <-. right. exists vSubst, rhs.
    unfold appliedIn. cbv zeta. split_and!; try done.
    eexists. split; [|left; split; [done|reflexivity]]. done.
  - destruct (failed b (_ =? length_ cl)) eqn:E10.
    { left. split; [by eapply failed_true|congruence]. }
    injection Hb as <-. right. exists vSubst, rhs.
    unfold appliedIn. cbv zeta. split_and!; try done.
    eexists. split; [|right; split_and!; [done| |reflexivity]]; [done|].
    intros Hd. by apply Nat.eqb_eq, (failed_false b).
Qed.

(** The proof rule of [perform], for the build [b]. *)
Section RuleIn.
Variable b : Build.
Variable cl : Clause.
Variable replacement : option Clause.
Variable premises : list Clause.
Variable Inv : PerformState → Prop.
Variable Post : Outcome → Prop.

Hypothesis Hquery : ∀ lit trm st,
  reached cl lit trm → trm ∉ attempted st → Inv st →
  Inv (mkPerformState (trm :: attempted st) (subst st) (statistics st)
                      (trace st ++ [EvQuery lit trm])).

Hypothesis Hnext : ∀ lit trm rc st qr rc' st',
  reached cl lit trm → trm ∈ attempted st →
  qr ∈ getGeneralizations _index trm true → Inv st →
  hitBodyIn b cl replacement premises lit trm rc st qr = Next (rc', st') →
  Inv st'.

Hypothesis Hleave : ∀ lit trm rc st qr o,
  reached cl lit trm → trm ∈ attempted st →
  qr ∈ getGeneralizations _index trm true → Inv st →
  hitBodyIn b cl replacement premises lit trm rc st qr = Leave o →
  Post o.

Hypothesis Hfalse : ∀ st, Inv st → Post (Returned false replacement premises st).

Lemma hitLoopIn_rule lit trm git :
  reached cl lit trm → git ⊆ getGeneralizations _index trm true →
  ∀ rc st, trm ∈ attempted st → Inv st →
  match hitLoopIn b cl replacement premises lit trm rc st git with
  | Next st' => Inv st' ∧ attempted st' = attempted st
  | Leave o => Post o
  end.
Proof.
  intros Hr. induction git as [|qr git IH]; intros Hsub rc st Hatt HI; simpl.
  { done. }
  assert (Hqr : qr ∈ getGeneralizations _index trm true).
  { apply Hsub. by left. }
  destruct (hitBodyIn b cl replacement premises lit trm rc st qr)
    as [[rc' st'] | o] eqn:Hb.
  - destruct (hitBodyIn_Next _ _ _ _ _ _ _ _ _ _ _ Hb) as (Ea & _).
    assert (Inv st') by eauto.
    specialize (IH (λ x Hx, Hsub x (list_elem_of_further _ _ _ Hx)) rc' st').
    specialize (IH ltac:(by rewrite Ea) H).
    destruct (hitLoopIn _ _ _ _ _ _ _ _ _); [|done].
    destruct IH as [? ->]. by rewrite Ea.
  - eauto.
Qed.

Lemma termLoopIn_rule lit fuel :
  lit ∈ literals cl → isAnswerLiteral sig lit = false →
  ∀ it st,
    iterations it ≤ fuel → Forall (subtermOfLit lit) (_stack it) → Inv st →
    match termLoopIn b fuel cl replacement premises lit it st with
    | Next st' => Inv st'
    | Leave o => Post o
    end.
Proof.
  intros Hl Ha. induction fuel as [|fuel IH]; intros it st Hf Hstk HI.
  - simpl. destruct (It_next sig it) as [[trm it']|] eqn:Hn; [|done].
    apply It_next_inv in Hn as (? & ? & _ & _ & _ & _ & ?). lia.
  - simpl. destruct (It_next sig it) as [[trm it']|] eqn:Hn; [|done].
    destruct (It_next_inv _ _ _ Hn) as (rest & new & Es & Es' & Ea & Hnew & Hlt).
    rewrite Es in Hstk. apply Forall_cons in Hstk as [Htrm Hrest].
    assert (Hr : reached cl lit trm) by done.
    rewrite DHSet_insert_spec.
    destruct (bool_decide (trm ∉ attempted st)) eqn:Hfresh; simpl.
    + apply bool_decide_eq_true in Hfresh.
      rewrite bool_decide_eq_false_2 by done.
      pose proof (hitLoopIn_rule lit trm (getGeneralizations _index trm true)
        Hr (λ x Hx, Hx)
        (redundancyCheckNeededForPremise _helper cl lit trm)
        (mkPerformState (trm :: attempted st) (subst st) (statistics st)
                        (trace st ++ [EvQuery lit trm]))) as Hh.
      simpl in Hh. specialize (Hh ltac:(by left) ltac:(by apply Hquery)).
      destruct (hitLoopIn _ _ _ _ _ _ _ _ _) as [st2|o]; [|done].
      destruct Hh as [HI2 _]. apply IH; [lia| |done].
      rewrite Es'. apply Forall_app. split; [|done].
      apply Forall_forall. intros t Ht.
      destruct (Hnew t Ht) as (f & args & -> & ? & ?).
      by eapply sub_sub.
    + apply bool_decide_eq_false in Hfresh.
      apply IH; [| |done].
      * rewrite (It_right_after_next _ _ _ _ Hn Es).
        unfold iterations in *. rewrite Es in Hf. simpl in *.
        pose proof (weight_pos trm). lia.
      * by rewrite (It_right_after_next _ _ _ _ Hn Es).
Qed.

Lemma litLoopIn_rule lits :
  lits ⊆ literals cl →
  ∀ st, Inv st →
    match litLoopIn b cl replacement premises lits st with
    | Next st' => Inv st'
    | Leave o => Post o
    end.
Proof.
  induction lits as [|lit lits IH]; intros Hsub st HI; simpl; [done|].
  assert (Hlit : lit ∈ literals cl) by (apply Hsub; by left).
  assert (Hsub' : lits ⊆ literals cl).
  { intros x Hx. apply Hsub. by right. }
  destruct (isAnswerLiteral sig lit) eqn:Ha; [by apply IH|].
  pose proof (termLoopIn_rule lit
    (iterations (NonVariableNonTypeIterator_new sig lit)) Hlit Ha
    (NonVariableNonTypeIterator_new sig lit) st
    ltac:(done) (new_iterator_stack lit) HI) as Ht.
  destruct (termLoopIn _ _ _ _ _ _ _ _) as [st'|o]; [|done].
  by apply IH.
Qed.

Lemma performIn_rule st :
  Inv (mkPerformState [] (subst st) (statistics st) []) →
  Post (performIn b cl replacement premises st).
Proof.
  intros HI. unfold performIn, DHSet_reset.
  pose proof (litLoopIn_rule (literals cl) ltac:(done) _ HI) as Hl.
  destruct (litLoopIn _ _ _ _ _ _) as [st'|o]; [|done].
  by apply Hfalse.
Qed.

End RuleIn.

Lemma performIn_shape b cl replacement premises st :
  shapeIn b cl replacement premises (performIn b cl replacement premises st).
Proof.
  apply (performIn_rule b cl replacement premises
           (λ st, noRewrite (trace st)) (shapeIn b cl replacement premises)).
  - intros lit trm st0 _ _ HI. simpl. by apply noRewrite_snoc.
  - intros lit trm rc st0 qr rc' st' _ _ _ HI Hb.
    apply hitBodyIn_Next in Hb as (_ & _ & why & ->).
    by apply noRewrite_snoc.
  - intros lit trm rc st0 qr o Hr _ Hqr HI Hb.
    apply hitBodyIn_Leave in Hb as [[Hd ->] | (vSubst & rhs & Happ)]; [done|].
    assert (∃ r p st', o = Returned true r p st') as (r & p & st' & ->).
    { destruct Happ as (_ & _ & _ & _ & _ & _ & st' & _ & [[_ ->] | (_ & _ & ->)]);
        by eauto. }
    simpl. by exists lit, trm, qr, rc, st0, vSubst, rhs.
  - by intros st0 HI.
  - by apply Forall_nil.
Qed.

(** In a clause that holds no literal twice, the loop of lines 217-222
    copies every literal but [lit]. *)
Lemma copyOthers_NoDup lit cls resLit :
  NoDup cls → lit ∈ cls →
  length (copyOthers lit cls [resLit]) = length cls.
Proof.
  intros Hnd Hin. rewrite copyOthers_filter.
  apply list_elem_of_split in Hin as (pre & post & ->).
  apply NoDup_app in Hnd as (_ & Hpre & Hpost).
  apply NoDup_cons in Hpost as [Hpost _].
  assert (Hp : lit ∉ pre).
  { intros Hin. apply (Hpre lit Hin). by left. }
  rewrite filter_app, filter_cons, decide_False by (intros ?; done).
  assert (Ef : ∀ l : list Literal, lit ∉ l → filter (λ curr, curr ≠ lit) l = l).
  { clear. induction l as [|x l IH]; intros Hl; [done|].
    apply not_elem_of_cons in Hl as [? ?].
    rewrite filter_cons, decide_True by done. f_equal. by apply IH. }
  rewrite !Ef by done. simpl. rewrite !length_app. simpl. lia.
Qed.

(** ** The properties of [perform] *)

(** C1: every rewrite that forward demodulation applies satisfies the
    ordering restriction, in the debug build and in the release build.
    Assume of the collaborators that the ordering is stable under
    substitution, that the argument order cached on an equality literal is
    the order of its two sides, that the substitution of a hit
    instantiates the indexed side to the query term, and that the index
    is oriented: a hit holds a side of its equality, and for a pre-ordered
    equality the greater side (the other side is the argument the cached
    order names as the smaller one; lines 156-165 assert it in the debug
    build only).  Then whenever [perform] replaces a subterm [trm] of a
    literal [lit] of [cl] by [rhsS], the instance of the other side [rhs]
    of the unit equality, [trm] is greater than [rhsS]: for an equality
    that is not pre-ordered the check [isGreater] of line 174 has answered
    so, and for a pre-ordered one (cached [LESS] or [GREATER]) it follows
    from the cached order.  With [_preorderedOnly] set only pre-ordered
    equalities are applied. *)
Theorem forward_demodulation_ordering
  (Hstable : ∀ s t (θ : SubstApplicator),
     isGreater ordering s t = true →
     isGreater ordering (applyTo θ s) (applyTo θ t) = true)
  (Hcached : ∀ eq a0 a1,
     lit_args eq = [a0; a1] →
     (getEqualityArgumentOrder ordering eq = GREATER →
      isGreater ordering a0 a1 = true) ∧
     (getEqualityArgumentOrder ordering eq = LESS →
      isGreater ordering a1 a0 = true))
  (Hinstance : ∀ trm qr vSubst,
     qr ∈ getGeneralizations _index trm true →
     (isVar (term (data qr)) = true →
      RobSubstitution_match
        (getEqualityArgumentSort sig (literal (data qr)))
        (getResultSort sig trm) = Some vSubst) →
     applyTo (chooseApplicator (term (data qr)) (unifier qr) vSubst)
             (term (data qr)) = trm)
  (Horiented : ∀ trm qr,
     qr ∈ getGeneralizations _index trm true →
     ∃ rhs,
       getOtherEqualitySide (literal (data qr)) (term (data qr)) = Some rhs ∧
       (getEqualityArgumentOrder ordering (literal (data qr)) = LESS →
        nthArgument (literal (data qr)) 0 = Some rhs) ∧
       (getEqualityArgumentOrder ordering (literal (data qr)) = GREATER →
        nthArgument (literal (data qr)) 1 = Some rhs))
  b cl replacement premises st lit trm qr rhsS resLit :
  EvRewrite lit trm qr rhsS resLit
    ∈ outcomeTrace (performIn b cl replacement premises st) →
  let argOrder := getEqualityArgumentOrder ordering (literal (data qr)) in
  ∃ rhs vSubst,
    getOtherEqualitySide (literal (data qr)) (term (data qr)) = Some rhs ∧
    rhsS = AppliedTerm rhs
             (Some (chooseApplicator (term (data qr)) (unifier qr) vSubst)) ∧
    resLit = replace lit trm rhsS ∧
    isGreater ordering trm rhsS = true ∧
    (isPreordered argOrder = false →
     isGreater ordering (AppliedTerm trm None) rhsS = true) ∧
    (_preorderedOnly = true → isPreordered argOrder = true).
Proof.
  intros Hin argOrder.
  pose proof (performIn_shape b cl replacement premises st) as Hshape.
  destruct (performIn b cl replacement premises st) as [[|] r p st'|st'|];
    simpl in Hin, Hshape; try done.
  2:{ destruct Hshape as (_ & _ & Hno). unfold noRewrite in Hno.
      rewrite Forall_forall in Hno. by apply Hno in Hin. }
  2:{ destruct Hshape as [_ Hno]. unfold noRewrite in Hno.
      rewrite Forall_forall in Hno. by apply Hno in Hin. }
  destruct Hshape as
    (lit0 & trm0 & qr0 & rc & st0 & vSubst & rhs & Hr & Hqr & Hno & Happ).
  destruct Happ as (_ & Hsort & Hother & _ & Hord & _ & st1 & Et & Hend).
  assert (Est : st' = st1).
  { by destruct Hend as [[_ [= _ _ ->]] | (_ & _ & [= _ _ ->])]. }
  subst st1. clear Hend.
  rewrite Et in Hin. apply rewrite_is_last in Hin; [|done].
  injection Hin as -> -> -> <- <-. clear Et.
  destruct (Horiented trm qr Hqr) as (rhs' & Hside & Hless & Hgreater).
  assert (rhs = rhs') as <- by by eapply otherSideIn_Some.
  exists rhs, vSubst. rewrite instantiateRhs_AppliedTerm.
  set (appl := chooseApplicator (term (data qr)) (unifier qr) vSubst) in *.
  assert (Hprem : isPreordered argOrder = true ∨
                  (_preorderedOnly = false ∧
                   isGreater ordering trm (applyTo appl rhs) = true)) by done.
  split_and!; try done.
  - destruct Hprem as [Hpre | [_ Hg]]; [|done].
    (* the pre-ordered case: the index holds the greater side *)
    assert (Hinst : applyTo appl (term (data qr)) = trm).
    { apply Hinstance; [done|]. intros Hv. unfold sortMatch in Hsort.
      by rewrite Hv in Hsort. }
    assert (Hlr : isGreater ordering (term (data qr)) rhs = true).
    { subst argOrder. unfold isPreordered in Hpre.
      unfold nthArgument in Hless, Hgreater.
      destruct (getOtherEqualitySide_Some _ _ _ Hside) as [Ha | [Ha Hne]];
        destruct (Hcached _ _ _ Ha) as [Hgt Hlt];
        rewrite Ha in Hless, Hgreater; simpl in Hless, Hgreater;
        destruct (getEqualityArgumentOrder ordering (literal (data qr)));
        simpl in Hpre; try done.
      - by apply Hgt.
      - specialize (Hless eq_refl). injection Hless as Hless.
        specialize (Hlt eq_refl). rewrite <- Hless in Hlt |- *. exact Hlt.
      - specialize (Hgreater eq_refl). by injection Hgreater as Hgreater.
      - by apply Hlt. }
    rewrite <- Hinst at 1. simpl. by apply Hstable.
  - intros Hnp. destruct Hprem as [Hpre | [_ Hg]]; [congruence|done].
  - intros Hpo. destruct Hprem as [Hpre | [Hf _]]; [done|congruence].
Qed.

(** C2: when [perform] returns true, exactly one hit has been applied; it
    is the last event of the call, every hit looked at before it was
    skipped, and [premises] yields the clause of that hit alone (a unit
    clause, by the assertion of line 128).  The term put in place of the
    subterm [trm] of [lit] is the other side [rhs] of the equality of the
    hit under the substitution of the hit, followed by the sort matcher
    when the indexed side is a variable.  When the rewritten literal
    [resLit] is not an equality tautology, [replacement] is the clause
    made of [resLit] followed by the literals of [cl] other than [lit], in
    their order, and its inference is [FORWARD_DEMODULATION] with parents
    [cl] and the equality clause.  In the release build this needs what
    the assertions of the debug build check: that [cl] holds no literal
    twice (line 223) and that a hit holds a side of its equality. *)
Theorem perform_replacement_clause b cl replacement premises st r p st' :
  performIn b cl replacement premises st = Returned true r p st' →
  (VDEBUG b = true ∨
   (NoDup (literals cl) ∧
    ∀ trm qr,
      qr ∈ getGeneralizations _index trm true →
      is_Some (getOtherEqualitySide (literal (data qr)) (term (data qr))))) →
  ∃ skipped lit trm qr rhs vSubst,
    let rhsS :=
      if isVar (term (data qr))
      then RobSubstitution_apply vSubst
             (applyToBoundResult (unifier qr) rhs) 0
      else applyToBoundResult (unifier qr) rhs in
    let resLit := replace lit trm rhsS in
    trace st' = skipped ++ [EvRewrite lit trm qr rhsS resLit] ∧
    noRewrite skipped ∧
    lit ∈ literals cl ∧ subtermOfLit lit trm ∧
    qr ∈ getGeneralizations _index trm true ∧
    getOtherEqualitySide (literal (data qr)) (term (data qr)) = Some rhs ∧
    (isVar (term (data qr)) = true →
     RobSubstitution_match
       (getEqualityArgumentSort sig (literal (data qr)))
       (getResultSort sig trm) = Some vSubst) ∧
    p = [clause (data qr)] ∧
    (VDEBUG b = true → length_ (clause (data qr)) = 1) ∧
    (isEqTautology resLit = false →
     ∃ pre post,
       literals cl = pre ++ lit :: post ∧ (lit ∉ pre) ∧ (lit ∉ post) ∧
       r = Some (mkClause (resLit :: pre ++ post)
                   (SimplifyingInference2 FORWARD_DEMODULATION cl
                      (clause (data qr))))).
Proof.
  intros Hp Hpre.
  pose proof (performIn_shape b cl replacement premises st) as Hshape.
  rewrite Hp in Hshape. simpl in Hshape.
  destruct Hshape as
    (lit & trm & qr & rc & st0 & vSubst & rhs & Hr & Hqr & Hno & Happ).
  destruct Hr as (Hlit & _ & Hsub).
  destruct Happ as (_ & Hsort & Hother & Hass & _ & _ & st1 & Et & Hend).
  assert (Hside :
    getOtherEqualitySide (literal (data qr)) (term (data qr)) = Some rhs).
  { destruct Hpre as [Hd | [_ Hsides]].
    - by apply (otherSideIn_checked b).
    - destruct (Hsides trm qr Hqr) as [rhs' Hs]. rewrite Hs. f_equal.
      symmetry. by eapply otherSideIn_Some. }
  exists (trace st0), lit, trm, qr, rhs, vSubst. cbv zeta.
  change (if isVar (term (data qr))
          then RobSubstitution_apply vSubst
                 (applyToBoundResult (unifier qr) rhs) 0
          else applyToBoundResult (unifier qr) rhs)
    with (instantiateRhs (term (data qr)) rhs (unifier qr) vSubst).
  set (rhsS := instantiateRhs (term (data qr)) rhs (unifier qr) vSubst) in *.
  set (resLit := replace lit trm rhsS) in *.
  assert (Hvar : isVar (term (data qr)) = true →
    RobSubstitution_match
      (getEqualityArgumentSort sig (literal (data qr)))
      (getResultSort sig trm) = Some vSubst).
  { intros Hv. unfold sortMatch in Hsort. by rewrite Hv in Hsort. }
  assert (Hunit : VDEBUG b = true → length_ (clause (data qr)) = 1).
  { intros Hd. by destruct (Hass Hd). }
  destruct Hend as [[Htaut [= -> -> ->]] | (Hnt & Hlen & [= -> -> ->])].
  - split_and!; try done. intros Hf. congruence.
  - split_and!; try done. intros _.
    assert (Hlen' : length (copyOthers lit (literals cl) [resLit])
                    = length (literals cl)).
    { destruct Hpre as [Hd | [Hnd _]]; [by apply Hlen|].
      by apply copyOthers_NoDup. }
    destruct (copyOthers_exactly lit (literals cl) _ Hlit Hlen')
      as (pre & post & E & Hpre' & Hpost & Ec).
    exists pre, post. split_and!; try done.
    unfold length_. rewrite Hlen', Nat.sub_diag. cbn [replicate].
    by rewrite app_nil_r, Ec.
Qed.

(** C3: when the literal obtained by the replacement is an equality
    tautology, [perform] returns true, [premises] yields the unit
    equality clause of the hit alone, and [replacement] holds what it held
    at the call: no clause is assigned to it. *)
Theorem perform_equality_tautology
    cl replacement premises st lit trm qr rhsS resLit :
  EvRewrite lit trm qr rhsS resLit
    ∈ outcomeTrace (perform cl replacement premises st) →
  isEqTautology resLit = true →
  resLit = replace lit trm rhsS ∧
  length_ (clause (data qr)) = 1 ∧
  ∃ st',
    perform cl replacement premises st
    = Returned true replacement [clause (data qr)] st'.
Proof.
  intros Hin Htaut.
  pose proof (perform_shape cl replacement premises st) as Hshape.
  destruct (perform cl replacement premises st) as [[|] r p st'|st'|];
    simpl in Hin, Hshape; try done.
  2:{ destruct Hshape as (_ & _ & Hno). unfold noRewrite in Hno.
      rewrite Forall_forall in Hno. by apply Hno in Hin. }
  2:{ unfold noRewrite in Hshape. rewrite Forall_forall in Hshape.
      by apply Hshape in Hin. }
  destruct Hshape as
    (lit0 & trm0 & qr0 & rc & st0 & vSubst & rhs & Hr & Hqr & Hno & Hacc & Hend).
  destruct Hacc as (Hunit & _).
  destruct Hend as (st1 & Et & [[Ht [= -> -> ->]] | (Hnt & Hlen & [= -> -> ->])]);
    rewrite Et in Hin; apply rewrite_is_last in Hin; try done;
    injection Hin as -> -> -> <- <-.
  - split_and!; try done. by eexists.
  - congruence.
Qed.

(** C4: in one call every term is queried against the index at most once,
    and only non-variable non-type subterms of non-answer literals of [cl]
    are queried; a term found in [attempted] is passed over without a
    query together with the subterms the iterator had pushed for it, and
    an answer literal is passed over as a whole.  The call always ends. *)
Theorem perform_queries_each_subterm_once cl replacement premises st :
  let o := perform cl replacement premises st in
  o ≠ OutOfFuel ∧
  NoDup (queried (outcomeTrace o)) ∧
  (∀ lit trm,
     EvQuery lit trm ∈ outcomeTrace o →
     lit ∈ literals cl ∧ isAnswerLiteral sig lit = false ∧
     isVar trm = false ∧ subtermOfLit lit trm) ∧
  (∀ fuel lit it s trm rest,
     _stack it = trm :: rest → trm ∈ attempted s →
     termLoop (S fuel) cl replacement premises lit it s
     = termLoop fuel cl replacement premises lit (mkIt rest 0) s) ∧
  (∀ lit lits s,
     isAnswerLiteral sig lit = true →
     litLoop cl replacement premises (lit :: lits) s
     = litLoop cl replacement premises lits s).
Proof.
  intros o. destruct (perform_queries cl replacement premises st) as [Hnd Hev].
  split_and!.
  - apply perform_total.
  - done.
  - intros lit trm Hin. destruct (Hev lit trm Hin) as (? & ? & Hs).
    split_and!; try done. by eapply subtermOfLit_nonvar.
  - intros fuel lit it s trm rest Hs Hin. by apply termLoop_skip with trm.
  - intros lit lits s Ha. by apply litLoop_answer.
Qed.

(** C8: a hit that fails one of the four checks is left with [continue]:
    the loop goes on with the next hit, with [redundancyCheck], the
    [attempted] set and the statistics as they were.  A call in which no
    hit is applied returns false with [replacement] and [premises] as they
    were at the call (or stops at an assertion of the debug build); and
    when every hit of every term reached fails a check, the call returns
    false.  The clause [cl] is a value the function only reads. *)
Theorem perform_failed_hits cl replacement premises :
  (∀ lit trm rc st qr git why,
     fails cl lit trm rc st qr why →
     ∃ st',
       hitBody cl replacement premises lit trm rc st qr = Next (rc, st') ∧
       hitLoop cl replacement premises lit trm rc st (qr :: git)
       = hitLoop cl replacement premises lit trm rc st' git ∧
       attempted st' = attempted st ∧ statistics st' = statistics st ∧
       trace st' = trace st ++ [EvSkip lit trm qr why]) ∧
  (∀ lit trm rc st qr x,
     hitBody cl replacement premises lit trm rc st qr = Next x →
     ∃ why, fails cl lit trm rc st qr why) ∧
  (∀ st,
     noRewrite (outcomeTrace (perform cl replacement premises st)) →
     (∃ st', perform cl replacement premises st
             = Returned false replacement premises st') ∨
     (∃ st', perform cl replacement premises st = AssertionViolation st')) ∧
  (∀ st,
     (∀ lit trm rc s qr,
        lit ∈ literals cl → qr ∈ getGeneralizations _index trm true →
        ∃ why, fails cl lit trm rc s qr why) →
     ∃ st', perform cl replacement premises st
            = Returned false replacement premises st').
Proof.
  split_and!.
  - intros lit trm rc st qr git why Hf.
    destruct (hitBody_fails cl replacement premises _ _ _ _ _ _ Hf)
      as (vSubst & Hb).
    eexists. split; [exact Hb|]. simpl. by rewrite Hb.
  - intros lit trm rc st qr [rc' st'] Hb.
    apply hitBody_Next_fails in Hb as (why & ? & _). by exists why.
  - intros st Hno.
    pose proof (perform_shape cl replacement premises st) as Hshape.
    destruct (perform cl replacement premises st) as [[|] r p st'|st'|];
      simpl in Hno, Hshape; try done.
    + destruct Hshape as
        (lit & trm & qr & rc & st0 & vSubst & rhs & _ & _ & _ & _ & Hend).
      destruct Hend as (st1 & Et & Hcase).
      assert (Est : st' = st1).
      { by destruct Hcase as [[_ [= _ _ ->]] | (_ & _ & [= _ _ ->])]. }
      subst st1. unfold noRewrite in Hno. rewrite Et in Hno.
      rewrite Forall_app, Forall_singleton in Hno. by destruct Hno.
    + destruct Hshape as (-> & -> & _). left. by eexists.
    + right. by eexists.
  - intros st Hall.
    apply (perform_rule cl replacement premises (λ _, True)
      (λ o, ∃ st', o = Returned false replacement premises st')); try done.
    + intros lit trm rc s qr o (Hlit & _) _ Hqr _ Hb.
      destruct (Hall lit trm rc s qr Hlit Hqr) as (why & Hf).
      destruct (hitBody_fails cl replacement premises _ _ _ _ _ _ Hf)
        as (vSubst & Hb').
      congruence.
    + intros s _. by eexists.
Qed.

(** ** What a call leaves in the statics and the statistics *)

Lemma hitBody_forget v cl replacement premises lit trm rc st st' qr :
  forget v st = forget v st' →
  forgetHit v (hitBody cl replacement premises lit trm rc st qr)
  = forgetHit v (hitBody cl replacement premises lit trm rc st' qr).
Proof.
  destruct st as [att sub stats tr], st' as [att' sub' stats' tr'].
  unfold forget. simpl. intros [= <- <- <-].
  unfold hitBody, sortMatch, chooseApplicator, instantiateRhs, Applicator.
  cbv zeta. simpl attempted. simpl subst. simpl statistics. simpl trace.
  destruct (negb (length_ (clause (data qr)) =? 1)); [done|].
  destruct (negb (compatible _ _)); [done|].
  destruct (isVar (term (data qr))) eqn:Hv.
  - destruct (RobSubstitution_match _ _) as [vSubst|]; [|done].
    destruct (getOtherEqualitySide _ _) as [rhs|]; [|done].
    destruct (negb (orientationAsserted _ _ _)); [done|].
    destruct (negb (isIdentityOnQueryWhenResultBound _)); [done|].
    destruct (negb (isPreordered _) && _); [done|].
    destruct (encompassingStep lit trm rc && _); [done|].
    destruct (isEqTautology _); [done|].
    by destruct (negb (_ =? length_ cl)).
  - destruct (getOtherEqualitySide _ _) as [rhs|]; [|done].
    destruct (negb (orientationAsserted _ _ _)); [done|].
    destruct (negb (isIdentityOnQueryWhenResultBound _)); [done|].
    destruct (negb (isPreordered _) && _); [done|].
    destruct (encompassingStep lit trm rc && _); [done|].
    destruct (isEqTautology _); [done|].
    by destruct (negb (_ =? length_ cl)).
Qed.

Lemma hitLoop_forget v cl replacement premises lit trm git :
  ∀ rc st st', forget v st = forget v st' →
  forgetStep v (hitLoop cl replacement premises lit trm rc st git)
  = forgetStep v (hitLoop cl replacement premises lit trm rc st' git).
Proof.
  induction git as [|qr git IH]; intros rc st st' Hst; simpl.
  { by rewrite Hst. }
  pose proof (hitBody_forget v cl replacement premises lit trm rc st st' qr
                Hst) as Hb.
  destruct (hitBody cl replacement premises lit trm rc st qr)
    as [[rc1 st1]|o1],
    (hitBody cl replacement premises lit trm rc st' qr)
    as [[rc2 st2]|o2]; simpl in Hb; [|done|done|simpl; congruence].
  assert (rc1 = rc2) as -> by congruence. apply IH. congruence.
Qed.

Lemma termLoop_forget v cl replacement premises lit fuel :
  ∀ it st st', forget v st = forget v st' →
  forgetStep v (termLoop fuel cl replacement premises lit it st)
  = forgetStep v (termLoop fuel cl replacement premises lit it st').
Proof.
  induction fuel as [|fuel IH]; intros it st st' Hst; simpl.
  { destruct (It_next sig it) as [[trm it']|]; [done|]. simpl.
    by rewrite Hst. }
  destruct (It_next sig it) as [[trm it']|]; [|simpl; by rewrite Hst].
  assert (Ha : attempted st = attempted st') by by injection Hst.
  rewrite <- Ha.
  destruct (DHSet_insert trm (attempted st)) as [fresh attempted'].
  destruct fresh; simpl; [|by apply IH].
  pose proof (hitLoop_forget v cl replacement premises lit trm
    (getGeneralizations _index trm true)
    (redundancyCheckNeededForPremise _helper cl lit trm)
    (mkPerformState attempted' (subst st) (statistics st)
                    (trace st ++ [EvQuery lit trm]))
    (mkPerformState attempted' (subst st') (statistics st')
                    (trace st' ++ [EvQuery lit trm]))) as Hh.
  destruct (hitLoop _ _ _ _ _ _
              (mkPerformState attempted' (subst st) _ _) _) as [s1|o1],
    (hitLoop _ _ _ _ _ _
              (mkPerformState attempted' (subst st') _ _) _) as [s2|o2];
    simpl in Hh.
  - apply IH. specialize (Hh ltac:(unfold forget in *; simpl; congruence)).
    congruence.
  - specialize (Hh ltac:(unfold forget in *; simpl; congruence)). done.
  - specialize (Hh ltac:(unfold forget in *; simpl; congruence)). done.
  - specialize (Hh ltac:(unfold forget in *; simpl; congruence)).
    simpl. congruence.
Qed.

Lemma litLoop_forget v cl replacement premises lits :
  ∀ st st', forget v st = forget v st' →
  forgetStep v (litLoop cl replacement premises lits st)
  = forgetStep v (litLoop cl replacement premises lits st').
Proof.
  induction lits as [|lit lits IH]; intros st st' Hst; simpl.
  { by rewrite Hst. }
  destruct (isAnswerLiteral sig lit); [by apply IH|].
  pose proof (termLoop_forget v cl replacement premises lit
    (iterations (NonVariableNonTypeIterator_new sig lit))
    (NonVariableNonTypeIterator_new sig lit) st st' Hst) as Ht.
  destruct (termLoop _ _ _ _ _ _ st) as [s1|o1],
    (termLoop _ _ _ _ _ _ st') as [s2|o2]; simpl in Ht;
    [apply IH; congruence|done|done|simpl; congruence].
Qed.

Lemma hitBody_Leave_state cl replacement premises lit trm rc st qr o :
  hitBody cl replacement premises lit trm rc st qr = Leave o →
  o = AssertionViolation st ∨
  ∃ r st' ev,
    o = Returned true r [clause (data qr)] st' ∧
    attempted st' = attempted st ∧
    trace st' = trace st ++ [ev] ∧ isRewrite ev = true ∧
    ((r = replacement ∧ statistics st' = count EqTaut (statistics st)) ∨
     ((∃ res, r = Some res ∧ inference res
                = SimplifyingInference2 FORWARD_DEMODULATION cl
                    (clause (data qr))) ∧
      statistics st' = count Rewritten (statistics st))).
Proof.
  unfold hitBody. intros Hb.
  destruct (negb (length_ (clause (data qr)) =? 1));
    [left; congruence|].
  destruct (negb (compatible _ _)); [done|].
  destruct (sortMatch st trm (term (data qr)) qr) as [vSubst|]; [|done].
  destruct (getOtherEqualitySide _ _) as [rhs|]; [|left; congruence].
  destruct (negb (orientationAsserted _ _ _)); [left; congruence|].
  destruct (negb (isIdentityOnQueryWhenResultBound _)); [left; congruence|].
  destruct (negb (isPreordered _) && _); [done|].
  destruct (encompassingStep lit trm rc && _); [done|].
  destruct (isEqTautology _).
  - injection Hb as <-. right. eexists _, _, _.
    split_and!; [reflexivity|done|done|done|by left].
  - destruct (negb (_ =? length_ cl)); [left; congruence|].
    injection Hb as <-. right. eexists _, _, _.
    split_and!; [reflexivity|done|done|done|right].
    split; [|done]. by eexists.
Qed.

(** X14: what a call leaves behind.  However the call ends, [attempted]
    holds exactly the terms queried in this call (the newest first) and
    nothing of an earlier call.  The statistics change only at a
    [return true]: the call that found an equality tautology has
    incremented [forwardDemodulationsToEqTaut] and left [replacement] as
    it was, the call that built a clause has incremented
    [forwardDemodulations] and assigned a clause whose inference is
    [FORWARD_DEMODULATION] from [cl] and the premise; the other counter is
    untouched. *)
Theorem perform_leaves cl replacement premises st :
  match perform cl replacement premises st with
  | Returned ret r p st' =>
      attempted st' = rev (queried (trace st')) ∧
      ((ret = false ∧ statistics st' = statistics st) ∨
       (ret = true ∧ r = replacement ∧
        statistics st' = count EqTaut (statistics st)) ∨
       (ret = true ∧
        (∃ res prem, r = Some res ∧ p = [prem] ∧
           inference res = SimplifyingInference2 FORWARD_DEMODULATION cl prem) ∧
        statistics st' = count Rewritten (statistics st)))
  | AssertionViolation st' =>
      attempted st' = rev (queried (trace st')) ∧
      statistics st' = statistics st
  | OutOfFuel => False
  end.
Proof.
  set (Inv := λ s : PerformState,
    attempted s = rev (queried (trace s)) ∧ statistics s = statistics st).
  apply (perform_rule cl replacement premises Inv
    (λ o, match o with
          | Returned ret r p st' =>
              attempted st' = rev (queried (trace st')) ∧
              ((ret = false ∧ statistics st' = statistics st) ∨
               (ret = true ∧ r = replacement ∧
                statistics st' = count EqTaut (statistics st)) ∨
               (ret = true ∧
                (∃ res prem, r = Some res ∧ p = [prem] ∧
                   inference res
                   = SimplifyingInference2 FORWARD_DEMODULATION cl prem) ∧
                statistics st' = count Rewritten (statistics st)))
          | AssertionViolation st' =>
              attempted st' = rev (queried (trace st')) ∧
              statistics st' = statistics st
          | OutOfFuel => False
          end)).
  - intros lit trm s _ _ [Ha Hs]. unfold Inv. simpl.
    rewrite queried_snoc, rev_app_distr. simpl. by rewrite Ha.
  - intros lit trm rc s qr rc' s' _ _ _ [Ha Hs] Hb.
    apply hitBody_Next in Hb as (_ & Ea & Es & why & Et). unfold Inv.
    rewrite Ea, Es, Et, queried_snoc, app_nil_r. done.
  - intros lit trm rc s qr o _ _ _ [Ha Hs] Hb.
    apply hitBody_Leave_state in Hb
      as [-> | (r & st' & ev & -> & Ea & Et & Hev & Hcase)]; [done|].
    assert (Hq : queried (trace st') = queried (trace s)).
    { rewrite Et, queried_snoc. destruct ev; try done. by rewrite app_nil_r. }
    rewrite Ea, Hq. split; [done|]. right.
    destruct Hcase as [[-> Hst] | [(res & -> & Hinf) Hst]].
    + left. by rewrite Hst, Hs.
    + right. rewrite Hst, Hs. split_and!; [done| |done].
      by exists res, (clause (data qr)).
  - intros s [Ha Hs]. split; [done|]. by left.
  - done.
Qed.

(** X15: a call depends on nothing the statics hold at its entry.
    Whatever [attempted] and [subst] hold when [perform] is called, the
    call ends in the same way, with the same result, [replacement],
    [premises], events, [attempted] set and statistics: [attempted] is
    reset on line 101, and [subst] is read only after the [reset] and
    [match] of lines 145-148. *)
Theorem perform_ignores_statics cl replacement premises st att sub tr v :
  forgetO v (perform cl replacement premises st)
  = forgetO v (perform cl replacement premises
                 (mkPerformState att sub (statistics st) tr)).
Proof.
  unfold perform, DHSet_reset.
  pose proof (litLoop_forget v cl replacement premises (literals cl)
    (mkPerformState [] (subst st) (statistics st) [])
    (mkPerformState [] sub (statistics st) []) eq_refl) as Hl.
  simpl subst. simpl statistics.
  destruct (litLoop _ _ _ _ (mkPerformState [] (subst st) _ _)) as [s1|o1],
    (litLoop _ _ _ _ (mkPerformState [] sub _ _)) as [s2|o2];
    simpl in Hl; [simpl; congruence|done|done|congruence].
Qed.

(** X16: a clause without literals, or with answer literals only, is left
    alone: no term is queried, the call returns false with [replacement],
    [premises] and the statistics as they were, and [attempted] is
    empty. *)
Theorem perform_answer_literals_only cl replacement premises st :
  Forall (λ lit, isAnswerLiteral sig lit = true) (literals cl) →
  perform cl replacement premises st
  = Returned false replacement premises
      (mkPerformState [] (subst st) (statistics st) []).
Proof.
  intros Hall. unfold perform, DHSet_reset.
  generalize (mkPerformState [] (subst st) (statistics st) []).
  induction Hall as [|lit lits Hlit _ IH]; intros s; simpl; [done|].
  rewrite Hlit. apply IH.
Qed.

(** X17: the applicator of lines 56-69 applied to a term is the
    substitution of the hit applied to the term, followed by the sort
    matcher when [applyVSubst] is set; so the instance of [rhs] the
    ordering is asked about on line 174 is the term lines 196-199 put
    into the clause. *)
Theorem Applicator_applies (applyVSubst : bool) (subs : ResultSubstitution)
    (vSubst : RobSubstitution) (lhs t : TermList) :
  applyTo (Applicator applyVSubst subs vSubst) t
  = (if applyVSubst
     then RobSubstitution_apply vSubst (applyToBoundResult subs t) 0
     else applyToBoundResult subs t) ∧
  AppliedTerm t (Some (chooseApplicator lhs subs vSubst))
  = instantiateRhs lhs t subs vSubst.
Proof.
  split.
  - unfold Applicator, applyToBoundResult, applyToBoundResult_var,
      RobSubstitution_apply.
    destruct applyVSubst; [|done]. symmetry. apply applyTo_compose.
  - unfold instantiateRhs, chooseApplicator, AppliedTerm, Applicator,
      applyToBoundResult, applyToBoundResult_var, RobSubstitution_apply.
    destruct (isVar lhs); [|done]. symmetry. apply applyTo_compose.
Qed.

End Perform.

End Inferences.

(* ===================================================================== *)
(** * Inferences/ForwardDemodulation.cpp: [attach] and [detach]           *)
(* ===================================================================== *)

Module ForwardDemodulation.
Import Kernel Indexing Inferences.

(** [Options::Demodulation] and [Options::DemodulationRedundancyCheck],
    the two options [attach] reads. *)
Inductive Demodulation : Type := DEMOD_OFF | PREORDERED | DEMOD_ALL.
Inductive DemodulationRedundancyCheck : Type := CHECK_OFF | ENCOMPASS | CHECK_ON.

#[global] Instance Demodulation_eq_dec : EqDecision Demodulation.
Proof. solve_decision. Defined.
#[global] Instance DemodulationRedundancyCheck_eq_dec :
  EqDecision DemodulationRedundancyCheck.
Proof. solve_decision. Defined.

Record Options : Type := mkOptions {
  forwardDemodulation : Demodulation;
  demodulationRedundancyCheck : DemodulationRedundancyCheck
}.

Section Engine.
(** The index objects and their construction are not among the sources. *)
Variable Index : Type.
Variable createIndex : IndexType → Index.
Variable newDemodulationHelper : Options → Ordering → DemodulationHelper.

(** ** IndexManager *)

(** Modelled from the spec: [Indexing/IndexManager.hpp] is not among the
    sources.  The manager maps an index kind to the index instance and its
    reference count.  [request(kind)] returns the (lazily constructed,
    shared) index of that kind and increments its count; [release(kind)]
    decrements it and destroys the index on zero.  [calls] records the
    requests and releases made, in order. *)
Record Entry : Type := mkEntry { index : Index; refCnt : nat }.

Inductive Call : Type :=
  | Request (kind : IndexType)
  | Release (kind : IndexType).

#[global] Instance Call_eq_dec : EqDecision Call.
Proof. solve_decision. Defined.

Record IndexManager : Type := mkIndexManager {
  _store : gmap IndexType Entry;
  calls : list Call
}.

Definition request (kind : IndexType) (im : IndexManager)
  : Index * IndexManager :=
  let e' :=
    match _store im !! kind with
    | Some e => mkEntry (index e) (S (refCnt e))
    | None => mkEntry (createIndex kind) 1
    end in
  (index e', mkIndexManager (<[kind := e']> (_store im))
                            (calls im ++ [Request kind])).

Definition release (kind : IndexType) (im : IndexManager) : IndexManager :=
  let store' :=
    match _store im !! kind with
    | Some e =>
        match refCnt e with
        | S (S n) => <[kind := mkEntry (index e) (S n)]> (_store im)
        | _ => delete kind (_store im)
        end
    | None => _store im
    end in
  mkIndexManager store' (calls im ++ [Release kind]).

(** The reference count of a kind (0 when there is no index of it). *)
Definition refCount (kind : IndexType) (im : IndexManager) : nat :=
  match _store im !! kind with
  | Some e => refCnt e
  | None => 0
  end.

(** ** The objects *)

(** [class SaturationAlgorithm] of [Saturation/SaturationAlgorithm.hpp]:
    the member [_imgr] that [getIndexManager()] returns, and what
    [getOptions()] and [getOrdering()] return. *)
Record SaturationAlgorithm : Type := mkSaturationAlgorithm {
  _imgr : IndexManager;
  options : Options;
  ordering : Ordering
}.

(** Objects are reached through pointers: the heap maps an address to the
    [SaturationAlgorithm] stored there. *)
Definition Heap : Type := gmap nat SaturationAlgorithm.

(** [class ForwardDemodulation]: [_salg] (of the base class; a null
    pointer is [None]), [_index], the two flags and [_helper]. *)
Record ForwardDemodulation : Type := mkForwardDemodulation {
  _salg : option nat;
  _index : option Index;
  _preorderedOnly : bool;
  _encompassing : bool;
  _helper : option DemodulationHelper
}.

(** [ForwardSimplificationEngine::attach] and [detach] of the base class
    (not among the sources): they set and clear [_salg]. *)
Definition base_attach (salg : nat) (fd : ForwardDemodulation)
  : ForwardDemodulation :=
  mkForwardDemodulation (Some salg) (_index fd) (_preorderedOnly fd)
                        (_encompassing fd) (_helper fd).

Definition base_detach (fd : ForwardDemodulation) : ForwardDemodulation :=
  mkForwardDemodulation None (_index fd) (_preorderedOnly fd)
                        (_encompassing fd) (_helper fd).

(** [ForwardDemodulation::attach], lines 71-80.  The result is [None] when
    [salg] points to no object. *)
Definition attach (salg : nat) (fd : ForwardDemodulation) (h : Heap)
  : option (ForwardDemodulation * Heap) :=
  (* 73 *)
  let fd := base_attach salg fd in
  match _salg fd with
  | None => None
  | Some ptr =>
      match h !! ptr with
      | None => None
      | Some s =>
          (* 74-75 *)
          let '(idx, imgr') := request DEMODULATION_LHS_CODE_TREE (_imgr s) in
          let s' := mkSaturationAlgorithm imgr' (options s) (ordering s) in
          (* 77-79 *)
          let preorderedOnly :=
            bool_decide (forwardDemodulation (options s') = PREORDERED) in
          let encompassing :=
            bool_decide (demodulationRedundancyCheck (options s') = ENCOMPASS) in
          let helper := newDemodulationHelper (options s') (ordering s') in
          Some (mkForwardDemodulation (_salg fd) (Some idx) preorderedOnly
                  encompassing (Some helper),
                <[ptr := s']> h)
      end
  end.

(** [ForwardDemodulation::detach], lines 82-87.  The result is [None] when
    [_salg] is null or points to no object. *)
Definition detach (fd : ForwardDemodulation) (h : Heap)
  : option (ForwardDemodulation * Heap) :=
  (* 84 *)
  let fd :=
    mkForwardDemodulation (_salg fd) None (_preorderedOnly fd)
                          (_encompassing fd) (_helper fd) in
  (* 85 *)
  match _salg fd with
  | None => None
  | Some ptr =>
      match h !! ptr with
      | None => None
      | Some s =>
          let imgr' := release DEMODULATION_LHS_CODE_TREE (_imgr s) in
          let s' := mkSaturationAlgorithm imgr' (options s) (ordering s) in
          (* 86 *)
          Some (base_detach fd, <[ptr := s']> h)
      end
  end.

(** ** Properties *)

Lemma refCount_request_release kind im :
  refCount kind (release kind (snd (request kind im))) = refCount kind im.
Proof.
  unfold refCount, release, request. cbv zeta. cbn [snd _store].
  rewrite lookup_insert_eq.
  destruct (_store im !! kind) as [e|] eqn:E; cbn [refCnt index].
  - destruct (refCnt e) as [|n]; cbn [_store].
    + by rewrite lookup_delete_eq.
    + by rewrite lookup_insert_eq.
  - cbn [_store]. by rewrite lookup_delete_eq.
Qed.

(** C5: over the attached lifetime of the engine the one request is
    paired with one release.  [attach] makes exactly one call of the index
    manager, [request(DEMODULATION_LHS_CODE_TREE)], and stores the index it
    returns; [detach] makes exactly one call, [release] of the same kind,
    and clears [_index]; afterwards the reference count of the kind is what
    it was before [attach]. *)
Theorem attach_detach_paired (salg : nat) (fd : ForwardDemodulation)
    (h : Heap) (s : SaturationAlgorithm) :
  h !! salg = Some s →
  ∃ fd1 h1 s1 fd2 h2 s2,
    attach salg fd h = Some (fd1, h1) ∧ h1 !! salg = Some s1 ∧
    calls (_imgr s1)
    = calls (_imgr s) ++ [Request DEMODULATION_LHS_CODE_TREE] ∧
    _index fd1
    = Some (fst (request DEMODULATION_LHS_CODE_TREE (_imgr s))) ∧
    _salg fd1 = Some salg ∧
    detach fd1 h1 = Some (fd2, h2) ∧ h2 !! salg = Some s2 ∧
    calls (_imgr s2)
    = calls (_imgr s1) ++ [Release DEMODULATION_LHS_CODE_TREE] ∧
    _index fd2 = None ∧ _salg fd2 = None ∧
    refCount DEMODULATION_LHS_CODE_TREE (_imgr s1)
    = S (refCount DEMODULATION_LHS_CODE_TREE (_imgr s)) ∧
    refCount DEMODULATION_LHS_CODE_TREE (_imgr s2)
    = refCount DEMODULATION_LHS_CODE_TREE (_imgr s).
Proof.
  intros Hs.
  set (K := DEMODULATION_LHS_CODE_TREE).
  set (r := request K (_imgr s)).
  set (s1 := mkSaturationAlgorithm (snd r) (options s) (ordering s)).
  set (s2 := mkSaturationAlgorithm (release K (snd r)) (options s) (ordering s)).
  set (fd1 := mkForwardDemodulation (Some salg) (Some (fst r))
                (bool_decide (forwardDemodulation (options s) = PREORDERED))
                (bool_decide (demodulationRedundancyCheck (options s) = ENCOMPASS))
                (Some (newDemodulationHelper (options s) (ordering s)))).
  exists fd1, (<[salg := s1]> h), s1,
    (mkForwardDemodulation None None (_preorderedOnly fd1) (_encompassing fd1)
       (_helper fd1)),
    (<[salg := s2]> (<[salg := s1]> h)), s2.
  assert (Hl1 : <[salg := s1]> h !! salg = Some s1) by apply lookup_insert_eq.
  split_and!.
  - unfold attach, base_attach. cbn [_salg]. by rewrite Hs.
  - done.
  - done.
  - done.
  - done.
  - unfold detach, base_detach. cbn [_salg fd1]. by rewrite Hl1.
  - apply lookup_insert_eq.
  - done.
  - done.
  - done.
  - unfold s1, r, refCount, request. cbv zeta. cbn [snd _imgr _store].
    rewrite lookup_insert_eq. by destruct (_store (_imgr s) !! K).
  - unfold s2, r. cbn [_imgr]. apply refCount_request_release.
Qed.

(** X21: what [attach] and [detach] do to the engine and to the heap.
    [attach] reads the two options of the algorithm it is attached to:
    [_preorderedOnly] is set exactly when forward demodulation is
    [PREORDERED], [_encompassing] exactly when the redundancy check is
    [ENCOMPASS], and [_helper] is built from the options and the ordering
    of the algorithm; what the engine held before does not matter.  The
    algorithm keeps its options and its ordering, and no other object of
    the heap changes.  [detach] clears [_index] and [_salg] only: the
    flags and the helper stay.  A [detach] without an algorithm (a null
    [_salg]) has no defined result. *)
Theorem attach_configures (salg : nat) (fd fd' : ForwardDemodulation)
    (h : Heap) (s : SaturationAlgorithm) :
  h !! salg = Some s →
  ∃ fd1 h1 s1 fd2 h2,
    attach salg fd h = Some (fd1, h1) ∧
    attach salg fd' h = Some (fd1, h1) ∧
    (_preorderedOnly fd1 = true ↔
     forwardDemodulation (options s) = PREORDERED) ∧
    (_encompassing fd1 = true ↔
     demodulationRedundancyCheck (options s) = ENCOMPASS) ∧
    _helper fd1 = Some (newDemodulationHelper (options s) (ordering s)) ∧
    h1 !! salg = Some s1 ∧ options s1 = options s ∧
    ordering s1 = ordering s ∧
    (∀ q, q ≠ salg → h1 !! q = h !! q) ∧
    detach fd1 h1 = Some (fd2, h2) ∧
    _preorderedOnly fd2 = _preorderedOnly fd1 ∧
    _encompassing fd2 = _encompassing fd1 ∧
    _helper fd2 = _helper fd1 ∧
    (∀ q, q ≠ salg → h2 !! q = h !! q) ∧
    detach fd2 h2 = None.
Proof.
  intros Hs.
  set (K := DEMODULATION_LHS_CODE_TREE).
  set (r := request K (_imgr s)).
  set (s1 := mkSaturationAlgorithm (snd r) (options s) (ordering s)).
  set (s2 := mkSaturationAlgorithm (release K (snd r)) (options s) (ordering s)).
  set (fd1 := mkForwardDemodulation (Some salg) (Some (fst r))
                (bool_decide (forwardDemodulation (options s) = PREORDERED))
                (bool_decide (demodulationRedundancyCheck (options s) = ENCOMPASS))
                (Some (newDemodulationHelper (options s) (ordering s)))).
  exists fd1, (<[salg := s1]> h), s1,
    (mkForwardDemodulation None None (_preorderedOnly fd1) (_encompassing fd1)
       (_helper fd1)),
    (<[salg := s2]> (<[salg := s1]> h)).
  assert (Hl1 : <[salg := s1]> h !! salg = Some s1) by apply lookup_insert_eq.
  split_and!.
  - unfold attach, base_attach. cbn [_salg]. by rewrite Hs.
  - unfold attach, base_attach. cbn [_salg]. by rewrite Hs.
  - apply bool_decide_eq_true.
  - apply bool_decide_eq_true.
  - done.
  - done.
  - done.
  - done.
  - intros q Hq. by apply lookup_insert_ne.
  - unfold detach, base_detach. cbn [_salg fd1]. by rewrite Hl1.
  - done.
  - done.
  - done.
  - intros q Hq. etrans; by apply lookup_insert_ne.
  - done.
Qed.

End Engine.

(** C5, at a fresh saturation algorithm stored at address 0 and an engine
    that was never attached: the indices are numbered by their kind. *)
Lemma attach_detach_paired_witness :
  let s := mkSaturationAlgorithm nat (mkIndexManager nat ∅ [])
             (mkOptions PREORDERED ENCOMPASS)
             (mkOrdering (λ _, INCOMPARABLE) (λ _ _, false)) in
  let fd := mkForwardDemodulation nat None None false false None in
  let mkHelper := λ (_ : Options) (_ : Ordering),
    mkDemodulationHelper (λ _ _ _, false) (λ _ _ _ _ _ _ _, true) in
  ∃ fd1 h1 s1 fd2 h2 s2,
    attach nat (λ _, 7) mkHelper 0 fd {[0 := s]} = Some (fd1, h1) ∧
    h1 !! 0 = Some s1 ∧
    calls nat (_imgr nat s1)
    = calls nat (_imgr nat s) ++ [Request DEMODULATION_LHS_CODE_TREE] ∧
    _index nat fd1
    = Some (fst (request nat (λ _, 7) DEMODULATION_LHS_CODE_TREE
                   (_imgr nat s))) ∧
    _salg nat fd1 = Some 0 ∧
    detach nat fd1 h1 = Some (fd2, h2) ∧ h2 !! 0 = Some s2 ∧
    calls nat (_imgr nat s2)
    = calls nat (_imgr nat s1) ++ [Release DEMODULATION_LHS_CODE_TREE] ∧
    _index nat fd2 = None ∧ _salg nat fd2 = None ∧
    refCount nat DEMODULATION_LHS_CODE_TREE (_imgr nat s1)
    = S (refCount nat DEMODULATION_LHS_CODE_TREE (_imgr nat s)) ∧
    refCount nat DEMODULATION_LHS_CODE_TREE (_imgr nat s2)
    = refCount nat DEMODULATION_LHS_CODE_TREE (_imgr nat s).
Proof.
  intros s fd mkHelper.
  apply (attach_detach_paired nat (λ _, 7) mkHelper 0 fd {[0 := s]} s).
  vm_compute. reflexivity.
Defined.

(** X21, at the same algorithm and two engines, beside an algorithm at
    address 1 that is left alone. *)
Lemma attach_configures_witness :
  let s := mkSaturationAlgorithm nat (mkIndexManager nat ∅ [])
             (mkOptions PREORDERED CHECK_ON)
             (mkOrdering (λ _, INCOMPARABLE) (λ _ _, false)) in
  let t := mkSaturationAlgorithm nat (mkIndexManager nat ∅ [])
             (mkOptions DEMOD_ALL ENCOMPASS)
             (mkOrdering (λ _, INCOMPARABLE) (λ _ _, false)) in
  let fd := mkForwardDemodulation nat None None false false None in
  let fd' := mkForwardDemodulation nat (Some 1) (Some 3) false true None in
  let mkHelper := λ (_ : Options) (_ : Ordering),
    mkDemodulationHelper (λ _ _ _, false) (λ _ _ _ _ _ _ _, true) in
  let h : Heap nat := {[0 := s; 1 := t]} in
  ∃ fd1 h1 s1 fd2 h2,
    attach nat (λ _, 7) mkHelper 0 fd h = Some (fd1, h1) ∧
    attach nat (λ _, 7) mkHelper 0 fd' h = Some (fd1, h1) ∧
    (_preorderedOnly nat fd1 = true ↔
     forwardDemodulation (options nat s) = PREORDERED) ∧
    (_encompassing nat fd1 = true ↔
     demodulationRedundancyCheck (options nat s) = ENCOMPASS) ∧
    _helper nat fd1 = Some (mkHelper (options nat s) (ordering nat s)) ∧
    h1 !! 0 = Some s1 ∧ options nat s1 = options nat s ∧
    ordering nat s1 = ordering nat s ∧
    (∀ q, q ≠ 0 → h1 !! q = h !! q) ∧
    detach nat fd1 h1 = Some (fd2, h2) ∧
    _preorderedOnly nat fd2 = _preorderedOnly nat fd1 ∧
    _encompassing nat fd2 = _encompassing nat fd1 ∧
    _helper nat fd2 = _helper nat fd1 ∧
    (∀ q, q ≠ 0 → h2 !! q = h !! q) ∧
    detach nat fd2 h2 = None.
Proof.
  intros s t fd fd' mkHelper h.
  apply (attach_configures nat (λ _, 7) mkHelper 0 fd fd' h s).
  vm_compute. reflexivity.
Defined.

End ForwardDemodulation.

(* ===================================================================== *)
(** * Kernel/LiteralComparators.hpp                                       *)
(* ===================================================================== *)

Module LiteralComparators.
Import Kernel.

(** [enum Comparison] of [Lib/Comparison.hpp] and [Int::compare] of
    [Lib/Int.hpp] on [unsigned] values (neither is among the sources). *)
Inductive Comparison : Type := LESS | EQUAL | GREATER.

#[global] Instance Comparison_eq_dec : EqDecision Comparison.
Proof. solve_decision. Defined.

Definition Int_compare (i1 i2 : N) : Comparison :=
  if (i1 <? i2)%N then LESS
  else if (i1 =? i2)%N then EQUAL
  else GREATER.

(** The classes of the file have one member function, [compare]; the
    templates [Composite] and [Inverse] ask nothing else of their
    parameters. *)
Class Comparator (Comp : Type) : Type :=
  compare : Comp → Literal → Literal → Comparison.

(** [template<class Comp1, class Comp2> class Composite], lines 23-35. *)
Record Composite (Comp1 Comp2 : Type) : Type := mkComposite {
  _c1 : Comp1;
  _c2 : Comp2
}.
Arguments mkComposite {Comp1 Comp2} _c1 _c2.
Arguments _c1 {Comp1 Comp2} c.
Arguments _c2 {Comp1 Comp2} c.

#[global] Instance Composite_compare {Comp1 Comp2 : Type}
    `{Comparator Comp1} `{Comparator Comp2}
  : Comparator (Composite Comp1 Comp2) :=
  λ c l1 l2,
    let res1 := compare (_c1 c) l1 l2 in
    if bool_decide (res1 = EQUAL) then compare (_c2 c) l1 l2 else res1.

(** [template<class Comp> class Inverse], lines 37-47. *)
Record Inverse (Comp : Type) : Type := mkInverse { _c : Comp }.
Arguments mkInverse {Comp} _c.
Arguments _c {Comp} i.

#[global] Instance Inverse_compare {Comp : Type} `{Comparator Comp}
  : Comparator (Inverse Comp) :=
  λ c l1 l2, compare (_c c) l2 l1.

(** The atomic comparators have no data members. *)
Inductive ColoredFirst : Type := mkColoredFirst.
Inductive NoPositiveEquality : Type := mkNoPositiveEquality.
Inductive Negative : Type := mkNegative.
Inductive NegativeEquality : Type := mkNegativeEquality.
Inductive MaximalSize : Type := mkMaximalSize.
Inductive LeastVariables : Type := mkLeastVariables.
Inductive LeastDistinctVariables : Type := mkLeastDistinctVariables.
Inductive LeastTopLevelVariables : Type := mkLeastTopLevelVariables.

Definition isNegative (l : Literal) : bool := negb (polarity l).

(** The [if]-[else if]-[else] the four flag comparators share: the
    literal that has the flag alone is [only], the other way round it is
    the opposite. *)
Definition byFlag (f1 f2 : bool) (only other : Comparison) : Comparison :=
  if f1 && negb f2 then only
  else if negb f1 && f2 then other
  else EQUAL.

Section Atomic.
(** [Literal::color], [weight], [vars] and [getDistinctVars] are members
    of classes that are not among the sources. *)
Variable color : Literal → Color.
Variable weightOf : Literal → N.
Variable vars : Literal → N.
Variable getDistinctVars : Literal → N.

(** [ColoredFirst], lines 49-61. *)
#[global] Instance ColoredFirst_compare : Comparator ColoredFirst :=
  λ _ l1 l2,
    if bool_decide (color l1 ≠ COLOR_TRANSPARENT)
       && bool_decide (color l2 = COLOR_TRANSPARENT)
    then GREATER
    else if bool_decide (color l1 = COLOR_TRANSPARENT)
            && bool_decide (color l2 ≠ COLOR_TRANSPARENT)
    then LESS
    else EQUAL.

(** [NoPositiveEquality], lines 63-77. *)
#[global] Instance NoPositiveEquality_compare
  : Comparator NoPositiveEquality :=
  λ _ l1 l2,
    let l1PE := isEquality l1 && isPositive l1 in
    let l2PE := isEquality l2 && isPositive l2 in
    byFlag l1PE l2PE LESS GREATER.

(** [Negative], lines 79-93. *)
#[global] Instance Negative_compare : Comparator Negative :=
  λ _ l1 l2,
    let l1N := isNegative l1 in
    let l2N := isNegative l2 in
    byFlag l1N l2N GREATER LESS.

(** [NegativeEquality], lines 95-109. *)
#[global] Instance NegativeEquality_compare : Comparator NegativeEquality :=
  λ _ l1 l2,
    let l1NE := isEquality l1 && isNegative l1 in
    let l2NE := isEquality l2 && isNegative l2 in
    byFlag l1NE l2NE GREATER LESS.

(** [MaximalSize], lines 111-117. *)
#[global] Instance MaximalSize_compare : Comparator MaximalSize :=
  λ _ l1 l2, Int_compare (weightOf l1) (weightOf l2).

(** [LeastVariables], lines 119-125. *)
#[global] Instance LeastVariables_compare : Comparator LeastVariables :=
  λ _ l1 l2, Int_compare (vars l2) (vars l1).

(** [LeastDistinctVariables], lines 127-133. *)
#[global] Instance LeastDistinctVariables_compare
  : Comparator LeastDistinctVariables :=
  λ _ l1 l2, Int_compare (getDistinctVars l2) (getDistinctVars l1).

(** [LeastTopLevelVariables::getTLVarCnt], lines 142-151: the loop over
    the arguments, with the [unsigned] counter. *)
Definition getTLVarCnt (l : Literal) : N :=
  foldl (λ res arg, if isVar arg then ((res + 1) mod 2 ^ 32)%N else res)
        0%N (lit_args l).

(** [LeastTopLevelVariables], lines 135-152. *)
#[global] Instance LeastTopLevelVariables_compare
  : Comparator LeastTopLevelVariables :=
  λ _ l1 l2, Int_compare (getTLVarCnt l2) (getTLVarCnt l1).

(** ** The vocabulary of the statements *)

(** The comparison read from the other side. *)
Definition opposite (c : Comparison) : Comparison :=
  match c with
  | LESS => GREATER
  | EQUAL => EQUAL
  | GREATER => LESS
  end.

(** [c] compares as a total preorder does: swapping the arguments gives
    the opposite answer, and not-greater is transitive. *)
Definition lawful {Comp : Type} `{Comparator Comp} (c : Comp) : Prop :=
  (∀ l1 l2, compare c l2 l1 = opposite (compare c l1 l2)) ∧
  (∀ l1 l2 l3,
     compare c l1 l2 ≠ GREATER → compare c l2 l3 ≠ GREATER →
     compare c l1 l3 ≠ GREATER).

(** ** Properties *)

Lemma Int_compare_opposite i1 i2 :
  Int_compare i2 i1 = opposite (Int_compare i1 i2).
Proof.
  unfold Int_compare.
  destruct (N.ltb_spec i1 i2), (N.ltb_spec i2 i1),
    (N.eqb_spec i1 i2), (N.eqb_spec i2 i1); simpl; try done; lia.
Qed.

Lemma Int_compare_not_GREATER i1 i2 :
  Int_compare i1 i2 ≠ GREATER ↔ (i1 ≤ i2)%N.
Proof.
  unfold Int_compare.
  destruct (N.ltb_spec i1 i2), (N.eqb_spec i1 i2); split; try done; lia.
Qed.

(** A comparator that compares a measure of the literals is lawful. *)
Lemma measure_lawful {Comp : Type} `{Comparator Comp} (c : Comp)
    (m : Literal → N) (down : bool) :
  (∀ l1 l2, compare c l1 l2
            = if down then Int_compare (m l2) (m l1)
              else Int_compare (m l1) (m l2)) →
  lawful c.
Proof.
  intros Hc. split.
  - intros l1 l2. rewrite !Hc. destruct down; apply Int_compare_opposite.
  - intros l1 l2 l3. rewrite !Hc.
    destruct down; rewrite !Int_compare_not_GREATER; lia.
Qed.

(** The rank of a flag under [byFlag]. *)
Definition rank (only : Comparison) (f : bool) : N :=
  match only, f with
  | GREATER, true | LESS, false => 1
  | _, _ => 0
  end.

Lemma byFlag_measure f1 f2 :
  byFlag f1 f2 GREATER LESS = Int_compare (rank GREATER f1) (rank GREATER f2) ∧
  byFlag f1 f2 LESS GREATER = Int_compare (rank LESS f1) (rank LESS f2).
Proof. by destruct f1, f2. Qed.

Lemma ColoredFirst_lawful : lawful mkColoredFirst.
Proof.
  apply (measure_lawful _
    (λ l, if bool_decide (color l = COLOR_TRANSPARENT) then 0 else 1)%N false).
  intros l1 l2. unfold compare, ColoredFirst_compare.
  by destruct (color l1), (color l2).
Qed.

Lemma NoPositiveEquality_lawful : lawful mkNoPositiveEquality.
Proof.
  apply (measure_lawful _
    (λ l, rank LESS (isEquality l && isPositive l)) false).
  intros l1 l2. apply byFlag_measure.
Qed.

Lemma Negative_lawful : lawful mkNegative.
Proof.
  apply (measure_lawful _ (λ l, rank GREATER (isNegative l)) false).
  intros l1 l2. apply byFlag_measure.
Qed.

Lemma NegativeEquality_lawful : lawful mkNegativeEquality.
Proof.
  apply (measure_lawful _
    (λ l, rank GREATER (isEquality l && isNegative l)) false).
  intros l1 l2. apply byFlag_measure.
Qed.

Lemma MaximalSize_lawful : lawful mkMaximalSize.
Proof. by apply (measure_lawful _ weightOf false). Qed.

Lemma LeastVariables_lawful : lawful mkLeastVariables.
Proof. by apply (measure_lawful _ vars true). Qed.

Lemma LeastDistinctVariables_lawful : lawful mkLeastDistinctVariables.
Proof. by apply (measure_lawful _ getDistinctVars true). Qed.

Lemma LeastTopLevelVariables_lawful : lawful mkLeastTopLevelVariables.
Proof. by apply (measure_lawful _ getTLVarCnt true). Qed.

(** X18: each of the eight atomic comparators compares as a total
    preorder does: swapping the two literals gives the opposite answer
    (so a literal is [EQUAL] to itself), and not-greater is transitive. *)
Theorem atomic_comparators_lawful :
  lawful mkColoredFirst ∧ lawful mkNoPositiveEquality ∧
  lawful mkNegative ∧ lawful mkNegativeEquality ∧
  lawful mkMaximalSize ∧ lawful mkLeastVariables ∧
  lawful mkLeastDistinctVariables ∧ lawful mkLeastTopLevelVariables.
Proof.
  split_and!;
    [ apply ColoredFirst_lawful | apply NoPositiveEquality_lawful
    | apply Negative_lawful | apply NegativeEquality_lawful
    | apply MaximalSize_lawful | apply LeastVariables_lawful
    | apply LeastDistinctVariables_lawful
    | apply LeastTopLevelVariables_lawful ].
Qed.

End Atomic.

Lemma lawful_refl {Comp : Type} `{Comparator Comp} (c : Comp) l :
  lawful c → compare c l l = EQUAL.
Proof.
  intros [Hopp _]. specialize (Hopp l l). by destruct (compare c l l).
Qed.

(** In a lawful comparison, [EQUAL] between the ends of a chain of
    not-greater steps makes every step [EQUAL]. *)
Lemma lawful_squeeze {Comp : Type} `{Comparator Comp} (c : Comp) l1 l2 l3 :
  lawful c →
  compare c l1 l2 ≠ GREATER → compare c l2 l3 ≠ GREATER →
  compare c l1 l3 = EQUAL →
  compare c l1 l2 = EQUAL ∧ compare c l2 l3 = EQUAL.
Proof.
  intros [Hopp Htr] H12 H23 H13.
  pose proof (Hopp l1 l3) as H31. rewrite H13 in H31. simpl in H31.
  assert (H21 : compare c l2 l1 ≠ GREATER).
  { apply (Htr l2 l3 l1); [done|]. by rewrite H31. }
  assert (H32 : compare c l3 l2 ≠ GREATER).
  { apply (Htr l3 l1 l2); [|done]. by rewrite H31. }
  rewrite (Hopp l1 l2) in H21. rewrite (Hopp l2 l3) in H32.
  by destruct (compare c l1 l2), (compare c l2 l3).
Qed.

Lemma Composite_compare_eq {Comp1 Comp2 : Type}
    `{Comparator Comp1} `{Comparator Comp2} (c1 : Comp1) (c2 : Comp2) l1 l2 :
  compare (mkComposite c1 c2) l1 l2
  = if bool_decide (compare c1 l1 l2 = EQUAL) then compare c2 l1 l2
    else compare c1 l1 l2.
Proof. reflexivity. Qed.

Lemma Inverse_compare_eq {Comp : Type} `{Comparator Comp} (c : Comp) l1 l2 :
  compare (mkInverse c) l1 l2 = compare c l2 l1.
Proof. reflexivity. Qed.

(** X19: [Composite] and [Inverse] keep the comparators lawful: the
    composite of two lawful comparators is lawful (the second decides
    where the first says [EQUAL]), and so is the inverse of a lawful
    comparator. *)
Theorem Composite_Inverse_lawful {Comp1 Comp2 : Type}
    `{Comparator Comp1} `{Comparator Comp2} (c1 : Comp1) (c2 : Comp2) :
  lawful c1 → lawful c2 →
  lawful (mkComposite c1 c2) ∧ lawful (mkInverse c1).
Proof.
  intros L1 L2. split; split.
  - intros l1 l2. rewrite !Composite_compare_eq.
    destruct L1 as [O1 _], L2 as [O2 _]. rewrite (O1 l1 l2), (O2 l1 l2).
    by destruct (compare c1 l1 l2).
  - intros l1 l2 l3. rewrite !Composite_compare_eq.
    intros H12 H23.
    assert (A12 : compare c1 l1 l2 ≠ GREATER).
    { intros E. rewrite E in H12. by rewrite bool_decide_eq_false_2 in H12. }
    assert (A23 : compare c1 l2 l3 ≠ GREATER).
    { intros E. rewrite E in H23. by rewrite bool_decide_eq_false_2 in H23. }
    destruct (decide (compare c1 l1 l3 = EQUAL)) as [E13|E13].
    + rewrite bool_decide_eq_true_2 by done.
      destruct (lawful_squeeze c1 l1 l2 l3 L1 A12 A23 E13) as [E12 E23].
      rewrite bool_decide_eq_true_2 in H12, H23 by done.
      destruct L2 as [_ T2]. by apply (T2 l1 l2 l3).
    + rewrite bool_decide_eq_false_2 by done.
      destruct L1 as [_ T1]. by apply (T1 l1 l2 l3).
  - intros l1 l2. rewrite !Inverse_compare_eq.
    destruct L1 as [O1 _]. apply O1.
  - intros l1 l2 l3. rewrite !Inverse_compare_eq.
    intros H21 H32. destruct L1 as [_ T1]. by apply (T1 l3 l2 l1).
Qed.

(** X20: how the two templates compose.  [Composite] is associative,
    [Inverse] undoes itself, and the inverse of a composite compares as
    the composite of the inverses. *)
Theorem Composite_Inverse_algebra {Comp1 Comp2 Comp3 : Type}
    `{Comparator Comp1} `{Comparator Comp2} `{Comparator Comp3}
    (c1 : Comp1) (c2 : Comp2) (c3 : Comp3) (l1 l2 : Literal) :
  compare (mkComposite (mkComposite c1 c2) c3) l1 l2
  = compare (mkComposite c1 (mkComposite c2 c3)) l1 l2 ∧
  compare (mkInverse (mkInverse c1)) l1 l2 = compare c1 l1 l2 ∧
  compare (mkInverse (mkComposite c1 c2)) l1 l2
  = compare (mkComposite (mkInverse c1) (mkInverse c2)) l1 l2.
Proof.
  split_and!.
  - rewrite !Composite_compare_eq.
    by destruct (compare c1 l1 l2), (compare c2 l1 l2).
  - by rewrite !Inverse_compare_eq.
  - rewrite Inverse_compare_eq, !Composite_compare_eq.
    by rewrite !Inverse_compare_eq.
Qed.

(** X19, at the comparator
    [Composite<NoPositiveEquality, Inverse<Negative>>]. *)
Lemma Composite_Inverse_lawful_witness :
  lawful (mkComposite mkNoPositiveEquality (mkInverse mkNegative)) ∧
  lawful (mkInverse mkNoPositiveEquality).
Proof.
  apply (Composite_Inverse_lawful mkNoPositiveEquality (mkInverse mkNegative)).
  - apply NoPositiveEquality_lawful.
  - split.
    + intros l1 l2. apply Negative_lawful.
    + intros l1 l2 l3 H21 H32.
      destruct Negative_lawful as [_ T]. by apply (T l3 l2 l1).
Defined.

End LiteralComparators.

(* ===================================================================== *)
(** * Api/Helper_Internal.hpp: the reference counter of [FBHelperCore]    *)
(* ===================================================================== *)

Module Api.

(** How a call can go wrong: a failed [ASS_G] of the debug build, an
    overflow of the [int] counter, a call through a pointer to an object
    that was deleted. *)
Inductive Exn : Type := AssertionViolated | SignedOverflow | DanglingPointer.

Definition Exc (A : Type) : Type := Exn + A.

(** [class FBHelperCore], by the members its constructor sets that are
    not objects of other classes: [nextVar], [refCtr] (an [int]) and
    [_unaryPredicate]. *)
Record FBHelperCore : Type := mkFBHelperCore {
  nextVar : N;
  refCtr : Z;
  _unaryPredicate : N
}.

(** [FBHelperCore::FBHelperCore()], lines 66-68. *)
Definition new : FBHelperCore := mkFBHelperCore 0 0 0.

(** The objects by their address. *)
Abbreviation Heap := (gmap nat FBHelperCore).

Definition INT_MAX : Z := 2 ^ 31 - 1.
Definition INT_MIN : Z := - 2 ^ 31.

Definition setRefCtr (o : FBHelperCore) (n : Z) : FBHelperCore :=
  mkFBHelperCore (nextVar o) n (_unaryPredicate o).

(** [FBHelperCore::incRef], lines 70-75. *)
Definition incRef (this : nat) (h : Heap) : Exc Heap :=
  match h !! this with
  | None => inl DanglingPointer
  | Some o =>
      if (refCtr o =? INT_MAX)%Z then inl SignedOverflow
      else inr (<[this := setRefCtr o (refCtr o + 1)]> h)
  end.

(** [FBHelperCore::decRef], lines 83-92. *)
Definition decRef (this : nat) (h : Heap) : Exc Heap :=
  match h !! this with
  | None => inl DanglingPointer
  | Some o =>
      (* 86 *)
      if negb (0 <? refCtr o)%Z then inl AssertionViolated
      else
        (* 88 *)
        let o := setRefCtr o (refCtr o - 1) in
        (* 89-91 *)
        if (refCtr o =? 0)%Z then inr (delete this h)
        else inr (<[this := o]> h)
  end.

(** [n] calls in a row. *)
Fixpoint times (n : nat) (f : Heap → Exc Heap) (h : Heap) : Exc Heap :=
  match n with
  | O => inr h
  | S n' =>
      match f h with
      | inl e => inl e
      | inr h' => times n' f h'
      end
  end.

(** ** Properties *)

Lemma incRef_times (this : nat) (o : FBHelperCore) (h : Heap) (n : nat) :
  h !! this = Some o → (refCtr o + Z.of_nat n ≤ INT_MAX)%Z →
  times n (incRef this) h
  = inr (match n with
         | O => h
         | S _ => <[this := setRefCtr o (refCtr o + Z.of_nat n)]> h
         end).
Proof.
  revert o h. induction n as [|n IH]; intros o h Ho Hn; [done|].
  cbn [times]. unfold incRef at 1. rewrite Ho.
  destruct (Z.eqb_spec (refCtr o) INT_MAX) as [E|_]; [lia|].
  rewrite (IH (setRefCtr o (refCtr o + 1))); cycle 1.
  { apply lookup_insert_eq. }
  { simpl. lia. }
  destruct n as [|n]; [f_equal; f_equal; f_equal; simpl; lia|].
  rewrite insert_insert_eq. do 2 f_equal. unfold setRefCtr. simpl.
  f_equal. lia.
Qed.

Lemma decRef_times (this : nat) (o : FBHelperCore) (h : Heap) (m : nat) :
  h !! this = Some o → (Z.of_nat m < refCtr o)%Z →
  times m (decRef this) h
  = inr (match m with
         | O => h
         | S _ => <[this := setRefCtr o (refCtr o - Z.of_nat m)]> h
         end).
Proof.
  revert o h. induction m as [|m IH]; intros o h Ho Hm; [done|].
  cbn [times]. unfold decRef at 1. rewrite Ho.
  destruct (Z.ltb_spec 0 (refCtr o)) as [_|E]; [|lia]. cbn [negb].
  cbn [refCtr setRefCtr].
  destruct (Z.eqb_spec (refCtr o - 1) 0) as [E|_]; [lia|].
  rewrite (IH (setRefCtr o (refCtr o - 1))); cycle 1.
  { apply lookup_insert_eq. }
  { simpl. lia. }
  destruct m as [|m]; [f_equal; f_equal; f_equal; simpl; lia|].
  rewrite insert_insert_eq. do 2 f_equal. unfold setRefCtr. simpl.
  f_equal. lia.
Qed.

Lemma decRef_last (this : nat) (o : FBHelperCore) (h : Heap) :
  h !! this = Some o → refCtr o = 1%Z →
  decRef this h = inr (delete this h).
Proof. intros Ho Hr. unfold decRef. by rewrite Ho, Hr. Qed.

Lemma times_app n m f h :
  times (n + m) f h
  = match times n f h with inl e => inl e | inr h' => times m f h' end.
Proof.
  revert h. induction n as [|n IH]; intros h; simpl; [done|].
  destruct (f h); [done|]. apply IH.
Qed.

(** X22: the life of a counted object.  On an object whose counter is 0,
    as the constructor leaves it, [decRef] fails its assertion.  After [n]
    calls of [incRef] ([1 <= n < 2^31]) and [m < n] calls of [decRef] the
    object is alive and its counter is [n - m]; the [n - m] calls of
    [decRef] that remain delete it, with the last call and not before;
    every other object is as it was, and a further [decRef] goes through a
    dangling pointer. *)
Theorem incRef_decRef_lifecycle (this : nat) (o : FBHelperCore) (h : Heap)
    (n m : nat) :
  h !! this = Some o → refCtr o = 0%Z →
  1 ≤ n → (Z.of_nat n ≤ INT_MAX)%Z → m < n →
  decRef this h = inl AssertionViolated ∧
  ∃ h1 h2 h3,
    times n (incRef this) h = inr h1 ∧
    times m (decRef this) h1 = inr h2 ∧
    refCtr <$> h2 !! this = Some (Z.of_nat (n - m)) ∧
    times (n - m) (decRef this) h2 = inr h3 ∧
    h3 !! this = None ∧ (∀ q, q ≠ this → h3 !! q = h !! q) ∧
    decRef this h3 = inl DanglingPointer.
Proof.
  intros Ho Hr Hn Hmax Hm. split.
  { unfold decRef. by rewrite Ho, Hr. }
  set (o1 := setRefCtr o (refCtr o + Z.of_nat n)).
  set (h1 := <[this := o1]> h).
  assert (E1 : times n (incRef this) h = inr h1).
  { rewrite (incRef_times this o h n Ho) by lia. by destruct n; [lia|]. }
  assert (Ho1 : h1 !! this = Some o1) by apply lookup_insert_eq.
  assert (Hr1 : refCtr o1 = Z.of_nat n) by (simpl; lia).
  set (o2 := setRefCtr o1 (refCtr o1 - Z.of_nat m)).
  set (h2 := <[this := o2]> h).
  assert (E2 : times m (decRef this) h1 = inr h2).
  { rewrite (decRef_times this o1 h1 m Ho1) by lia.
    destruct m as [|m'].
    - unfold h1, h2. replace o2 with o1; [done|].
      unfold o2, o1, setRefCtr. simpl. f_equal. lia.
    - f_equal. unfold h1, h2. by rewrite insert_insert_eq. }
  assert (Ho2 : h2 !! this = Some o2) by apply lookup_insert_eq.
  assert (Hr2 : refCtr o2 = Z.of_nat (n - m)) by (simpl; lia).
  set (o3 := setRefCtr o2 1).
  set (h2' := <[this := o3]> h).
  assert (E3 : times (n - m) (decRef this) h2 = inr (delete this h2')).
  { replace (n - m) with ((n - m - 1) + 1) by lia. rewrite times_app.
    rewrite (decRef_times this o2 h2 (n - m - 1) Ho2) by lia.
    destruct (n - m - 1) as [|k] eqn:Ek.
    - cbn [times]. rewrite (decRef_last this o2 h2 Ho2) by lia.
      f_equal. unfold h2, h2'. by rewrite !delete_insert_eq.
    - cbn [times].
      rewrite (decRef_last this (setRefCtr o2 (refCtr o2 - Z.of_nat (S k))));
        cycle 1.
      { apply lookup_insert_eq. }
      { simpl. lia. }
      f_equal. unfold h2, h2'. by rewrite !delete_insert_eq. }
  exists h1, h2, (delete this h2').
  split_and!; try done.
  - by rewrite Ho2, <- Hr2.
  - apply lookup_delete_eq.
  - intros q Hq. unfold h2'.
    rewrite lookup_delete_ne by done. by apply lookup_insert_ne.
  - unfold decRef. by rewrite lookup_delete_eq.
Qed.

(** X22, at three references to a new object at address 5, two of them
    dropped, beside an object at address 6. *)
Lemma incRef_decRef_lifecycle_witness :
  let h : Heap := {[5 := new; 6 := mkFBHelperCore 4 2 0]} in
  decRef 5 h = inl AssertionViolated ∧
  ∃ h1 h2 h3,
    times 3 (incRef 5) h = inr h1 ∧
    times 2 (decRef 5) h1 = inr h2 ∧
    refCtr <$> h2 !! 5 = Some (Z.of_nat (3 - 2)) ∧
    times (3 - 2) (decRef 5) h2 = inr h3 ∧
    h3 !! 5 = None ∧ (∀ q, q ≠ 5 → h3 !! q = h !! q) ∧
    decRef 5 h3 = inl DanglingPointer.
Proof.
  intros h.
  apply (incRef_decRef_lifecycle 5 new h 3 2).
  - reflexivity.
  - reflexivity.
  - lia.
  - unfold INT_MAX. lia.
  - lia.
Defined.

End Api.

(* ===================================================================== *)
(** * Inferences/Induction.hpp: [InductionContext]                        *)
(* ===================================================================== *)

Module Induction.

(** Terms, literals and clauses are reached through pointers; only their
    addresses matter here. *)
Abbreviation TermPtr := nat.
Abbreviation LiteralPtr := nat.
Abbreviation ClausePtr := nat.

(** [LiteralStack], bottom first, and [ClauseToLiteralMap] (line 43). *)
Abbreviation LiteralStack := (list LiteralPtr).
Abbreviation ClauseToLiteralMap := (gmap ClausePtr LiteralStack).

(** [struct InductionContext], lines 94-129: [_indTerm] and [_cls]. *)
Record InductionContext : Type := mkInductionContext {
  _indTerm : option TermPtr;
  _cls : ClauseToLiteralMap
}.

(** [InductionContext(Term* t)], lines 95-96. *)
Definition new1 (t : TermPtr) : InductionContext :=
  mkInductionContext (Some t) ∅.

(** [InductionContext::insert], lines 103-107: [emplace] adds the empty
    stack when [cl] has none and returns the node of [cl]; [lit] is
    pushed on its stack. *)
Definition insert (cl : ClausePtr) (lit : LiteralPtr)
    (ctx : InductionContext) : InductionContext :=
  let cls :=
    match _cls ctx !! cl with
    | Some _ => _cls ctx
    | None => <[cl := []]> (_cls ctx)
    end in
  let node := default [] (cls !! cl) in
  mkInductionContext (_indTerm ctx) (<[cl := node ++ [lit]]> cls).

(** [InductionContext(Term* t, Literal* l, Clause* cl)], lines 97-101. *)
Definition new3 (t : TermPtr) (l : LiteralPtr) (cl : ClausePtr)
  : InductionContext :=
  insert cl l (new1 t).

(** A sequence of [insert] calls, first call first. *)
Definition inserts (calls : list (ClausePtr * LiteralPtr))
    (ctx : InductionContext) : InductionContext :=
  foldl (λ acc c, insert c.1 c.2 acc) ctx calls.

(** The literals inserted for [cl] by the calls, in their order. *)
Definition insertedFor (cl : ClausePtr)
    (calls : list (ClausePtr * LiteralPtr)) : list LiteralPtr :=
  omap (λ c, if bool_decide (c.1 = cl) then Some c.2 else None) calls.

(** ** Properties *)

Lemma insert_lookup cl lit ctx :
  _cls (insert cl lit ctx) !! cl
  = Some (default [] (_cls ctx !! cl) ++ [lit]).
Proof.
  unfold insert. simpl. rewrite lookup_insert_eq.
  destruct (_cls ctx !! cl) as [stack|] eqn:E.
  - by rewrite E.
  - by rewrite lookup_insert_eq.
Qed.

Lemma insert_lookup_ne cl lit ctx q :
  q ≠ cl → _cls (insert cl lit ctx) !! q = _cls ctx !! q.
Proof.
  intros Hq. unfold insert. simpl. rewrite lookup_insert_ne by done.
  destruct (_cls ctx !! cl); [done|]. by rewrite lookup_insert_ne.
Qed.

Lemma insertedFor_snoc cl calls c :
  insertedFor cl (calls ++ [c])
  = insertedFor cl calls ++ (if bool_decide (c.1 = cl) then [c.2] else []).
Proof.
  unfold insertedFor. rewrite omap_app. simpl.
  by destruct (bool_decide (c.1 = cl)).
Qed.

(** X23: what a context holds after a sequence of [insert] calls on a new
    context.  The stack of a clause holds exactly the literals inserted
    for that clause, in the order of the calls; a clause for which nothing
    was inserted has no entry (so no stack is empty); the induction term
    is the one given to the constructor; and the constructor with a
    literal and a clause leaves the one entry of that clause with that
    literal. *)
Theorem inserts_collect (t : TermPtr) (calls : list (ClausePtr * LiteralPtr))
    (cl : ClausePtr) (lit : LiteralPtr) :
  let ctx := inserts calls (new1 t) in
  _indTerm ctx = Some t ∧
  _cls ctx !! cl
  = (if bool_decide (insertedFor cl calls = []) then None
     else Some (insertedFor cl calls)) ∧
  _cls (new3 t lit cl) = {[cl := [lit]]}.
Proof.
  intros ctx. subst ctx. split_and!; cycle 2.
  { unfold new3, insert, new1. cbn [_cls]. rewrite lookup_empty.
    rewrite lookup_insert_eq. cbn [default app].
    by rewrite insert_insert_eq, insert_empty. }
  - induction calls as [|c calls IH] using rev_ind; [done|].
    unfold inserts in *. by rewrite foldl_app.
  - induction calls as [|c calls IH] using rev_ind; [done|].
    unfold inserts in *. rewrite foldl_app. cbn [foldl].
    rewrite insertedFor_snoc.
    destruct (decide (c.1 = cl)) as [<-|Hne].
    + rewrite insert_lookup, IH.
      rewrite (bool_decide_eq_true_2 (c.1 = c.1)) by done.
      rewrite (bool_decide_eq_false_2 (_ ++ [c.2] = [])); cycle 1.
      { by destruct (insertedFor c.1 calls). }
      by case_bool_decide as E; [rewrite E|].
    + rewrite insert_lookup_ne by done. rewrite IH.
      rewrite (bool_decide_eq_false_2 (c.1 = cl)) by done.
      by rewrite app_nil_r.
Qed.

End Induction.

(* ===================================================================== *)
(** * A concrete run: the demodulator [f(x) = x]                          *)
(* ===================================================================== *)

(** The equational part of scenario E2 of the specification: the active
    unit equality [f(x) = x] and the candidate clauses [p(f(f(a))) | ~q(a)]
    and [f(a) = a], under the subterm ordering. *)
Module Scenario.
Import Kernel Indexing Inferences.

(** Function symbols [f] and [a], predicate symbols [p] and [q]. *)
Definition f (t : TermList) : TermList := App 1 [t].
Definition a : TermList := App 2 [].
Definition p (t : TermList) : Literal := mkLiteral 1 true [t].
Definition not_q (t : TermList) : Literal := mkLiteral 2 false [t].

(** [occurs t s]: [t] is a subterm of [s]. *)
Fixpoint occurs (t s : TermList) : bool :=
  bool_decide (s = t)
  || match s with
     | Var _ => false
     | App _ args => existsb (occurs t) args
     end.

(** The proper subterm ordering: [s > t] when [t] occurs in an argument
    of [s]. *)
Definition properSubterm (s t : TermList) : bool :=
  match s with
  | Var _ => false
  | App _ args => existsb (occurs t) args
  end.

Definition cachedOrder (l : Literal) : Result :=
  match lit_args l with
  | [a0; a1] =>
      if properSubterm a0 a1 then GREATER
      else if properSubterm a1 a0 then LESS
      else if bool_decide (a0 = a1) then EQUAL
      else INCOMPARABLE
  | _ => INCOMPARABLE
  end.

Definition ordering : Ordering := mkOrdering cachedOrder properSubterm.

Definition iota : TermList := App 0 [].   (* the only sort *)

Definition sig : Signature :=
  mkSignature (λ _, 0) (λ _, 0) (λ _, false) (λ _, iota) (λ _, iota).

Definition clauseColor (c : Clause) : Color := COLOR_TRANSPARENT.

Definition noSortMatch (eqSort querySort : TermList)
  : option RobSubstitution := None.

(** The active unit equality [f(x) = x]. *)
Definition demodulatorLit : Literal := mkLiteral 0 true [f (Var 0); Var 0].
Definition demodulator : Clause := mkClause [demodulatorLit] FromInput.

(** The hit for a query [f(t)]: the substitution binds [x] to [t]. *)
Definition hit (t : TermList) : QueryRes :=
  mkQueryRes (mkDemodulatorData (f (Var 0)) demodulatorLit demodulator)
             (mkResultSubstitution (λ _, t) true).

(** The index that holds the left-hand side [f(x)] only. *)
Definition index : DemodulationLHSIndex :=
  mkDemodulationLHSIndex
    (λ trm _,
       match trm with
       | App 1 [t] => [hit t]
       | _ => []
       end).

Definition helper : DemodulationHelper :=
  mkDemodulationHelper (λ _ _ _, false) (λ _ _ _ _ _ _ _, true).

Definition start : PerformState :=
  mkPerformState [] (mkRobSubstitution Var) (mkStatistics 0 0) [].

(** The release build, with [p(a)] in the slots that are not written. *)
Definition release : Build := mkBuild false (p a) (λ _ t, t).

Definition run (cl : Clause) : Outcome :=
  perform sig clauseColor noSortMatch ordering index helper false false
          cl None [] start.

Definition candidate : Clause :=
  mkClause [p (f (f a)); not_q a] FromInput.

Definition trivialEquality : Clause :=
  mkClause [mkLiteral 0 true [f a; a]] FromInput.

(** A signature in which the predicate symbol 3 is an answer predicate,
    and a clause of one answer literal that holds the term [f(f(a))]. *)
Definition answerSig : Signature :=
  mkSignature (λ _, 0) (λ _, 0) (λ pr, bool_decide (pr = 3))
              (λ _, iota) (λ _, iota).

Definition answerClause : Clause :=
  mkClause [mkLiteral 3 true [f (f a)]] FromInput.

(** ** The collaborators of the run meet the assumptions *)

Lemma occurs_refl t : occurs t t = true.
Proof. destruct t; simpl; by rewrite bool_decide_eq_true_2. Qed.

Lemma occurs_applyTo (θ : SubstApplicator) t s :
  occurs t s = true → occurs (applyTo θ t) (applyTo θ s) = true.
Proof.
  induction s as [v | g args IH] using TermList_ind'; simpl.
  - rewrite orb_false_r. intros <-%bool_decide_eq_true. apply occurs_refl.
  - intros [<-%bool_decide_eq_true | Hex]%orb_true_iff.
    { apply (occurs_refl (applyTo θ (App g args))). }
    apply orb_true_iff. right.
    apply existsb_exists in Hex as (x & Hx & Hocc).
    apply existsb_exists. exists (applyTo θ x). split.
    + by apply in_map.
    + rewrite Forall_forall in IH. apply IH; [|done].
      by apply list_elem_of_In.
Qed.

Lemma properSubterm_stable s t (θ : SubstApplicator) :
  isGreater ordering s t = true →
  isGreater ordering (applyTo θ s) (applyTo θ t) = true.
Proof.
  simpl. destruct s as [v | g args]; simpl; [done|].
  intros (x & Hx & Hocc)%existsb_exists.
  apply existsb_exists. exists (applyTo θ x). split.
  - by apply in_map.
  - by apply occurs_applyTo.
Qed.

Lemma cachedOrder_sound eq a0 a1 :
  lit_args eq = [a0; a1] →
  (getEqualityArgumentOrder ordering eq = GREATER →
   isGreater ordering a0 a1 = true) ∧
  (getEqualityArgumentOrder ordering eq = LESS →
   isGreater ordering a1 a0 = true).
Proof.
  simpl. unfold cachedOrder. intros ->.
  destruct (properSubterm a0 a1) eqn:E0; [by split|].
  destruct (properSubterm a1 a0) eqn:E1; [by split|].
  by destruct (bool_decide (a0 = a1)).
Qed.

Lemma index_instantiates trm qr vSubst :
  qr ∈ getGeneralizations index trm true →
  (isVar (term (data qr)) = true →
   noSortMatch (getEqualityArgumentSort sig (literal (data qr)))
               (getResultSort sig trm) = Some vSubst) →
  applyTo (chooseApplicator (term (data qr)) (unifier qr) vSubst)
          (term (data qr)) = trm.
Proof.
  intros Hin _. simpl in Hin.
  destruct trm as [v | [|[|g]] [|t [|t' args]]];
    try by apply elem_of_nil in Hin.
  by apply list_elem_of_singleton in Hin as ->.
Qed.

Lemma index_oriented trm qr :
  qr ∈ getGeneralizations index trm true →
  ∃ rhs,
    getOtherEqualitySide (literal (data qr)) (term (data qr)) = Some rhs ∧
    (getEqualityArgumentOrder ordering (literal (data qr)) = LESS →
     nthArgument (literal (data qr)) 0 = Some rhs) ∧
    (getEqualityArgumentOrder ordering (literal (data qr)) = GREATER →
     nthArgument (literal (data qr)) 1 = Some rhs).
Proof.
  intros Hin. simpl in Hin.
  destruct trm as [v | [|[|g]] [|t [|t' args]]];
    try by apply elem_of_nil in Hin.
  apply list_elem_of_singleton in Hin as ->.
  exists (Var 0). by split_and!.
Qed.

(** ** The runs *)

Example run_candidate :
  ∃ st, run candidate
        = Returned true
            (Some (mkClause [p (f a); not_q a]
                     (SimplifyingInference2 FORWARD_DEMODULATION
                        candidate demodulator)))
            [demodulator] st
        ∧ trace st = [EvQuery (p (f (f a))) (f (f a));
                      EvRewrite (p (f (f a))) (f (f a)) (hit (f a))
                                (f a) (p (f a))].
Proof. eexists. split; vm_compute; reflexivity. Qed.

Example run_trivialEquality :
  ∃ st, run trivialEquality = Returned true None [demodulator] st.
Proof. eexists. vm_compute. reflexivity. Qed.

(** With the candidate coloured left and the unit equality coloured right
    every hit is skipped and the call returns false, its reference
    parameters untouched; the term [a], met again in the second literal, is
    not queried a second time. *)
Example run_incompatible_colours :
  let colours (c : Clause) :=
    if bool_decide (c = demodulator) then COLOR_RIGHT else COLOR_LEFT in
  ∃ st,
    perform sig colours noSortMatch ordering index helper false false
            candidate None [] start
    = Returned false None [] st
    ∧ trace st = [EvQuery (p (f (f a))) (f (f a));
                  EvSkip (p (f (f a))) (f (f a)) (hit (f a)) IncompatibleColor;
                  EvQuery (p (f (f a))) (f a);
                  EvSkip (p (f (f a))) (f a) (hit a) IncompatibleColor;
                  EvQuery (p (f (f a))) a].
Proof. eexists. split; vm_compute; reflexivity. Qed.

(** An index that is not oriented: for every query [t] it hands out the
    smaller side [x] of the pre-ordered equality [f(x) = x], with [x]
    bound to [t].  The debug build stops at the assertion of lines
    156-165; the release build rewrites [a] to the greater term [f(a)]. *)
Example run_unoriented_index :
  let unoriented :=
    mkDemodulationLHSIndex
      (λ trm _,
         [mkQueryRes (mkDemodulatorData (Var 0) demodulatorLit demodulator)
                     (mkResultSubstitution (λ _, trm) true)]) in
  let sortMatches (eqSort querySort : TermList) :=
    Some (mkRobSubstitution Var) in
  (∃ st, perform sig clauseColor sortMatches ordering unoriented helper
                 false false (mkClause [p a] FromInput) None [] start
         = AssertionViolation st) ∧
  (∃ st, performIn sig clauseColor sortMatches ordering unoriented helper
                   false false release (mkClause [p a] FromInput) None []
                   start
         = Returned true
             (Some (mkClause [p (f a)]
                      (SimplifyingInference2 FORWARD_DEMODULATION
                         (mkClause [p a] FromInput) demodulator)))
             [demodulator] st).
Proof. split; eexists; vm_compute; reflexivity. Qed.

(** C1, at the run of the release build on [candidate] with
    [_preorderedOnly] set: the rewrite of [f(f(a))] to [f(a)] by the
    pre-ordered equality [f(x) = x] satisfies [f(f(a)) > f(a)]. *)
Lemma forward_demodulation_ordering_witness :
  ∃ rhs vSubst,
    getOtherEqualitySide demodulatorLit (f (Var 0)) = Some rhs ∧
    f a = AppliedTerm rhs
            (Some (chooseApplicator (f (Var 0)) (unifier (hit (f a))) vSubst)) ∧
    p (f a) = replace (p (f (f a))) (f (f a)) (f a) ∧
    isGreater ordering (f (f a)) (f a) = true ∧
    (isPreordered (cachedOrder demodulatorLit) = false →
     isGreater ordering (AppliedTerm (f (f a)) None) (f a) = true) ∧
    (true = true → isPreordered (cachedOrder demodulatorLit) = true).
Proof.
  apply (forward_demodulation_ordering sig clauseColor noSortMatch ordering
           index helper true false
           properSubterm_stable cachedOrder_sound index_instantiates
           index_oriented release
           candidate None [] start
           (p (f (f a))) (f (f a)) (hit (f a)) (f a) (p (f a))).
  vm_compute. right. left.
Defined.

(** C2, at the run of the release build on [candidate], which holds no
    literal twice. *)
Lemma perform_replacement_clause_witness :
  ∃ skipped lit trm qr rhs vSubst,
    let rhsS :=
      if isVar (term (data qr))
      then RobSubstitution_apply vSubst
             (applyToBoundResult (unifier qr) rhs) 0
      else applyToBoundResult (unifier qr) rhs in
    let resLit := replace lit trm rhsS in
    [EvQuery (p (f (f a))) (f (f a));
     EvRewrite (p (f (f a))) (f (f a)) (hit (f a)) (f a) (p (f a))]
    = skipped ++ [EvRewrite lit trm qr rhsS resLit] ∧
    noRewrite skipped ∧
    lit ∈ literals candidate ∧ subtermOfLit sig lit trm ∧
    qr ∈ getGeneralizations index trm true ∧
    getOtherEqualitySide (literal (data qr)) (term (data qr)) = Some rhs ∧
    (isVar (term (data qr)) = true →
     noSortMatch (getEqualityArgumentSort sig (literal (data qr)))
                 (getResultSort sig trm) = Some vSubst) ∧
    [demodulator] = [clause (data qr)] ∧
    (VDEBUG release = true → length_ (clause (data qr)) = 1) ∧
    (isEqTautology resLit = false →
     ∃ pre post,
       literals candidate = pre ++ lit :: post ∧ (lit ∉ pre) ∧ (lit ∉ post) ∧
       Some (mkClause [p (f a); not_q a]
               (SimplifyingInference2 FORWARD_DEMODULATION
                  candidate demodulator))
       = Some (mkClause (resLit :: pre ++ post)
                 (SimplifyingInference2 FORWARD_DEMODULATION candidate
                    (clause (data qr))))).
Proof.
  apply (perform_replacement_clause sig clauseColor noSortMatch ordering
           index helper false false release candidate None [] start
           (Some (mkClause [p (f a); not_q a]
                    (SimplifyingInference2 FORWARD_DEMODULATION
                       candidate demodulator)))
           [demodulator]
           (mkPerformState [f (f a)] (mkRobSubstitution Var)
              (mkStatistics 0 1)
              [EvQuery (p (f (f a))) (f (f a));
               EvRewrite (p (f (f a))) (f (f a)) (hit (f a)) (f a)
                         (p (f a))])).
  - vm_compute. reflexivity.
  - right. split.
    + apply (bool_decide_unpack _). vm_compute. exact I.
    + intros trm qr Hqr.
      destruct (index_oriented trm qr Hqr) as (rhs & -> & _). by eexists.
Defined.

(** C3, at the run on [trivialEquality]: [f(a) = a] is rewritten to
    [a = a], the call returns true and [replacement] stays null. *)
Lemma perform_equality_tautology_witness :
  mkLiteral 0 true [a; a] = replace (mkLiteral 0 true [f a; a]) (f a) a ∧
  length_ (clause (data (hit a))) = 1 ∧
  ∃ st', run trivialEquality
         = Returned true None [clause (data (hit a))] st'.
Proof.
  apply (perform_equality_tautology sig clauseColor noSortMatch ordering
           index helper false false trivialEquality None [] start
           (mkLiteral 0 true [f a; a]) (f a) (hit a) a
           (mkLiteral 0 true [a; a])).
  - vm_compute. right. right. left.
  - reflexivity.
Defined.

(** X16, at a clause of one answer literal: its term [f(f(a))], which
    the index could rewrite, is not looked at. *)
Lemma perform_answer_literals_only_witness :
  perform answerSig clauseColor noSortMatch ordering index helper false false
          answerClause None [] start
  = Returned false None [] (mkPerformState [] (mkRobSubstitution Var)
                                           (mkStatistics 0 0) []).
Proof.
  apply (perform_answer_literals_only answerSig clauseColor noSortMatch
           ordering index helper false false answerClause None [] start).
  repeat constructor.
Defined.

End Scenario.
